(** * gencolormap: the colour-map engine of [colormap.cpp]

    A shallow embedding of the colour-space conversions, the gamut solver,
    the Bezier profile and the four generators of [colormap.cpp], and the
    theorems that settle the specification's statements about them.

    Arithmetic model.  A C [float] is read as a real number and every
    operation as the exact operation on reals: the binary32 rounding of
    arithmetic and library calls, overflow and signed zeros are outside the
    model.  What the exact reading would
    hide is kept explicit: a division whose divisor is not a non-zero
    constant goes through [fdiv], which faults on a zero divisor, and the
    library functions with a restricted domain ([powf], [sqrtf], [fmodf])
    fault outside it.  A fault is the [None] of the [option] monad; in the C
    program it is the point where an infinity or a NaN would be produced.
    An [int] is an integer of [Z]; an [unsigned char] is an integer in
    [0, 255]; the buffer [colormap] is the list of its entries, three bytes
    each, in the order in which the loop writes them.

    The conversion of an [int] to [float] is exact up to 2^24 in magnitude
    and rounds beyond.  CubeHelix compares what it computes from the
    quotient [i / (n - 1.0f)] with 1 to decide which colours it counts as
    clipped, so there the conversion of [i] and [n] is written out as
    [float_of_int]; in the Brewer generators, whose colours depend on the
    quotient continuously, it is read as exact like the arithmetic around
    it. *)

From Stdlib Require Import Reals Lra Lia ZArith List Bool Psatz.
Import ListNotations.

Local Open Scope R_scope.

(** ** The fault monad *)

Definition ret {A : Type} (a : A) : option A := Some a.

Definition bind {A B : Type} (m : option A) (f : A -> option B) : option B :=
  match m with
  | Some a => f a
  | None => None
  end.

Notation "x <- m ;; k" := (bind m (fun x => k))
  (at level 61, m at next level, right associativity).
Notation "' pat <- m ;; k" := (bind m (fun x => match x with pat => k end))
  (at level 61, pat pattern, m at next level, right associativity).

(** [for (int i = start; ...; i++)] run [count] times over a loop state. *)
Fixpoint for_loop {S : Type} (body : Z -> S -> option S)
    (i : Z) (count : nat) (s : S) : option S :=
  match count with
  | O => ret s
  | Datatypes.S count' => s' <- body i s ;; for_loop body (i + 1)%Z count' s'
  end.

(** ** Float primitives *)

Definition fltb (x y : R) : bool := if Rlt_dec x y then true else false.
Definition fleb (x y : R) : bool := if Rle_dec x y then true else false.

(** [x / y] with a divisor that is not a non-zero constant. *)
Definition fdiv (x y : R) : option R :=
  if Req_dec_T y 0 then None else Some (x / y).

(** [std::min(a, b)] is [(b < a) ? b : a], [std::max(a, b)] is
    [(a < b) ? b : a]. *)
Definition fmin (a b : R) : R := if fltb b a then b else a.
Definition fmax (a b : R) : R := if fltb a b then b else a.

(** The C library, on reals. *)
Module LibM.

Definition floorZ (x : R) : Z := Int_part x.

(** Rounding toward zero, the conversion of a float to an integer type. *)
Definition truncZ (x : R) : Z :=
  if Rlt_dec x 0 then (- floorZ (- x))%Z else floorZ x.

(** [std::round]: to the nearest integer, halves away from zero. *)
Definition roundf (x : R) : R :=
  if Rlt_dec x 0 then - IZR (floorZ (- x + / 2)) else IZR (floorZ (x + / 2)).

Definition sqrtf (x : R) : option R :=
  if Rlt_dec x 0 then None else Some (sqrt x).

Definition cbrtf (x : R) : R :=
  if Rlt_dec 0 x then Rpower x (/ 3)
  else if Rlt_dec x 0 then - Rpower (- x) (/ 3)
  else 0.

Definition hypotf (x y : R) : R := sqrt (x * x + y * y).

(** [std::pow] on a base that is not negative; a negative base (never
    passed by this program) and [pow(0, y)] with [y < 0] are faults. *)
Definition powf (x y : R) : option R :=
  if Rlt_dec 0 x then Some (Rpower x y)
  else if Rlt_dec x 0 then None
  else if Rlt_dec 0 y then Some 0
  else if Rlt_dec y 0 then None
  else Some 1.

(** [std::atan2(y, x)], in (-PI, PI]. *)
Definition atan2f (y x : R) : R :=
  if Rlt_dec 0 x then atan (y / x)
  else if Rlt_dec x 0 then
    (if Rlt_dec y 0 then atan (y / x) - PI else atan (y / x) + PI)
  else if Rlt_dec 0 y then PI / 2
  else if Rlt_dec y 0 then - (PI / 2)
  else 0.

(** [std::fmod(x, y)]: [x - n * y] with [n] the quotient rounded toward
    zero. *)
Definition fmodf (x y : R) : option R :=
  if Req_dec_T y 0 then None else Some (x - IZR (truncZ (x / y)) * y).

End LibM.
Import LibM.

(** Conversion of a float to [unsigned char]: the value rounded toward zero
    when that is in range, undefined otherwise. *)
Definition uchar_of_float (x : R) : option Z :=
  let t := truncZ x in
  if ((0 <=? t) && (t <=? 255))%Z then Some t else None.

(** Conversion of an [int] to [float]: the nearest number with a
    significand of 24 bits, a tie going to the even significand.  With
    [e] the number of low bits that do not fit, the value is a multiple of
    [2 ^ e]; up to 2^24 in magnitude nothing is dropped. *)
Definition float_of_int (n : Z) : R :=
  let a := Z.abs n in
  let e := (Z.log2 a - 23)%Z in
  if (e <=? 0)%Z then IZR n
  else
    let ulp := (2 ^ e)%Z in
    let q := (a / ulp)%Z in
    let r := (a mod ulp)%Z in
    let q :=
      if (2 * r <? ulp)%Z then q
      else if (ulp <? 2 * r)%Z then (q + 1)%Z
      else if Z.even q then q else (q + 1)%Z in
    IZR (Z.sgn n * (q * ulp)).

(** ** Generic helpers *)

Definition pi : R := PI.
Definition twopi : R := 2 * PI.

Definition clamp (x lo hi : R) : R := fmin (fmax x lo) hi.

(** An entry of the colour map: the bytes [colormap[3*i+0..2]]. *)
Definition srgb8 : Type := (Z * Z * Z)%type.

(** ** XYZ and related colour spaces: helper functions and values *)

Definition u_prime (x y z : R) : option R :=
  fdiv (4 * x) (x + 15 * y + 3 * z).

Definition v_prime (x y z : R) : option R :=
  fdiv (9 * y) (x + 15 * y + 3 * z).

Definition d65_x : R := 95.047.
Definition d65_y : R := 100.
Definition d65_z : R := 108.883.

(** The static constants [u_prime(d65_x, d65_y, d65_z)] and
    [v_prime(d65_x, d65_y, d65_z)]; [d65_prime_init] below shows that these
    are the values the two initialisers compute. *)
Definition d65_u_prime : R := 4 * d65_x / (d65_x + 15 * d65_y + 3 * d65_z).
Definition d65_v_prime : R := 9 * d65_y / (d65_x + 15 * d65_y + 3 * d65_z).

(** ** LCH <-> LUV *)

Definition lch_saturation (l c : R) : option R := fdiv c (fmax l 1e-8).

Definition lch_chroma (l s : R) : R := s * l.

(** The pair [( *u, *v )]. *)
Definition lch_to_luv (c h : R) : R * R := (c * cos h, c * sin h).

(** The pair [( *c, *h )]. *)
Definition luv_to_lch (u v : R) : R * R :=
  let c := hypotf u v in
  let h := atan2f v u in
  let h := if fltb h 0 then h + twopi else h in
  (c, h).

Definition luv_saturation (l u v : R) : option R :=
  lch_saturation l (hypotf u v).

(** ** LUV <-> XYZ *)

Definition luv_to_xyz (l u v : R) : option (R * R * R) :=
  du <- fdiv u (13 * l) ;;
  let u_prime := du + d65_u_prime in
  dv <- fdiv v (13 * l) ;;
  let v_prime := dv + d65_v_prime in
  let y :=
    if fleb l 8 then d65_y * l * (3 * 3 * 3 / (29 * 29 * 29))
    else
      let tmp := (l + 16) / 116 in
      d65_y * tmp * tmp * tmp in
  x <- fdiv (y * (9 * u_prime)) (4 * v_prime) ;;
  z <- fdiv (y * (12 - 3 * u_prime - 20 * v_prime)) (4 * v_prime) ;;
  ret (x, y, z).

Definition xyz_to_luv (x y z : R) : option (R * R * R) :=
  let y_ratio := y / d65_y in
  let l :=
    if fleb y_ratio ((6 * 6 * 6) / (29 * 29 * 29))
    then (29 * 29 * 29) / (3 * 3 * 3) * y_ratio
    else 116 * cbrtf y_ratio - 16 in
  up <- u_prime x y z ;;
  let u := 13 * l * (up - d65_u_prime) in
  vp <- v_prime x y z ;;
  let v := 13 * l * (vp - d65_v_prime) in
  ret (l, u, v).

(** ** RGB <-> XYZ *)

Definition rgb_to_xyz (r g b : R) : R * R * R :=
  ((0.4124 * r + 0.3576 * g + 0.1805 * b) * 100,
   (0.2126 * r + 0.7152 * g + 0.0722 * b) * 100,
   (0.0193 * r + 0.1192 * g + 0.9505 * b) * 100).

Definition xyz_to_rgb (x y z : R) : R * R * R :=
  (clamp ((3.2406255 * x - 1.5372080 * y - 0.4986286 * z) / 100) 0 1,
   clamp ((-0.9689307 * x + 1.8757561 * y + 0.0415175 * z) / 100) 0 1,
   clamp ((0.0557101 * x - 0.2040211 * y + 1.0569959 * z) / 100) 0 1).

(** ** RGB <-> sRGB *)

Definition rgb_to_srgb_helper (x : R) : option R :=
  if fleb x 0.0031308 then ret (x * 12.92)
  else p <- powf x (1 / 2.4) ;; ret (1.055 * p - 0.055).

Definition rgb_to_srgb (r g b : R) : option (R * R * R) :=
  sr <- rgb_to_srgb_helper r ;;
  sg <- rgb_to_srgb_helper g ;;
  sb <- rgb_to_srgb_helper b ;;
  ret (sr, sg, sb).

Definition srgb_to_rgb_helper (x : R) : option R :=
  if fleb x 0.04045 then ret (x / 12.92)
  else powf ((x + 0.055) / 1.055) 2.4.

Definition srgb_to_rgb (sr sg sb : R) : option (R * R * R) :=
  r <- srgb_to_rgb_helper sr ;;
  g <- srgb_to_rgb_helper sg ;;
  b <- srgb_to_rgb_helper sb ;;
  ret (r, g, b).

(** ** Helpers for LUV colours *)

Module LUV.
Record LUVColor : Type := mk { l : R; u : R; v : R }.
End LUV.
Abbreviation LUVColor := LUV.LUVColor.

(** [operator+] and [operator*]. *)
Definition luv_add (a b : LUVColor) : LUVColor :=
  LUV.mk (LUV.l a + LUV.l b) (LUV.u a + LUV.u b) (LUV.v a + LUV.v b).

Definition luv_scale (a : R) (b : LUVColor) : LUVColor :=
  LUV.mk (a * LUV.l b) (a * LUV.u b) (a * LUV.v b).

Declare Scope luv_scope.
Delimit Scope luv_scope with luv.
Infix "+" := luv_add : luv_scope.
Infix "*" := luv_scale : luv_scope.

Definition srgb_to_lch_hue (sr sg sb : R) : option R :=
  '(r, g, b) <- srgb_to_rgb sr sg sb ;;
  let '(x, y, z) := rgb_to_xyz r g b in
  '(l, u, v) <- xyz_to_luv x y z ;;
  let '(c, h) := luv_to_lch u v in
  ret h.

(** ** The gamut solver *)

(** The matrix [M] of [most_saturated_in_srgb] and its entry [M[r][c]]. *)
Definition M : list (list R) :=
  [ [ 0.4124; 0.3576; 0.1805 ];
    [ 0.2126; 0.7152; 0.0722 ];
    [ 0.0193; 0.1192; 0.9505 ] ].

Definition at2 (m : list (list R)) (r c : nat) : R := nth c (nth r m []) 0.

(** [a[i] = x] on a float array. *)
Fixpoint store (a : list R) (i : nat) (x : R) : list R :=
  match a, i with
  | [], _ => []
  | _ :: a', O => x :: a'
  | y :: a', S i' => y :: store a' i' x
  end.

(** The static table [h[]]: the hues of red, yellow, green, cyan, blue and
    magenta. *)
Definition hue_table : option (list R) :=
  h0 <- srgb_to_lch_hue 1 0 0 ;;
  h1 <- srgb_to_lch_hue 1 1 0 ;;
  h2 <- srgb_to_lch_hue 0 1 0 ;;
  h3 <- srgb_to_lch_hue 0 1 1 ;;
  h4 <- srgb_to_lch_hue 0 0 1 ;;
  h5 <- srgb_to_lch_hue 1 0 1 ;;
  ret [h0; h1; h2; h3; h4; h5].

(** Lines 222-251: the indices [(i, j, k)]. *)
Definition sector (h : list R) (hue : R) : nat * nat * nat :=
  if fltb hue (nth 0 h 0) then (2, 1, 0)%nat
  else if fltb hue (nth 1 h 0) then (1, 2, 0)%nat
  else if fltb hue (nth 2 h 0) then (0, 2, 1)%nat
  else if fltb hue (nth 3 h 0) then (2, 0, 1)%nat
  else if fltb hue (nth 4 h 0) then (1, 0, 2)%nat
  else if fltb hue (nth 5 h 0) then (0, 1, 2)%nat
  else (2, 1, 0)%nat.

(** Lines 253-267: the array [srgb] after the three stores. *)
Definition boundary_srgb (hue : R) : option (list R) :=
  h <- hue_table ;;
  let '(i, j, k) := sector h hue in
  let srgb := [0; 0; 0] in
  let alpha := - sin hue in
  let beta := cos hue in
  let T := alpha * d65_u_prime + beta * d65_v_prime in
  let srgb := store srgb j 0 in
  let srgb := store srgb k 1 in
  let q0 := T * (at2 M 0 k + 15 * at2 M 1 k + 3 * at2 M 2 k)
            - (4 * alpha * at2 M 0 k + 9 * beta * at2 M 1 k) in
  let q1 := T * (at2 M 0 i + 15 * at2 M 1 i + 3 * at2 M 2 i)
            - (4 * alpha * at2 M 0 i + 9 * beta * at2 M 1 i) in
  q <- fdiv (- q0) q1 ;;
  s <- rgb_to_srgb_helper (clamp q 0 1) ;;
  ret (store srgb i s).

Definition most_saturated_in_srgb (hue : R) : option LUVColor :=
  srgb <- boundary_srgb hue ;;
  '(r, g, b) <- srgb_to_rgb (nth 0 srgb 0) (nth 1 srgb 0) (nth 2 srgb 0) ;;
  let '(x, y, z) := rgb_to_xyz r g b in
  '(l, u, v) <- xyz_to_luv x y z ;;
  ret (LUV.mk l u v).

Definition Smax (l h : R) : option R :=
  pmid <- most_saturated_in_srgb h ;;
  let pend := LUV.mk 0 0 0 in
  let pend :=
    if fltb (LUV.l pmid) l then LUV.mk 100 (LUV.u pend) (LUV.v pend)
    else pend in
  alpha <- fdiv (LUV.l pend - l) (LUV.l pend - LUV.l pmid) ;;
  pmids <- luv_saturation (LUV.l pmid) (LUV.u pmid) (LUV.v pmid) ;;
  pends <- luv_saturation (LUV.l pend) (LUV.u pend) (LUV.v pend) ;;
  ret (alpha * (pmids - pends) + pends).

(** The memoised bright point: the LUV colour of linear RGB (1, 1, 0). *)
Definition get_bright_point : option LUVColor :=
  let '(x, y, z) := rgb_to_xyz 1 1 0 in
  '(l, u, v) <- xyz_to_luv x y z ;;
  ret (LUV.mk l u v).

Definition mix_hue (alpha h0 h1 : R) : option R :=
  m <- fmodf (pi + h1 - h0) twopi ;;
  let M := m - pi in
  fmodf (h0 + alpha * M) twopi.

(** ** The Bezier lightness/chroma profile *)

(** The six colours written through [p0, p1, p2, q0, q1, q2]. *)
Record ColorPoints : Type := mkPoints {
  p0 : LUVColor; p1 : LUVColor; p2 : LUVColor;
  q0 : LUVColor; q1 : LUVColor; q2 : LUVColor
}.

Definition get_color_points (hue saturation warmth : R)
    (pb : LUVColor) (pb_hue pb_saturation : R) : option ColorPoints :=
  let '(p0u, p0v) := lch_to_luv 0 hue in
  let p0 := LUV.mk 0 p0u p0v in
  p1 <- most_saturated_in_srgb hue ;;
  let p2l := (1 - warmth) * 100 + warmth * LUV.l pb in
  p2h <- mix_hue warmth hue pb_hue ;;
  sm <- Smax p2l p2h ;;
  let p2c := lch_chroma p2l (fmin sm (warmth * saturation * pb_saturation)) in
  let '(p2u, p2v) := lch_to_luv p2c p2h in
  let p2 := LUV.mk p2l p2u p2v in
  let q0 := ((1 - saturation) * p0 + saturation * p1)%luv in
  let q2 := ((1 - saturation) * p2 + saturation * p1)%luv in
  let q1 := (0.5 * (q0 + q2))%luv in
  ret (mkPoints p0 p1 p2 q0 q1 q2).

Definition B (b0 b1 b2 : LUVColor) (t : R) : LUVColor :=
  let a := (1 - t) * (1 - t) in
  let b := 2 * (1 - t) * t in
  let c := t * t in
  (a * b0 + b * b1 + c * b2)%luv.

Definition invB (b0 b1 b2 v : R) : option R :=
  s <- sqrtf (fmax (b1 * b1 - b0 * b2 + (b0 - 2 * b1 + b2) * v) 0) ;;
  fdiv (b0 - b1 + s) (b0 - 2 * b1 + b2).

(** The lightness asked for at position [t]. *)
Definition target_lightness (t contrast brightness : R) : option R :=
  p <- powf 0.2 ((1 - contrast) * brightness + t * contrast) ;;
  ret (125 - 125 * p).

Definition get_colormap_entry (t : R) (p0 p2 q0 q1 q2 : LUVColor)
    (contrast brightness : R) : option LUVColor :=
  l <- target_lightness t contrast brightness ;;
  T <- (if fleb l (LUV.l q1)
        then s <- invB (LUV.l p0) (LUV.l q0) (LUV.l q1) l ;; ret (0.5 * s)
        else s <- invB (LUV.l q1) (LUV.l q2) (LUV.l p2) l ;; ret (0.5 * s + 0.5)) ;;
  ret (if fleb T 0.5 then B p0 q0 q1 (2 * T) else B q1 q2 p2 (2 * (T - 0.5))).

(** The three bytes written to [srgb[0..2]]. *)
Definition convert_colormap_entry (color : LUVColor) : option srgb8 :=
  '(x, y, z) <- luv_to_xyz (LUV.l color) (LUV.u color) (LUV.v color) ;;
  let '(r, g, b) := xyz_to_rgb x y z in
  '(sr, sg, sb) <- rgb_to_srgb r g b ;;
  c0 <- uchar_of_float (roundf (sr * 255)) ;;
  c1 <- uchar_of_float (roundf (sg * 255)) ;;
  c2 <- uchar_of_float (roundf (sb * 255)) ;;
  ret (c0, c1, c2).

(** One turn of a generator's loop: the colour of entry [i] is converted
    and written to [colormap + 3 * i]. *)
Definition write_entry (color : Z -> option LUVColor) (i : Z)
    (colormap : list srgb8) : option (list srgb8) :=
  c <- color i ;;
  bytes <- convert_colormap_entry c ;;
  ret (colormap ++ [bytes]).

(** The bright point with its hue and saturation, as the three generators
    compute them before the loop. *)
Definition bright_point_lch : option (LUVColor * R * R) :=
  pb <- get_bright_point ;;
  let '(pbc, pbh) := luv_to_lch (LUV.u pb) (LUV.v pb) in
  pbs <- lch_saturation (LUV.l pb) pbc ;;
  ret (pb, pbh, pbs).

(** ** Brewer-like colour maps *)

Definition BrewerSequentialDefaultContrastForSmallN (n : Z) : R :=
  fmin 0.88 (0.34 + 0.06 * IZR n).

Module Sequential.

(** Lines 387-388: the LUV colour of entry [i]. *)
Definition color (n : Z) (cp : ColorPoints) (contrast brightness : R)
    (i : Z) : option LUVColor :=
  t <- fdiv (IZR (n - 1 - i)) (IZR n - 1) ;;
  get_colormap_entry t (p0 cp) (p2 cp) (q0 cp) (q1 cp) (q2 cp)
    contrast brightness.

End Sequential.

Definition BrewerSequential (n : Z)
    (hue contrast saturation brightness warmth : R) : option (list srgb8) :=
  '(pb, pbh, pbs) <- bright_point_lch ;;
  cp <- get_color_points hue saturation warmth pb pbh pbs ;;
  for_loop (write_entry (Sequential.color n cp contrast brightness))
    0%Z (Z.to_nat n) [].

Definition BrewerDivergingDefaultContrastForSmallN (n : Z) : R :=
  fmin 0.88 (0.34 + 0.06 * IZR n).

Module Diverging.

(** Lines 419-432: the neutral colour in the middle of the map. *)
Definition neutral (n : Z) (cp0 cp1 : ColorPoints)
    (contrast brightness warmth pbh : R) : option LUVColor :=
  c0 <- get_colormap_entry 1 (p0 cp0) (p2 cp0) (q0 cp0) (q1 cp0) (q2 cp0)
          contrast brightness ;;
  c1 <- get_colormap_entry 1 (p0 cp1) (p2 cp1) (q0 cp1) (q1 cp1) (q2 cp1)
          contrast brightness ;;
  if (n <=? 9)%Z then
    c0s <- luv_saturation (LUV.l c0) (LUV.u c0) (LUV.v c0) ;;
    c1s <- luv_saturation (LUV.l c1) (LUV.u c1) (LUV.v c1) ;;
    let sn := 0.5 * (c0s + c1s) * warmth in
    let cl := 0.5 * (LUV.l c0 + LUV.l c1) in
    sm <- Smax cl pbh ;;
    let cc := lch_chroma cl (fmin sm sn) in
    let '(cu, cv) := lch_to_luv cc pbh in
    ret (LUV.mk cl cu cv)
  else
    ret (0.5 * (c0 + c1))%luv.

(** Lines 416-442: the LUV colour of entry [i]. *)
Definition color (n : Z) (cp0 cp1 : ColorPoints)
    (contrast brightness warmth pbh : R) (i : Z) : option LUVColor :=
  if ((Z.rem n 2 =? 1) && (i =? Z.quot n 2))%Z then
    neutral n cp0 cp1 contrast brightness warmth pbh
  else
    t <- fdiv (IZR i) (IZR n - 1) ;;
    if (i <? Z.quot n 2)%Z then
      let tt := 2 * t in
      get_colormap_entry tt (p0 cp0) (p2 cp0) (q0 cp0) (q1 cp0) (q2 cp0)
        contrast brightness
    else
      let tt := 2 * (1 - t) in
      get_colormap_entry tt (p0 cp1) (p2 cp1) (q0 cp1) (q1 cp1) (q2 cp1)
        contrast brightness.

End Diverging.

Definition BrewerDiverging (n : Z)
    (hue divergence contrast saturation brightness warmth : R)
    : option (list srgb8) :=
  let hue1 := hue + divergence in
  let hue1 := if fleb twopi hue1 then hue1 - twopi else hue1 in
  '(pb, pbh, pbs) <- bright_point_lch ;;
  cp0 <- get_color_points hue saturation warmth pb pbh pbs ;;
  cp1 <- get_color_points hue1 saturation warmth pb pbh pbs ;;
  for_loop
    (write_entry (Diverging.color n cp0 cp1 contrast brightness warmth pbh))
    0%Z (Z.to_nat n) [].

Definition HueDiff (h0 h1 : R) : R :=
  let t := Rabs (h1 - h0) in
  if fltb t pi then t else twopi - t.

Module Qualitative.

(** The statics [yl] and [yh]: lightness and hue of yellow. *)
Definition yellow : option (R * R) :=
  let '(yx, yy, yz) := rgb_to_xyz 1 1 0 in
  '(yl, yu, yv) <- xyz_to_luv yx yy yz ;;
  let '(yc, yh) := luv_to_lch yu yv in
  ret (yl, yh).

(** The static [rs]: the saturation of red. *)
Definition red_saturation : option R :=
  let '(rx, ry, rz) := rgb_to_xyz 1 0 0 in
  '(rl, ru, rv) <- xyz_to_luv rx ry rz ;;
  luv_saturation rl ru rv.

(** Lines 485-488: lightness [cl] and hue [ch] of entry [i]. *)
Definition lightness_hue (n : Z) (hue divergence contrast brightness : R)
    (yl yh : R) (i : Z) : option (R * R) :=
  let eps := hue / twopi in
  let r := divergence / twopi in
  let l0 := brightness * yl in
  let l1 := (1 - contrast) * l0 in
  t <- fdiv (IZR i) (IZR n - 1) ;;
  ch <- fmodf (twopi * (eps + t * r)) twopi ;;
  let alpha := HueDiff ch yh / pi in
  let cl := (1 - alpha) * l0 + alpha * l1 in
  ret (cl, ch).

(** Lines 485-492: the LUV colour of entry [i]. *)
Definition color (n : Z) (hue divergence contrast saturation brightness : R)
    (yl yh rs : R) (i : Z) : option LUVColor :=
  '(cl, ch) <- lightness_hue n hue divergence contrast brightness yl yh i ;;
  sm <- Smax cl ch ;;
  let cs := fmin sm (saturation * rs) in
  let '(cu, cv) := lch_to_luv (lch_chroma cl cs) ch in
  ret (LUV.mk cl cu cv).

End Qualitative.

Definition BrewerQualitative (n : Z)
    (hue divergence contrast saturation brightness : R)
    : option (list srgb8) :=
  '(yl, yh) <- Qualitative.yellow ;;
  rs <- Qualitative.red_saturation ;;
  for_loop
    (write_entry
       (Qualitative.color n hue divergence contrast saturation brightness
          yl yh rs))
    0%Z (Z.to_nat n) [].

(** ** CubeHelix *)

Module Helix.

(** Lines 504-512: the three channels before clamping.  In
    [i / (n - 1.0f)] both integers are converted to [float]. *)
Definition channels (n : Z) (hue rot saturation gamma : R) (i : Z)
    : option (R * R * R) :=
  fract <- fdiv (float_of_int i) (float_of_int n - 1) ;;
  let angle := twopi * (hue / 3 + 1 + rot * fract) in
  fract <- powf fract gamma ;;
  let amp := saturation * fract * (1 - fract) / 2 in
  let s := sin angle in
  let c := cos angle in
  let r := fract + amp * (-0.14861 * c + 1.78277 * s) in
  let g := fract + amp * (-0.29227 * c - 0.90649 * s) in
  let b := fract + amp * (1.97294 * c) in
  ret (r, g, b).

(** Lines 514-520 for one channel: the channel and the [clipped] flag
    after the [if ... else if]. *)
Definition clip (x : R) (clipped : bool) : R * bool :=
  if fltb x 0 then (0, true)
  else if fltb 1 x then (1, true)
  else (x, clipped).

(** Lines 513-539: clamping, the flag, and the three bytes. *)
Definition entry (n : Z) (hue rot saturation gamma : R) (i : Z)
    : option (srgb8 * bool) :=
  '(r, g, b) <- channels n hue rot saturation gamma i ;;
  let clipped := false in
  let '(r, clipped) := clip r clipped in
  let '(g, clipped) := clip g clipped in
  let '(b, clipped) := clip b clipped in
  c0 <- uchar_of_float (r * 255) ;;
  c1 <- uchar_of_float (g * 255) ;;
  c2 <- uchar_of_float (b * 255) ;;
  ret ((c0, c1, c2), clipped).

(** One turn of the loop over the state [(clippings, colormap)]. *)
Definition body (n : Z) (hue rot saturation gamma : R) (i : Z)
    (st : Z * list srgb8) : option (Z * list srgb8) :=
  let '(clippings, colormap) := st in
  '(c, clipped) <- entry n hue rot saturation gamma i ;;
  let clippings := if clipped then (clippings + 1)%Z else clippings in
  ret (clippings, colormap ++ [c]).

End Helix.

(** [int CubeHelix(int n, unsigned char* colormap, float hue, float rot,
    float saturation, float gamma)]: the returned count and the [n] entries
    written. *)
Definition CubeHelix (n : Z) (hue rot saturation gamma : R)
    : option (Z * list srgb8) :=
  for_loop (Helix.body n hue rot saturation gamma) 0%Z (Z.to_nat n) (0%Z, []).


(** ** Definitions used by the statements *)

(** The indices [i, i+1, ...] visited by [count] turns of a loop. *)
Fixpoint zrange (i : Z) (count : nat) : list Z :=
  match count with
  | O => []
  | S count' => i :: zrange (i + 1)%Z count'
  end.

(** [f] at every element, a fault at the first one that faults. *)
Fixpoint mapM {A C : Type} (f : A -> option C) (xs : list A)
    : option (list C) :=
  match xs with
  | [] => ret []
  | x :: xs' => y <- f x ;; ys <- mapM f xs' ;; ret (y :: ys)
  end.

(** A channel clamped to [0, 1] and its byte. *)
Definition clamp01 (x : R) : R := Rmin (Rmax x 0) 1.
Definition byte_of (x : R) : Z := truncZ (x * 255).

Definition clamped_bytes (rgb : R * R * R) : srgb8 :=
  let '(r, g, b) := rgb in
  (byte_of (clamp01 r), byte_of (clamp01 g), byte_of (clamp01 b)).

(** A colour needs clamping when one of its channels is outside [0, 1]. *)
Definition outside01 (x : R) : bool := fltb x 0 || fltb 1 x.
Definition needs_clamping (rgb : R * R * R) : bool :=
  let '(r, g, b) := rgb in outside01 r || outside01 g || outside01 b.

(** The lightness that [xyz_to_luv] computes from [y]. *)
Definition lightness_of (y : R) : R :=
  let y_ratio := y / d65_y in
  if fleb y_ratio ((6 * 6 * 6) / (29 * 29 * 29))
  then (29 * 29 * 29) / (3 * 3 * 3) * y_ratio
  else 116 * cbrtf y_ratio - 16.

(** The LUV colour of a linear RGB triple: [rgb_to_xyz], then
    [xyz_to_luv]. *)
Definition rgb_to_luv (r g b : R) : option LUVColor :=
  let '(x, y, z) := rgb_to_xyz r g b in
  '(l, u, v) <- xyz_to_luv x y z ;;
  ret (LUV.mk l u v).

(** The coefficient that [most_saturated_in_srgb] computes for channel
    [c]: [q0] is [solver_q hue k] and [q1] is [solver_q hue i]. *)
Definition solver_q (hue : R) (c : nat) : R :=
  let alpha := - sin hue in
  let beta := cos hue in
  let T := alpha * d65_u_prime + beta * d65_v_prime in
  T * (at2 M 0 c + 15 * at2 M 1 c + 3 * at2 M 2 c)
  - (4 * alpha * at2 M 0 c + 9 * beta * at2 M 1 c).

(** The triple with 0 at index [j], 1 at index [k] and [t] at index [i]:
    a point of an edge of the cube when [t] is in [0, 1]. *)
Definition edge_triple (i j k : nat) (t : R) : list R :=
  store (store (store [0; 0; 0] j 0) k 1) i t.

(** The six index triples of [sector]. *)
Definition sector_indices : list (nat * nat * nat) :=
  [(2, 1, 0); (1, 2, 0); (0, 2, 1); (2, 0, 1); (1, 0, 2); (0, 1, 2)]%nat.

(** The hue that [luv_to_lch] computes. *)
Definition hue_of (u v : R) : R := snd (luv_to_lch u v).

(** [y] of [rgb_to_xyz], and the chromaticity of a linear RGB triple
    relative to the white point: [u' - d65_u_prime] and
    [v' - d65_v_prime]. *)
Definition luma (r g b : R) : R := (0.2126 * r + 0.7152 * g + 0.0722 * b) * 100.

Definition chroma_du (r g b : R) : R :=
  let '(x, y, z) := rgb_to_xyz r g b in
  4 * x / (x + 15 * y + 3 * z) - d65_u_prime.

Definition chroma_dv (r g b : R) : R :=
  let '(x, y, z) := rgb_to_xyz r g b in
  9 * y / (x + 15 * y + 3 * z) - d65_v_prime.

(** The LUV colour and the hue of a linear RGB triple, written out. *)
Definition luv_of_rgb (r g b : R) : LUVColor :=
  LUV.mk (lightness_of (luma r g b))
         (13 * lightness_of (luma r g b) * chroma_du r g b)
         (13 * lightness_of (luma r g b) * chroma_dv r g b).

Definition hue_of_rgb (r g b : R) : R :=
  hue_of (LUV.u (luv_of_rgb r g b)) (LUV.v (luv_of_rgb r g b)).

(** The values of the table [h[]]. *)
Definition corner_hues : list R :=
  [ hue_of_rgb 1 0 0; hue_of_rgb 1 1 0; hue_of_rgb 0 1 0;
    hue_of_rgb 0 1 1; hue_of_rgb 0 0 1; hue_of_rgb 1 0 1 ].

(** For the primary of channel [c] (a column of [M]): the denominator of
    its chromaticity and its chromaticity relative to the white point. *)
Definition primary_S (c : nat) : R :=
  at2 M 0 c + 15 * at2 M 1 c + 3 * at2 M 2 c.
Definition primary_du (c : nat) : R :=
  4 * at2 M 0 c / primary_S c - d65_u_prime.
Definition primary_dv (c : nat) : R :=
  9 * at2 M 1 c / primary_S c - d65_v_prime.

(** The middle entry of BrewerDiverging in the words of the specification:
    for [n <= 9] the hue of the bright point, the average of the two
    endpoint lightnesses, and the average of the two endpoint saturations
    capped by [Smax] at that lightness; for larger [n] the average of the
    two endpoint colours. *)
Definition diverging_neutral_stated (n : Z) (cp0 cp1 : ColorPoints)
    (contrast brightness pbh : R) : option LUVColor :=
  c0 <- get_colormap_entry 1 (p0 cp0) (p2 cp0) (q0 cp0) (q1 cp0) (q2 cp0)
          contrast brightness ;;
  c1 <- get_colormap_entry 1 (p0 cp1) (p2 cp1) (q0 cp1) (q1 cp1) (q2 cp1)
          contrast brightness ;;
  if (n <=? 9)%Z then
    c0s <- luv_saturation (LUV.l c0) (LUV.u c0) (LUV.v c0) ;;
    c1s <- luv_saturation (LUV.l c1) (LUV.u c1) (LUV.v c1) ;;
    let cl := (LUV.l c0 + LUV.l c1) / 2 in
    sm <- Smax cl pbh ;;
    let cs := Rmin sm ((c0s + c1s) / 2) in
    ret (LUV.mk cl (cl * cs * cos pbh) (cl * cs * sin pbh))
  else
    ret (LUV.mk ((LUV.l c0 + LUV.l c1) / 2) ((LUV.u c0 + LUV.u c1) / 2)
           ((LUV.v c0 + LUV.v c1) / 2)).

(** The same with the average saturation scaled by the warmth. *)
Definition diverging_neutral_warm (n : Z) (cp0 cp1 : ColorPoints)
    (contrast brightness warmth pbh : R) : option LUVColor :=
  c0 <- get_colormap_entry 1 (p0 cp0) (p2 cp0) (q0 cp0) (q1 cp0) (q2 cp0)
          contrast brightness ;;
  c1 <- get_colormap_entry 1 (p0 cp1) (p2 cp1) (q0 cp1) (q1 cp1) (q2 cp1)
          contrast brightness ;;
  if (n <=? 9)%Z then
    c0s <- luv_saturation (LUV.l c0) (LUV.u c0) (LUV.v c0) ;;
    c1s <- luv_saturation (LUV.l c1) (LUV.u c1) (LUV.v c1) ;;
    let cl := (LUV.l c0 + LUV.l c1) / 2 in
    sm <- Smax cl pbh ;;
    let cs := Rmin sm (warmth * ((c0s + c1s) / 2)) in
    ret (LUV.mk cl (cl * cs * cos pbh) (cl * cs * sin pbh))
  else
    ret (LUV.mk ((LUV.l c0 + LUV.l c1) / 2) ((LUV.u c0 + LUV.u c1) / 2)
           ((LUV.v c0 + LUV.v c1) / 2)).

(** The fixed sinusoidal RGB basis of CubeHelix at a helical angle. *)
Definition helix_basis (angle : R) : R * R * R :=
  (-0.14861 * cos angle + 1.78277 * sin angle,
   -0.29227 * cos angle - 0.90649 * sin angle,
   1.97294 * cos angle).

(** The channels of CubeHelix in the words of the specification: with
    [fract = i / (n - 1)], the gray ramp [fract ^ gamma] plus the amplitude
    [saturation * fract * (1 - fract) / 2] times the basis at the angle
    [2 PI (hue / 3 + 1 + rotations * fract)]. *)
Definition helix_channels_stated (n : Z) (hue rot saturation gamma : R)
    (i : Z) : option (R * R * R) :=
  let fract := IZR i / (IZR n - 1) in
  gray <- powf fract gamma ;;
  let amp := saturation * fract * (1 - fract) / 2 in
  let '(br, bg, bb) := helix_basis (twopi * (hue / 3 + 1 + rot * fract)) in
  ret (gray + amp * br, gray + amp * bg, gray + amp * bb).

(** The same with the amplitude taken from the gray ramp [g = fract ^ gamma]:
    [saturation * g * (1 - g) / 2]. *)
Definition helix_channels_of_gray (hue rot saturation : R)
    (fract gray : R) : R * R * R :=
  let amp := saturation * gray * (1 - gray) / 2 in
  let '(br, bg, bb) := helix_basis (twopi * (hue / 3 + 1 + rot * fract)) in
  (gray + amp * br, gray + amp * bg, gray + amp * bb).

(** * Basic facts *)

(** Equality of two LUV colours, field by field. *)
Ltac luv_fields :=
  unfold luv_add, luv_scale; cbn [LUV.l LUV.u LUV.v].

(** Equality of two triples, component by component. *)
Ltac triple_eq :=
  try apply (f_equal Some);
  apply injective_projections; [apply injective_projections |]; simpl.

Lemma fltb_true (x y : R) : fltb x y = true <-> x < y.
Proof. unfold fltb; destruct (Rlt_dec x y); split; intros; auto; discriminate. Qed.

Lemma fltb_false (x y : R) : fltb x y = false <-> y <= x.
Proof.
  unfold fltb; destruct (Rlt_dec x y); split; intros; auto; try discriminate; lra.
Qed.

Lemma fleb_true (x y : R) : fleb x y = true <-> x <= y.
Proof. unfold fleb; destruct (Rle_dec x y); split; intros; auto; discriminate. Qed.

Lemma fleb_false (x y : R) : fleb x y = false <-> y < x.
Proof.
  unfold fleb; destruct (Rle_dec x y); split; intros; auto; try discriminate; lra.
Qed.

Lemma fmin_Rmin (a b : R) : fmin a b = Rmin a b.
Proof.
  unfold fmin, fltb, Rmin.
  destruct (Rlt_dec b a), (Rle_dec a b); lra.
Qed.

Lemma fmax_Rmax (a b : R) : fmax a b = Rmax a b.
Proof.
  unfold fmax, fltb, Rmax.
  destruct (Rlt_dec a b), (Rle_dec a b); lra.
Qed.

Lemma clamp_clamp01 (x : R) : clamp x 0 1 = clamp01 x.
Proof. unfold clamp, clamp01. now rewrite fmin_Rmin, fmax_Rmax. Qed.

Lemma clamp01_range (x : R) : 0 <= clamp01 x <= 1.
Proof.
  unfold clamp01, Rmin, Rmax.
  destruct (Rle_dec x 0); destruct (Rle_dec _ 1); lra.
Qed.

Lemma clamp01_id (x : R) : 0 <= x <= 1 -> clamp01 x = x.
Proof.
  intros H. unfold clamp01, Rmin, Rmax.
  destruct (Rle_dec x 0); destruct (Rle_dec _ 1); lra.
Qed.

Lemma fdiv_some (x y : R) : y <> 0 -> fdiv x y = Some (x / y).
Proof. intros H. unfold fdiv. destruct (Req_dec_T y 0); [contradiction | reflexivity]. Qed.

Lemma fdiv_zero (x : R) : fdiv x 0 = None.
Proof. unfold fdiv. destruct (Req_dec_T 0 0); [reflexivity | contradiction]. Qed.

Lemma fdiv_inv (x y q : R) : fdiv x y = Some q -> y <> 0 /\ q = x / y.
Proof.
  unfold fdiv. destruct (Req_dec_T y 0); [discriminate |].
  intros H; inversion H; auto.
Qed.

Lemma bind_some {A C : Type} (m : option A) (f : A -> option C) (c : C) :
  bind m f = Some c -> exists a, m = Some a /\ f a = Some c.
Proof. destruct m; simpl; [eauto | discriminate]. Qed.

(** Floor and truncation. *)

Lemma floorZ_bounds (x : R) : IZR (floorZ x) <= x < IZR (floorZ x) + 1.
Proof. unfold floorZ. destruct (base_Int_part x). lra. Qed.

Lemma floorZ_unique (x : R) (z : Z) : IZR z <= x < IZR z + 1 -> floorZ x = z.
Proof.
  intros [H1 H2]. destruct (floorZ_bounds x) as [H3 H4].
  assert (Ha : (z < floorZ x + 1)%Z).
  { apply lt_IZR. rewrite plus_IZR. lra. }
  assert (Hb : (floorZ x < z + 1)%Z).
  { apply lt_IZR. rewrite plus_IZR. lra. }
  lia.
Qed.

Lemma floorZ_IZR (z : Z) : floorZ (IZR z) = z.
Proof. apply floorZ_unique. lra. Qed.

Lemma truncZ_nonneg (x : R) : 0 <= x -> truncZ x = floorZ x.
Proof. intros H. unfold truncZ. destruct (Rlt_dec x 0); [lra | reflexivity]. Qed.

Lemma truncZ_IZR (z : Z) : truncZ (IZR z) = z.
Proof.
  unfold truncZ. destruct (Rlt_dec (IZR z) 0).
  - rewrite <- opp_IZR, floorZ_IZR. lia.
  - apply floorZ_IZR.
Qed.

Lemma byte_of_range (x : R) : 0 <= x <= 1 -> (0 <= byte_of x <= 255)%Z.
Proof.
  intros H. unfold byte_of. rewrite truncZ_nonneg by lra.
  destruct (floorZ_bounds (x * 255)) as [H1 H2].
  split.
  - assert (0 < floorZ (x * 255) + 1)%Z; [| lia].
    apply lt_IZR. rewrite plus_IZR. lra.
  - assert (floorZ (x * 255) < 256)%Z; [| lia].
    apply lt_IZR. lra.
Qed.

Lemma uchar_of_float_unit (x : R) :
  0 <= x <= 1 -> uchar_of_float (x * 255) = Some (byte_of x).
Proof.
  intros H. unfold uchar_of_float. fold (byte_of x).
  pose proof (byte_of_range x H) as [H1 H2].
  apply Z.leb_le in H1, H2. now rewrite H1, H2.
Qed.

(** Loops. *)

Lemma zrange_length (i : Z) (count : nat) : length (zrange i count) = count.
Proof. revert i. induction count; simpl; intros; [reflexivity | now rewrite IHcount]. Qed.

Lemma zrange_nth (count : nat) (i : Z) (k : nat) (d : Z) :
  (k < count)%nat -> nth k (zrange i count) d = (i + Z.of_nat k)%Z.
Proof.
  revert i k. induction count; intros i k H; [lia |].
  destruct k; simpl.
  - lia.
  - rewrite IHcount by lia. lia.
Qed.

Lemma zrange_In (count : nat) (i j : Z) :
  In j (zrange i count) <-> (i <= j < i + Z.of_nat count)%Z.
Proof.
  revert i. induction count; intros i; simpl.
  - lia.
  - rewrite IHcount. lia.
Qed.

Lemma mapM_some {A C : Type} (f : A -> option C) (g : A -> C) (xs : list A) :
  (forall x, In x xs -> f x = Some (g x)) -> mapM f xs = Some (map g xs).
Proof.
  induction xs as [| x xs IH]; intros H; simpl; [reflexivity |].
  rewrite (H x) by (now left). simpl.
  rewrite IH by (intros; apply H; now right). reflexivity.
Qed.

Lemma mapM_length {A C : Type} (f : A -> option C) (xs : list A) (ys : list C) :
  mapM f xs = Some ys -> length ys = length xs.
Proof.
  revert ys. induction xs as [| x xs IH]; intros ys; simpl.
  - intros H; inversion H; reflexivity.
  - destruct (f x); simpl; [| discriminate].
    destruct (mapM f xs); simpl; [| discriminate].
    intros H; inversion H; subst; simpl. now rewrite (IH l).
Qed.

Lemma mapM_nth {A C : Type} (f : A -> option C) (xs : list A) (ys : list C)
    (k : nat) (dx : A) (dy : C) :
  mapM f xs = Some ys -> (k < length xs)%nat ->
  f (nth k xs dx) = Some (nth k ys dy).
Proof.
  revert ys k. induction xs as [| x xs IH]; intros ys k; simpl.
  - intros _ H; lia.
  - destruct (f x) eqn:Hx; simpl; [| discriminate].
    destruct (mapM f xs) eqn:Hxs; simpl; [| discriminate].
    intros H Hk; inversion H; subst.
    destruct k; simpl; [assumption |].
    apply IH; [reflexivity | lia].
Qed.

(** * CubeHelix *)

Lemma Helix_clip_spec (x : R) (c : bool) :
  Helix.clip x c = (clamp01 x, outside01 x || c).
Proof.
  unfold Helix.clip, outside01, clamp01.
  destruct (fltb x 0) eqn:H0.
  - apply fltb_true in H0. simpl. f_equal.
    unfold Rmin, Rmax. destruct (Rle_dec x 0); destruct (Rle_dec _ 1); lra.
  - apply fltb_false in H0. destruct (fltb 1 x) eqn:H1; simpl.
    + apply fltb_true in H1. f_equal.
      unfold Rmin, Rmax. destruct (Rle_dec x 0); destruct (Rle_dec _ 1); lra.
    + apply fltb_false in H1. f_equal.
      unfold Rmin, Rmax. destruct (Rle_dec x 0); destruct (Rle_dec _ 1); lra.
Qed.

Lemma Helix_entry_spec (n : Z) (hue rot saturation gamma : R) (i : Z) :
  Helix.entry n hue rot saturation gamma i =
  (rgb <- Helix.channels n hue rot saturation gamma i ;;
   ret (clamped_bytes rgb, needs_clamping rgb)).
Proof.
  unfold Helix.entry.
  destruct (Helix.channels n hue rot saturation gamma i) as [[[r g] b] |];
    simpl; [| reflexivity].
  rewrite !Helix_clip_spec.
  rewrite !uchar_of_float_unit by apply clamp01_range. simpl.
  unfold ret. do 2 f_equal.
  destruct (outside01 r), (outside01 g), (outside01 b); reflexivity.
Qed.

Lemma Helix_loop_spec (n : Z) (hue rot saturation gamma : R)
    (count : nat) (i clippings : Z) (colormap : list srgb8) :
  for_loop (Helix.body n hue rot saturation gamma) i count (clippings, colormap) =
  (chans <- mapM (Helix.channels n hue rot saturation gamma) (zrange i count) ;;
   ret ((clippings + Z.of_nat (length (filter needs_clamping chans)))%Z,
        colormap ++ map clamped_bytes chans)).
Proof.
  revert i clippings colormap.
  induction count as [| count IH]; intros i clippings colormap; simpl.
  - unfold ret. now rewrite Z.add_0_r, app_nil_r.
  - rewrite Helix_entry_spec.
    destruct (Helix.channels n hue rot saturation gamma i) as [rgb |];
      simpl; [| reflexivity].
    rewrite IH.
    destruct (mapM _ (zrange (i + 1) count)) as [chans |]; simpl; [| reflexivity].
    unfold ret. rewrite <- app_assoc. simpl.
    destruct (needs_clamping rgb); simpl length; do 2 f_equal; lia.
Qed.

Lemma powf_nonneg_some (x y : R) :
  0 <= x -> 0 <= y -> exists p, powf x y = Some p.
Proof.
  intros Hx Hy. unfold powf.
  destruct (Rlt_dec 0 x); [eauto |].
  destruct (Rlt_dec x 0); [lra |].
  destruct (Rlt_dec 0 y); [eauto |].
  destruct (Rlt_dec y 0); [lra | eauto].
Qed.

Lemma Helix_fract (n i : Z) :
  (2 <= n)%Z -> fdiv (IZR i) (IZR n - 1) = Some (IZR i / (IZR n - 1)).
Proof.
  intros Hn. apply fdiv_some.
  apply IZR_le in Hn. lra.
Qed.

(** The conversion of an [int] to [float] is exact up to 2^24. *)
Lemma float_of_int_exact (n : Z) :
  (Z.abs n <= 16777216)%Z -> float_of_int n = IZR n.
Proof.
  intros H. unfold float_of_int. cbv zeta.
  destruct (Z.log2 (Z.abs n) - 23 <=? 0)%Z eqn:E; [reflexivity |].
  apply Z.leb_gt in E.
  assert (Ha : Z.abs n = 16777216%Z).
  { destruct (Z.eq_dec (Z.abs n) 16777216) as [| Hne]; [assumption |].
    exfalso.
    assert (Hlt : (Z.abs n < 2 ^ 24)%Z)
      by (change (2 ^ 24)%Z with 16777216%Z; lia).
    destruct (Z.eq_dec (Z.abs n) 0) as [H0 | H0].
    - rewrite H0 in E. simpl in E. lia.
    - apply Z.log2_lt_pow2 in Hlt; lia. }
  rewrite Ha.
  assert (Hn : n = 16777216%Z \/ n = (-16777216)%Z) by lia.
  destruct Hn as [-> | ->]; apply f_equal; reflexivity.
Qed.

(** Beyond 2^24 the converted value is still at least 2^24. *)
Lemma float_of_int_large (n : Z) :
  (16777216 <= n)%Z -> 16777216 <= float_of_int n.
Proof.
  intros H. unfold float_of_int. cbv zeta.
  destruct (Z.log2 (Z.abs n) - 23 <=? 0)%Z eqn:E; [now apply IZR_le |].
  apply Z.leb_gt in E.
  rewrite Z.abs_eq in * by lia. rewrite Z.sgn_pos by lia.
  set (e := (Z.log2 n - 23)%Z) in *.
  assert (He : (1 <= e)%Z) by lia.
  assert (Hulp : (2 <= 2 ^ e)%Z).
  { change 2%Z with (2 ^ 1)%Z at 1. apply Z.pow_le_mono_r; lia. }
  assert (Hq : (8388608 <= n / 2 ^ e)%Z).
  { apply Z.div_le_lower_bound; [lia |].
    destruct (Z.log2_spec n ltac:(lia)) as [Hlo _].
    replace (Z.log2 n) with (e + 23)%Z in Hlo by (unfold e; lia).
    rewrite Z.pow_add_r in Hlo by lia.
    change (2 ^ 23)%Z with 8388608%Z in Hlo. lia. }
  set (q := (n / 2 ^ e)%Z) in *. set (ulp := (2 ^ e)%Z) in *.
  apply IZR_le.
  destruct (2 * (n mod ulp) <? ulp)%Z; [nia |].
  destruct (ulp <? 2 * (n mod ulp))%Z; [nia |].
  destruct (Z.even q); nia.
Qed.

Lemma float_of_int_nonneg (n : Z) : (0 <= n)%Z -> 0 <= float_of_int n.
Proof.
  intros H. destruct (Z_le_gt_dec n 16777216).
  - rewrite float_of_int_exact by lia. now apply IZR_le.
  - pose proof (float_of_int_large n ltac:(lia)). lra.
Qed.

Lemma float_of_int_ge_2 (n : Z) : (2 <= n)%Z -> 2 <= float_of_int n.
Proof.
  intros H. destruct (Z_le_gt_dec n 16777216).
  - rewrite float_of_int_exact by lia. now apply IZR_le.
  - pose proof (float_of_int_large n ltac:(lia)). lra.
Qed.

(** Line 504: the quotient of the two converted integers. *)
Lemma Helix_quotient (n i : Z) :
  (2 <= n)%Z ->
  fdiv (float_of_int i) (float_of_int n - 1)
  = Some (float_of_int i / (float_of_int n - 1)).
Proof.
  intros Hn. apply fdiv_some.
  pose proof (float_of_int_ge_2 n Hn). lra.
Qed.

Lemma Helix_quotient_nonneg (n i : Z) :
  (2 <= n)%Z -> (0 <= i)%Z -> 0 <= float_of_int i / (float_of_int n - 1).
Proof.
  intros Hn Hi.
  pose proof (float_of_int_ge_2 n Hn). pose proof (float_of_int_nonneg i Hi).
  apply Rmult_le_pos; [assumption |].
  apply Rlt_le, Rinv_0_lt_compat. lra.
Qed.

(** Up to 2^24 entries the quotient is [i / (n - 1)]. *)
Lemma Helix_quotient_exact (n i : Z) :
  (2 <= n <= 16777216)%Z -> (0 <= i < n)%Z ->
  float_of_int i / (float_of_int n - 1) = IZR i / (IZR n - 1).
Proof.
  intros Hn Hi. now rewrite !float_of_int_exact by lia.
Qed.

Lemma Helix_channels_total (n : Z) (hue rot saturation gamma : R) (i : Z) :
  (2 <= n)%Z -> (0 <= i)%Z -> 0 <= gamma ->
  exists rgb, Helix.channels n hue rot saturation gamma i = Some rgb.
Proof.
  intros Hn Hi Hg. unfold Helix.channels.
  rewrite Helix_quotient by assumption. simpl.
  destruct (powf_nonneg_some (float_of_int i / (float_of_int n - 1)) gamma)
    as [p Hp]; [| assumption |].
  - now apply Helix_quotient_nonneg.
  - rewrite Hp. simpl. eauto.
Qed.

Lemma mapM_total {A C : Type} (f : A -> option C) (xs : list A) :
  (forall x, In x xs -> exists y, f x = Some y) ->
  exists ys, mapM f xs = Some ys.
Proof.
  induction xs as [| x xs IH]; intros H; simpl; [eexists; reflexivity |].
  destruct (H x) as [y Hy]; [now left |]. rewrite Hy. simpl.
  destruct IH as [ys Hys]; [intros; apply H; now right |].
  rewrite Hys. simpl. eexists; reflexivity.
Qed.

Lemma CubeHelix_clip_count_aux (n : Z) (hue rot saturation gamma : R) :
  (2 <= n)%Z -> 0 <= gamma ->
  exists chans : list (R * R * R),
    mapM (Helix.channels n hue rot saturation gamma) (zrange 0 (Z.to_nat n))
      = Some chans /\
    length chans = Z.to_nat n /\
    CubeHelix n hue rot saturation gamma =
      Some (Z.of_nat (length (filter needs_clamping chans)),
            map clamped_bytes chans).
Proof.
  intros Hn Hg.
  destruct (mapM_total (Helix.channels n hue rot saturation gamma)
              (zrange 0 (Z.to_nat n))) as [chans Hc].
  { intros i Hi. apply zrange_In in Hi.
    apply Helix_channels_total; [assumption | lia | assumption]. }
  exists chans. split; [assumption |]. split.
  - rewrite (mapM_length _ _ _ Hc). apply zrange_length.
  - unfold CubeHelix. rewrite Helix_loop_spec, Hc. reflexivity.
Qed.

(** C9.  With [n >= 2] and [gamma >= 0] CubeHelix returns: the channels of
    every entry are defined, entry [i] holds the bytes of its three channels,
    each clamped to [0, 1] on its own, and the count returned is the number
    of colours with a channel outside [0, 1], each counted once. *)
Theorem CubeHelix_clip_count (n : Z) (hue rot saturation gamma : R) :
  (2 <= n)%Z -> 0 <= gamma ->
  exists chans : list (R * R * R),
    mapM (Helix.channels n hue rot saturation gamma) (zrange 0 (Z.to_nat n))
      = Some chans /\
    length chans = Z.to_nat n /\
    CubeHelix n hue rot saturation gamma =
      Some (Z.of_nat (length (filter needs_clamping chans)),
            map clamped_bytes chans).
Proof. exact (CubeHelix_clip_count_aux n hue rot saturation gamma). Qed.

Lemma CubeHelix_clip_count_witness :
  exists chans : list (R * R * R),
    mapM (Helix.channels 2 0 0 1 1) (zrange 0 (Z.to_nat 2)) = Some chans /\
    length chans = Z.to_nat 2 /\
    CubeHelix 2 0 0 1 1 =
      Some (Z.of_nat (length (filter needs_clamping chans)),
            map clamped_bytes chans).
Proof. apply (CubeHelix_clip_count 2 0 0 1 1); [lia | lra]. Defined.

Lemma powf_zero (y : R) : 0 < y -> powf 0 y = Some 0.
Proof.
  intros Hy. unfold powf.
  destruct (Rlt_dec 0 0); [lra |].
  destruct (Rlt_dec 0 y); [reflexivity | lra].
Qed.

Lemma powf_pos (x y : R) : 0 < x -> powf x y = Some (Rpower x y).
Proof. intros Hx. unfold powf. destruct (Rlt_dec 0 x); [reflexivity | lra]. Qed.

Lemma Rpower_one (y : R) : Rpower 1 y = 1.
Proof. unfold Rpower. rewrite ln_1, Rmult_0_r. apply exp_0. Qed.

Lemma powf_one (y : R) : powf 1 y = Some 1.
Proof. rewrite powf_pos by lra. now rewrite Rpower_one. Qed.

Lemma Helix_channels_first (n : Z) (hue rot saturation gamma : R) :
  (2 <= n)%Z -> 0 < gamma ->
  Helix.channels n hue rot saturation gamma 0 = Some (0, 0, 0).
Proof.
  intros Hn Hg. unfold Helix.channels.
  rewrite Helix_quotient by assumption. cbn [bind].
  rewrite (float_of_int_exact 0) by lia.
  replace (0 / (float_of_int n - 1)) with 0 by (unfold Rdiv; ring).
  rewrite powf_zero by assumption. simpl. unfold ret.
  triple_eq; unfold Rdiv; ring.
Qed.

Lemma Helix_channels_last (n : Z) (hue rot saturation gamma : R) :
  (2 <= n <= 16777216)%Z ->
  Helix.channels n hue rot saturation gamma (n - 1) = Some (1, 1, 1).
Proof.
  intros Hn. unfold Helix.channels.
  rewrite Helix_quotient by lia. cbn [bind].
  rewrite Helix_quotient_exact by lia.
  assert (Hd : IZR n - 1 <> 0)
    by (destruct Hn as [Hn _]; apply IZR_le in Hn; lra).
  replace (IZR (n - 1) / (IZR n - 1)) with 1
    by (rewrite minus_IZR; field; exact Hd).
  rewrite powf_one. simpl. unfold ret.
  triple_eq; unfold Rdiv; ring.
Qed.

Lemma clamped_bytes_black : clamped_bytes (0, 0, 0) = (0, 0, 0)%Z.
Proof.
  unfold clamped_bytes, byte_of. rewrite clamp01_id by lra.
  rewrite Rmult_0_l. now rewrite (truncZ_IZR 0).
Qed.

Lemma clamped_bytes_white : clamped_bytes (1, 1, 1) = (255, 255, 255)%Z.
Proof.
  unfold clamped_bytes, byte_of. rewrite clamp01_id by lra.
  rewrite Rmult_1_l. now rewrite (truncZ_IZR 255).
Qed.

Lemma needs_clamping_black : needs_clamping (0, 0, 0) = false.
Proof.
  unfold needs_clamping, outside01.
  replace (fltb 0 0) with false by (symmetry; apply fltb_false; lra).
  replace (fltb 1 0) with false by (symmetry; apply fltb_false; lra).
  reflexivity.
Qed.

Lemma needs_clamping_white : needs_clamping (1, 1, 1) = false.
Proof.
  unfold needs_clamping, outside01.
  replace (fltb 1 0) with false by (symmetry; apply fltb_false; lra).
  replace (fltb 1 1) with false by (symmetry; apply fltb_false; lra).
  reflexivity.
Qed.

Lemma float_of_int_first_inexact : float_of_int 16777217 = 16777216.
Proof. unfold float_of_int. cbv zeta. apply f_equal. reflexivity. Qed.

Lemma mapM_In {A C : Type} (f : A -> option C) (xs : list A) (ys : list C) :
  mapM f xs = Some ys ->
  forall y, In y ys -> exists x, In x xs /\ f x = Some y.
Proof.
  revert ys. induction xs as [| x xs IH]; intros ys H y Hy.
  - simpl in H. injection H as <-. destruct Hy.
  - simpl in H. destruct (f x) as [y0 |] eqn:E; [| discriminate].
    cbn [bind] in H. destruct (mapM f xs) as [ys0 |]; [| discriminate].
    cbn [bind ret] in H. injection H as <-.
    destruct Hy as [<- | Hy].
    + exists x. split; [now left | exact E].
    + destruct (IH ys0 eq_refl y Hy) as (x' & Hx' & E').
      exists x'. split; [now right | exact E'].
Qed.

Lemma filter_none {A : Type} (p : A -> bool) (xs : list A) :
  (forall x, In x xs -> p x = false) -> filter p xs = [].
Proof.
  induction xs as [| x xs IH]; intros H; [reflexivity |].
  simpl. rewrite (H x (or_introl eq_refl)). apply IH.
  intros y Hy. apply H. now right.
Qed.

Lemma zrange_snoc (i : Z) (count : nat) :
  zrange i (S count) = zrange i count ++ [(i + Z.of_nat count)%Z].
Proof.
  revert i. induction count as [| count IH]; intros i.
  - simpl. f_equal. lia.
  - change (zrange i (S (S count))) with (i :: zrange (i + 1) (S count)).
    rewrite IH. change (zrange i (S count)) with (i :: zrange (i + 1) count).
    rewrite <- app_comm_cons. do 3 f_equal. lia.
Qed.

Lemma mapM_snoc_inv {A C : Type} (f : A -> option C) (xs : list A) (x : A)
    (zs : list C) :
  mapM f (xs ++ [x]) = Some zs ->
  exists ys y, mapM f xs = Some ys /\ f x = Some y /\ zs = ys ++ [y].
Proof.
  revert zs. induction xs as [| x0 xs IH]; intros zs H; simpl in H.
  - destruct (f x) as [y |]; [| discriminate]. cbn [bind ret] in H.
    injection H as <-. exists [], y. auto.
  - destruct (f x0) as [y0 |] eqn:E0; [| discriminate]. cbn [bind] in H.
    destruct (mapM f (xs ++ [x])) as [zs0 |]; [| discriminate].
    cbn [bind ret] in H. injection H as <-.
    destruct (IH zs0 eq_refl) as (ys & y & Hys & Hy & ->).
    exists (y0 :: ys), y. simpl. rewrite E0, Hys. auto.
Qed.

(** When only the last colour needs clamping the count is 1. *)
Lemma Helix_last_clipped (N : Z) (hue rot saturation gamma : R) :
  (1 <= N)%Z -> 0 <= gamma ->
  (forall i rgb, (0 <= i < N)%Z ->
     Helix.channels (N + 1) hue rot saturation gamma i = Some rgb ->
     needs_clamping rgb = false) ->
  (forall rgb,
     Helix.channels (N + 1) hue rot saturation gamma N = Some rgb ->
     needs_clamping rgb = true) ->
  exists colormap,
    CubeHelix (N + 1) hue rot saturation gamma = Some (1%Z, colormap).
Proof.
  intros HN Hg Hfirst Hlast.
  destruct (CubeHelix_clip_count_aux (N + 1) hue rot saturation gamma
              ltac:(lia) Hg) as (chans & Hm & _ & Hrun).
  replace (Z.to_nat (N + 1)) with (S (Z.to_nat N)) in Hm by lia.
  rewrite zrange_snoc in Hm.
  destruct (mapM_snoc_inv _ _ _ _ Hm) as (ys & y & Hys & Hy & ->).
  rewrite Z.add_0_l, Z2Nat.id in Hy by lia.
  rewrite filter_app in Hrun.
  rewrite (filter_none needs_clamping ys) in Hrun.
  - simpl in Hrun. rewrite (Hlast y Hy) in Hrun. simpl in Hrun.
    eexists. exact Hrun.
  - intros rgb Hin.
    destruct (mapM_In _ _ _ Hys rgb Hin) as (i & Hi & Ei).
    apply zrange_In in Hi. rewrite Z2Nat.id in Hi by lia.
    apply (Hfirst i rgb); [lia | exact Ei].
Qed.

Lemma Rpower_le_1 (x a : R) : 0 < x <= 1 -> 0 <= a -> Rpower x a <= 1.
Proof.
  intros Hx Ha. rewrite <- (Rpower_one a).
  apply Rle_Rpower_l; [assumption | lra].
Qed.

Lemma Rpower_pos (x a : R) : 0 < Rpower x a.
Proof. unfold Rpower. apply exp_pos. Qed.

(** The gray ramp [fract ^ gamma] is not negative, and stays in [0, 1] when
    [fract] does. *)
Lemma powf_unit (x y : R) :
  0 <= x -> 0 <= y ->
  exists g, powf x y = Some g /\ 0 <= g /\ (x <= 1 -> g <= 1).
Proof.
  intros Hx Hy. unfold powf.
  destruct (Rlt_dec 0 x).
  - eexists. split; [reflexivity |]. split.
    + apply Rlt_le, Rpower_pos.
    + intros H1. apply Rpower_le_1; lra.
  - destruct (Rlt_dec x 0); [lra |].
    destruct (Rlt_dec 0 y); [eexists; split; [reflexivity | lra] |].
    destruct (Rlt_dec y 0); [lra |].
    eexists; split; [reflexivity | lra].
Qed.

(** With a saturation of 0 the amplitude is 0 and the three channels are
    the gray ramp, whatever the angle. *)
Lemma Helix_channels_gray (n : Z) (gamma : R) (i : Z) :
  (2 <= n)%Z -> (0 <= i)%Z -> 0 <= gamma ->
  exists g, 0 <= g /\
    (float_of_int i / (float_of_int n - 1) <= 1 -> g <= 1) /\
    forall hue rot, Helix.channels n hue rot 0 gamma i = Some (g, g, g).
Proof.
  intros Hn Hi Hg.
  destruct (powf_unit (float_of_int i / (float_of_int n - 1)) gamma)
    as (g & Hp & H0 & H1); [now apply Helix_quotient_nonneg | exact Hg |].
  exists g. split; [exact H0 |]. split; [exact H1 |].
  intros hue rot.
  unfold Helix.channels. rewrite Helix_quotient by assumption.
  cbn [bind ret]. rewrite Hp. cbn [bind ret].
  assert (E : forall b, g + 0 * g * (1 - g) / 2 * b = g)
    by (intros b; unfold Rdiv; ring).
  now rewrite !E.
Qed.

(** C10, as stated, fails: with [n = 2^24 + 1] the conversion of [n] to
    [float] gives 2^24, so that the quotient of the last index, 2^24, by
    [n - 1.0f] is above 1.  With hue 0, no rotation, saturation 0 and
    [gamma = 1] the last colour is clamped to white and counted: CubeHelix
    returns the count 1. *)
Lemma CubeHelix_endpoints_counterexample :
  Helix.entry 16777217 0 0 0 1 16777216
    = Some ((255, 255, 255)%Z, true) /\
  exists colormap, CubeHelix 16777217 0 0 0 1 = Some (1%Z, colormap).
Proof.
  set (f := 16777216 / 16777215).
  assert (Hf : 1 < f) by (unfold f; lra).
  assert (Hc : Helix.channels 16777217 0 0 0 1 16777216 = Some (f, f, f)).
  { unfold Helix.channels.
    rewrite float_of_int_first_inexact, (float_of_int_exact 16777216) by lia.
    rewrite fdiv_some by lra. cbn [bind].
    replace (16777216 / (16777216 - 1)) with f by (unfold f; lra).
    rewrite powf_pos by lra. rewrite Rpower_1 by lra.
    cbn [bind ret]. unfold ret. triple_eq; unfold Rdiv; ring. }
  assert (Hn : needs_clamping (f, f, f) = true).
  { unfold needs_clamping, outside01.
    replace (fltb 1 f) with true by (symmetry; now apply fltb_true).
    now rewrite orb_true_r. }
  split.
  - rewrite Helix_entry_spec, Hc. cbn [bind ret]. unfold ret.
    rewrite Hn. do 2 f_equal.
    unfold clamped_bytes, byte_of, clamp01.
    rewrite Rmax_left, Rmin_right by lra.
    rewrite Rmult_1_l. now rewrite (truncZ_IZR 255).
  - apply (Helix_last_clipped 16777216 0 0 0 1); [lia | lra | |].
    + intros i rgb Hi E.
      destruct (Helix_channels_gray 16777217 1 i ltac:(lia) ltac:(lia)
                  ltac:(lra)) as (g & H0 & H1 & Eg).
      change (16777216 + 1)%Z with 16777217%Z in E.
      rewrite Eg in E. injection E as <-.
      rewrite float_of_int_first_inexact, (float_of_int_exact i) in H1
        by lia.
      assert (Hq : IZR i / (16777216 - 1) <= 1).
      { assert (Hi2 : (i <= 16777215)%Z) by lia.
        apply IZR_le in Hi2. lra. }
      specialize (H1 Hq).
      unfold needs_clamping, outside01.
      replace (fltb g 0) with false by (symmetry; apply fltb_false; lra).
      replace (fltb 1 g) with false by (symmetry; apply fltb_false; lra).
      reflexivity.
    + intros rgb E. change (16777216 + 1)%Z with 16777217%Z in E.
      rewrite Hc in E. injection E as <-. exact Hn.
Qed.

(** C10, amended.  With [2 <= n <= 2^24] and [gamma > 0], whatever the hue,
    the rotations and the saturation: the first entry of CubeHelix is the
    bytes (0, 0, 0), the last is (255, 255, 255), and the [clipped] flag,
    which alone increments the count, is false for both. *)
Theorem CubeHelix_endpoints (n : Z) (hue rot saturation gamma : R) :
  (2 <= n <= 16777216)%Z -> 0 < gamma ->
  Helix.entry n hue rot saturation gamma 0 = Some ((0, 0, 0)%Z, false) /\
  Helix.entry n hue rot saturation gamma (n - 1)
    = Some ((255, 255, 255)%Z, false) /\
  exists clippings colormap,
    CubeHelix n hue rot saturation gamma = Some (clippings, colormap) /\
    nth 0 colormap (1, 1, 1)%Z = (0, 0, 0)%Z /\
    nth (Z.to_nat (n - 1)) colormap (1, 1, 1)%Z = (255, 255, 255)%Z.
Proof.
  intros Hn24 Hg. assert (Hn : (2 <= n)%Z) by lia.
  assert (E0 : Helix.entry n hue rot saturation gamma 0
               = Some ((0, 0, 0)%Z, false)).
  { rewrite Helix_entry_spec, Helix_channels_first by assumption.
    unfold bind, ret.
    now rewrite clamped_bytes_black, needs_clamping_black. }
  assert (E1 : Helix.entry n hue rot saturation gamma (n - 1)
               = Some ((255, 255, 255)%Z, false)).
  { rewrite Helix_entry_spec, Helix_channels_last by assumption.
    unfold bind, ret.
    now rewrite clamped_bytes_white, needs_clamping_white. }
  split; [exact E0 |]. split; [exact E1 |].
  destruct (CubeHelix_clip_count_aux n hue rot saturation gamma Hn (Rlt_le _ _ Hg))
    as (chans & Hc & Hlen & Hrun).
  eexists _, _. split; [exact Hrun |].
  assert (Hnth : forall k, (k < Z.to_nat n)%nat ->
            Helix.channels n hue rot saturation gamma (Z.of_nat k)
            = Some (nth k chans (0, 0, 0))).
  { intros k Hk.
    pose proof (mapM_nth _ _ _ k 0%Z (0, 0, 0) Hc) as H.
    rewrite zrange_length in H. specialize (H Hk).
    rewrite zrange_nth in H by assumption. exact H. }
  split.
  - rewrite nth_indep with (d' := clamped_bytes (0, 0, 0))
      by (rewrite length_map; lia).
    rewrite map_nth.
    pose proof (Hnth 0%nat ltac:(lia)) as H. simpl in H.
    rewrite Helix_channels_first in H by assumption.
    replace (nth 0 chans (0, 0, 0)) with (0, 0, 0) by congruence.
    apply clamped_bytes_black.
  - rewrite nth_indep with (d' := clamped_bytes (0, 0, 0))
      by (rewrite length_map; lia).
    rewrite map_nth.
    pose proof (Hnth (Z.to_nat (n - 1)) ltac:(lia)) as H.
    rewrite Z2Nat.id in H by lia.
    rewrite Helix_channels_last in H by assumption.
    replace (nth (Z.to_nat (n - 1)) chans (0, 0, 0)) with (1, 1, 1)
      by congruence.
    apply clamped_bytes_white.
Qed.

Lemma CubeHelix_endpoints_witness :
  Helix.entry 2 0 0 1 1 0 = Some ((0, 0, 0)%Z, false) /\
  Helix.entry 2 0 0 1 1 (2 - 1) = Some ((255, 255, 255)%Z, false) /\
  exists clippings colormap,
    CubeHelix 2 0 0 1 1 = Some (clippings, colormap) /\
    nth 0 colormap (1, 1, 1)%Z = (0, 0, 0)%Z /\
    nth (Z.to_nat (2 - 1)) colormap (1, 1, 1)%Z = (255, 255, 255)%Z.
Proof. apply (CubeHelix_endpoints 2 0 0 1 1); [lia | lra]. Defined.

Lemma Rpower_2 (x : R) : 0 < x -> Rpower x 2 = x * x.
Proof.
  intros Hx. change 2 with (INR 2).
  rewrite Rpower_pow by assumption. simpl. ring.
Qed.

(** C3, as stated, fails: with [n = 3], [i = 1], [gamma = 2], saturation 1,
    hue 0 and no rotation the channels computed by the code are not those of
    the stated formula (the blue channels are 1/4 + 3/32 * 1.97294 and
    1/4 + 1/8 * 1.97294). *)
Lemma CubeHelix_formula_counterexample :
  Helix.channels 3 0 0 1 2 1 <> helix_channels_stated 3 0 0 1 2 1.
Proof.
  unfold Helix.channels, helix_channels_stated, helix_basis.
  rewrite (float_of_int_exact 1), (float_of_int_exact 3) by lia.
  rewrite fdiv_some by lra. unfold bind at 1.
  replace (1 / (3 - 1)) with (/ 2) by lra.
  rewrite powf_pos by lra. rewrite Rpower_2 by lra.
  unfold bind, ret, twopi.
  replace (2 * PI * (0 / 3 + 1 + 0 * / 2)) with (2 * PI) by lra.
  rewrite cos_2PI, sin_2PI.
  intros H. injection H as _ _ H. lra.
Qed.

(** C3, amended.  For [n >= 2], an index [i] in [0, n) and [gamma >= 0], with
    [fract] the quotient of [i] by [n - 1] as line 504 computes it from the
    two integers converted to [float] (up to [n = 2^24] this is
    [i / (n - 1)]) and the gray ramp [g = fract ^ gamma]: each channel
    before clamping is [g] plus the amplitude [saturation * g * (1 - g) / 2]
    times the basis at the angle [2 PI (hue / 3 + 1 + rotations * fract)]. *)
Theorem CubeHelix_formula (n : Z) (hue rot saturation gamma : R) (i : Z) :
  (2 <= n)%Z -> (0 <= i < n)%Z -> 0 <= gamma ->
  let fract := float_of_int i / (float_of_int n - 1) in
  ((n <= 16777216)%Z -> fract = IZR i / (IZR n - 1)) /\
  exists gray,
    powf fract gamma = Some gray /\
    Helix.channels n hue rot saturation gamma i
      = Some (helix_channels_of_gray hue rot saturation fract gray).
Proof.
  intros Hn Hi Hg fract.
  split; [intros Hn24; apply Helix_quotient_exact; lia |].
  destruct (powf_nonneg_some fract gamma) as [gray Hp]; [| assumption |].
  - apply Helix_quotient_nonneg; lia.
  - exists gray. split; [exact Hp |].
    unfold Helix.channels. rewrite Helix_quotient by assumption.
    unfold bind at 1. fold fract. rewrite Hp.
    unfold bind, ret, helix_channels_of_gray, helix_basis.
    triple_eq; ring.
Qed.

Lemma CubeHelix_formula_witness :
  let fract := float_of_int 1 / (float_of_int 3 - 1) in
  ((3 <= 16777216)%Z -> fract = IZR 1 / (IZR 3 - 1)) /\
  exists gray,
    powf fract 2 = Some gray /\
    Helix.channels 3 0 0 1 2 1
      = Some (helix_channels_of_gray 0 0 1 fract gray).
Proof. apply (CubeHelix_formula 3 0 0 1 2 1); [lia | lia | lra]. Defined.

(** * Colour-space conversions *)

Lemma d65_denominator : d65_x + 15 * d65_y + 3 * d65_z = 1921.696.
Proof. unfold d65_x, d65_y, d65_z. lra. Qed.

(** The two static initialisers return the constants. *)
Lemma d65_prime_init :
  u_prime d65_x d65_y d65_z = Some d65_u_prime /\
  v_prime d65_x d65_y d65_z = Some d65_v_prime.
Proof.
  unfold u_prime, v_prime, d65_u_prime, d65_v_prime.
  rewrite !fdiv_some by (rewrite d65_denominator; lra). auto.
Qed.

Lemma d65_u_prime_val : d65_u_prime = 95047 / 480424.
Proof. unfold d65_u_prime. rewrite d65_denominator. unfold d65_x. lra. Qed.

Lemma d65_v_prime_val : d65_v_prime = 28125 / 60053.
Proof. unfold d65_v_prime. rewrite d65_denominator. unfold d65_y. lra. Qed.

(** Cube roots. *)

Lemma cbrtf_pos (x : R) : 0 < x -> 0 < cbrtf x.
Proof.
  intros Hx. unfold cbrtf. destruct (Rlt_dec 0 x); [| lra].
  unfold Rpower. apply exp_pos.
Qed.

Lemma cbrtf_cube (x : R) : 0 < x -> cbrtf x * cbrtf x * cbrtf x = x.
Proof.
  intros Hx. unfold cbrtf. destruct (Rlt_dec 0 x); [| lra].
  rewrite <- !Rpower_plus.
  replace (/ 3 + / 3 + / 3) with 1 by lra.
  now apply Rpower_1.
Qed.

Lemma cube_lt (a b : R) : 0 <= a -> a < b -> a * a * a < b * b * b.
Proof.
  intros Ha Hab.
  assert (H : 0 < (b - a) * (a * a + a * b + b * b)).
  { apply Rmult_lt_0_compat; nra. }
  lra.
Qed.

Lemma cube_le (a b : R) : 0 <= a -> a <= b -> a * a * a <= b * b * b.
Proof.
  intros Ha Hab.
  assert (H : 0 <= (b - a) * (a * a + a * b + b * b)).
  { apply Rmult_le_pos; nra. }
  lra.
Qed.

Lemma cbrtf_gt (a x : R) : 0 <= a -> 0 < x -> a * a * a < x -> a < cbrtf x.
Proof.
  intros Ha Hx H.
  destruct (Rlt_dec a (cbrtf x)) as [| Hn]; [assumption | exfalso].
  pose proof (cbrtf_pos x Hx) as Hc.
  pose proof (cbrtf_cube x Hx) as Hq.
  assert (Hle : cbrtf x <= a) by lra.
  pose proof (cube_le (cbrtf x) a (Rlt_le _ _ Hc) Hle).
  lra.
Qed.

Lemma cbrtf_lt (a x : R) : 0 < x -> x < a * a * a -> cbrtf x < a.
Proof.
  intros Hx H.
  destruct (Rlt_dec (cbrtf x) a) as [| Hn]; [assumption | exfalso].
  pose proof (cbrtf_pos x Hx) as Hc.
  pose proof (cbrtf_cube x Hx) as Hq.
  assert (Hle : a <= cbrtf x) by lra.
  destruct (Rle_dec 0 a).
  - pose proof (cube_le a (cbrtf x) ltac:(assumption) Hle). lra.
  - assert (a * a * a < 0).
    { assert (0 < (- a) * ((- a) * (- a))) by (repeat apply Rmult_lt_0_compat; lra).
      lra. }
    lra.
Qed.

Lemma cbrtf_increasing (x y : R) : 0 < x -> x < y -> cbrtf x < cbrtf y.
Proof.
  intros Hx Hxy. apply cbrtf_gt; [| lra |].
  - apply Rlt_le, cbrtf_pos, Hx.
  - now rewrite cbrtf_cube.
Qed.

(** Lightness. *)

Lemma lightness_of_low (y : R) :
  y / 100 <= 216 / 24389 -> lightness_of y = 24389 / 27 * (y / 100).
Proof.
  intros H. unfold lightness_of, d65_y.
  replace (fleb _ _) with true; [lra |].
  symmetry. apply fleb_true. lra.
Qed.

Lemma lightness_of_high (y : R) :
  216 / 24389 < y / 100 -> lightness_of y = 116 * cbrtf (y / 100) - 16.
Proof.
  intros H. unfold lightness_of, d65_y.
  replace (fleb _ _) with false; [reflexivity |].
  symmetry. apply fleb_false. lra.
Qed.

Lemma lightness_of_pos (y : R) : 0 < y -> 0 < lightness_of y.
Proof.
  intros Hy. destruct (Rle_dec (y / 100) (216 / 24389)).
  - rewrite lightness_of_low by assumption. lra.
  - rewrite lightness_of_high by lra.
    assert (6 / 29 < cbrtf (y / 100)); [| lra].
    apply cbrtf_gt; lra.
Qed.

Lemma lightness_of_gt (a y : R) :
  0.21 <= a -> 100 * (a * a * a) < y ->
  116 * a - 16 < lightness_of y.
Proof.
  intros Ha H.
  pose proof (cube_le 0.21 a ltac:(lra) Ha) as Hcube.
  assert (216 / 24389 < y / 100) by lra.
  rewrite lightness_of_high by assumption.
  assert (a < cbrtf (y / 100)); [| lra].
  apply cbrtf_gt; lra.
Qed.

Lemma lightness_of_lt (a y : R) :
  1 / 2 <= a -> 2 <= y -> y < 100 * (a * a * a) ->
  lightness_of y < 116 * a - 16.
Proof.
  intros Ha Hy H.
  rewrite lightness_of_high by lra.
  assert (cbrtf (y / 100) < a); [| lra].
  apply cbrtf_lt; lra.
Qed.

Lemma xyz_to_luv_some (x y z : R) :
  x + 15 * y + 3 * z <> 0 ->
  xyz_to_luv x y z =
    Some (lightness_of y,
          13 * lightness_of y * (4 * x / (x + 15 * y + 3 * z) - d65_u_prime),
          13 * lightness_of y * (9 * y / (x + 15 * y + 3 * z) - d65_v_prime)).
Proof.
  intros H. unfold xyz_to_luv, u_prime, v_prime.
  rewrite !fdiv_some by assumption. reflexivity.
Qed.

Lemma xyz_to_luv_black : xyz_to_luv 0 0 0 = None.
Proof.
  unfold xyz_to_luv, u_prime.
  replace (0 + 15 * 0 + 3 * 0) with 0 by lra.
  now rewrite fdiv_zero.
Qed.

(** C6, as stated, fails: neither helper has a guard.  At (0, 0, 0) both
    divide 0 by 0 instead of returning 0, and [xyz_to_luv] is not defined
    at black. *)
Lemma perspective_divide_at_black :
  u_prime 0 0 0 = None /\ v_prime 0 0 0 = None /\ xyz_to_luv 0 0 0 = None.
Proof.
  assert (Hd : 0 + 15 * 0 + 3 * 0 = 0) by lra.
  repeat split.
  - unfold u_prime. rewrite Hd. apply fdiv_zero.
  - unfold v_prime. rewrite Hd. apply fdiv_zero.
  - apply xyz_to_luv_black.
Qed.

(** The guard of the sibling [lch_saturation]: it never divides by zero. *)
Lemma lch_saturation_total (l c : R) :
  lch_saturation l c = Some (c / Rmax l 1e-8).
Proof.
  unfold lch_saturation. rewrite fmax_Rmax. apply fdiv_some.
  pose proof (Rmax_r l 1e-8). lra.
Qed.

(** The sRGB transfer functions. *)

Lemma srgb_to_rgb_helper_0 : srgb_to_rgb_helper 0 = Some 0.
Proof.
  unfold srgb_to_rgb_helper.
  replace (fleb 0 0.04045) with true by (symmetry; apply fleb_true; lra).
  unfold ret. f_equal. lra.
Qed.

Lemma srgb_to_rgb_helper_1 : srgb_to_rgb_helper 1 = Some 1.
Proof.
  unfold srgb_to_rgb_helper.
  replace (fleb 1 0.04045) with false by (symmetry; apply fleb_false; lra).
  replace ((1 + 0.055) / 1.055) with 1 by lra.
  apply powf_one.
Qed.

(** A lower bound of [x ^ (5/12)] from a comparison of integer powers. *)
Lemma Rpower_root_ge (c x : R) :
  0 < c -> 0 < x -> c ^ 12 <= x ^ 5 -> c <= Rpower x (1 / 2.4).
Proof.
  intros Hc Hx H.
  assert (Hc12 : 0 < c ^ 12) by now apply pow_lt.
  pose proof (Rle_Rpower_l (c ^ 12) (x ^ 5) (/ 12) ltac:(lra) (conj Hc12 H)) as Hm.
  rewrite <- !Rpower_pow in Hm by assumption.
  rewrite !Rpower_mult in Hm.
  replace (INR 12 * / 12) with 1 in Hm by (simpl; lra).
  replace (INR 5 * / 12) with (1 / 2.4) in Hm by (simpl; lra).
  now rewrite Rpower_1 in Hm.
Qed.

Lemma rgb_to_srgb_helper_range (x : R) :
  0 <= x <= 1 ->
  exists s, rgb_to_srgb_helper x = Some s /\ 0 <= s <= 1.
Proof.
  intros Hx. unfold rgb_to_srgb_helper.
  destruct (fleb x 0.0031308) eqn:E.
  - apply fleb_true in E. eexists. split; [reflexivity | lra].
  - apply fleb_false in E. rewrite powf_pos by lra.
    eexists. split; [reflexivity |].
    pose proof (Rpower_le_1 x (1 / 2.4) ltac:(lra) ltac:(lra)).
    assert (0.06 <= Rpower x (1 / 2.4)).
    { apply Rpower_root_ge; [lra | lra |].
      apply Rle_trans with (0.0031308 ^ 5); [lra |].
      apply pow_incr. lra. }
    lra.
Qed.

Lemma srgb_to_rgb_helper_range (s : R) :
  0 <= s <= 1 ->
  exists t, srgb_to_rgb_helper s = Some t /\ 0 <= t <= 1.
Proof.
  intros Hs. unfold srgb_to_rgb_helper.
  destruct (fleb s 0.04045) eqn:E.
  - apply fleb_true in E. eexists. split; [reflexivity | lra].
  - apply fleb_false in E. rewrite powf_pos by lra.
    eexists. split; [reflexivity |].
    split; [apply Rlt_le, Rpower_pos |].
    apply Rpower_le_1; lra.
Qed.

(** * Hue angles *)

Lemma atan_pos (x : R) : 0 < x -> 0 < atan x.
Proof. intros H. rewrite <- atan_0. now apply atan_increasing. Qed.

Lemma atan_neg (x : R) : x < 0 -> atan x < 0.
Proof. intros H. rewrite <- atan_0. now apply atan_increasing. Qed.

Lemma div_pos_pos (y x : R) : 0 < x -> 0 < y -> 0 < y / x.
Proof. intros. apply Rdiv_lt_0_compat; assumption. Qed.

Lemma div_neg_neg (y x : R) : x < 0 -> y < 0 -> 0 < y / x.
Proof.
  intros. replace (y / x) with ((- y) / (- x)) by (field; lra).
  apply Rdiv_lt_0_compat; lra.
Qed.

Lemma div_pos_neg (y x : R) : x < 0 -> 0 < y -> y / x < 0.
Proof.
  intros. replace (y / x) with (- (y / (- x))) by (field; lra).
  assert (0 < y / (- x)) by (apply Rdiv_lt_0_compat; lra). lra.
Qed.

Lemma div_neg_pos (y x : R) : 0 < x -> y < 0 -> y / x < 0.
Proof.
  intros. replace (y / x) with (- ((- y) / x)) by (field; lra).
  assert (0 < (- y) / x) by (apply Rdiv_lt_0_compat; lra). lra.
Qed.

Lemma hue_of_unfold (u v : R) :
  hue_of u v = if fltb (atan2f v u) 0 then atan2f v u + twopi else atan2f v u.
Proof. reflexivity. Qed.

Lemma hue_of_q1 (u v : R) : 0 < u -> 0 < v -> 0 < hue_of u v < PI / 2.
Proof.
  intros Hu Hv. rewrite hue_of_unfold. unfold atan2f.
  destruct (Rlt_dec 0 u); [| lra].
  pose proof (atan_bound (v / u)) as [_ Hb].
  pose proof (atan_pos (v / u) (div_pos_pos v u Hu Hv)) as Hp.
  replace (fltb _ 0) with false by (symmetry; apply fltb_false; lra).
  lra.
Qed.

Lemma hue_of_q2 (u v : R) : u < 0 -> 0 < v -> PI / 2 < hue_of u v < PI.
Proof.
  intros Hu Hv. rewrite hue_of_unfold. unfold atan2f.
  destruct (Rlt_dec 0 u); [lra |].
  destruct (Rlt_dec u 0); [| lra].
  destruct (Rlt_dec v 0); [lra |].
  pose proof (atan_bound (v / u)) as [Hb _].
  pose proof (atan_neg (v / u) (div_pos_neg v u Hu Hv)) as Hp.
  pose proof PI_RGT_0.
  replace (fltb _ 0) with false by (symmetry; apply fltb_false; lra).
  lra.
Qed.

Lemma hue_of_q3 (u v : R) : u < 0 -> v < 0 -> PI < hue_of u v < 3 * PI / 2.
Proof.
  intros Hu Hv. rewrite hue_of_unfold. unfold atan2f, twopi.
  destruct (Rlt_dec 0 u); [lra |].
  destruct (Rlt_dec u 0); [| lra].
  destruct (Rlt_dec v 0); [| lra].
  pose proof (atan_bound (v / u)) as [_ Hb].
  pose proof (atan_pos (v / u) (div_neg_neg v u Hu Hv)) as Hp.
  pose proof PI_RGT_0.
  replace (fltb _ 0) with true by (symmetry; apply fltb_true; lra).
  lra.
Qed.

Lemma hue_of_q4 (u v : R) : 0 < u -> v < 0 -> 3 * PI / 2 < hue_of u v < 2 * PI.
Proof.
  intros Hu Hv. rewrite hue_of_unfold. unfold atan2f, twopi.
  destruct (Rlt_dec 0 u); [| lra].
  pose proof (atan_bound (v / u)) as [Hb _].
  pose proof (atan_neg (v / u) (div_neg_pos v u Hu Hv)) as Hp.
  pose proof PI_RGT_0.
  replace (fltb _ 0) with true by (symmetry; apply fltb_true; lra).
  lra.
Qed.

Lemma hue_of_range (u v : R) : 0 <= hue_of u v < 2 * PI.
Proof.
  pose proof PI_RGT_0 as Hpi.
  destruct (Rlt_dec 0 u) as [Hu | Hu].
  - destruct (Rlt_dec 0 v) as [Hv | Hv].
    + pose proof (hue_of_q1 u v Hu Hv). lra.
    + destruct (Rlt_dec v 0) as [Hv' | Hv'].
      * pose proof (hue_of_q4 u v Hu Hv'). lra.
      * assert (v = 0) by lra. subst v.
        rewrite hue_of_unfold. unfold atan2f.
        destruct (Rlt_dec 0 u); [| lra].
        replace (0 / u) with 0 by (field; lra). rewrite atan_0.
        replace (fltb 0 0) with false by (symmetry; apply fltb_false; lra).
        lra.
  - destruct (Rlt_dec u 0) as [Hu' | Hu'].
    + destruct (Rlt_dec 0 v) as [Hv | Hv].
      * pose proof (hue_of_q2 u v Hu' Hv). lra.
      * destruct (Rlt_dec v 0) as [Hv' | Hv'].
        -- pose proof (hue_of_q3 u v Hu' Hv'). lra.
        -- assert (v = 0) by lra. subst v.
           rewrite hue_of_unfold. unfold atan2f.
           destruct (Rlt_dec 0 u); [lra |].
           destruct (Rlt_dec u 0); [| lra].
           destruct (Rlt_dec 0 0); [lra |].
           replace (0 / u) with 0 by (field; lra). rewrite atan_0.
           replace (fltb (0 + PI) 0) with false
             by (symmetry; apply fltb_false; lra).
           lra.
    + rewrite hue_of_unfold. unfold atan2f, twopi.
      destruct (Rlt_dec 0 u); [lra |].
      destruct (Rlt_dec u 0); [lra |].
      destruct (Rlt_dec 0 v).
      * replace (fltb (PI / 2) 0) with false
          by (symmetry; apply fltb_false; lra).
        lra.
      * destruct (Rlt_dec v 0).
        -- replace (fltb (- (PI / 2)) 0) with true
             by (symmetry; apply fltb_true; lra).
           lra.
        -- replace (fltb 0 0) with false by (symmetry; apply fltb_false; lra).
           lra.
Qed.

Lemma hypotf_pos (u v : R) : u <> 0 \/ v <> 0 -> 0 < hypotf u v.
Proof.
  intros H. unfold hypotf. apply sqrt_lt_R0.
  destruct H; nra.
Qed.

Lemma hypotf_sqr (u v : R) : hypotf u v * hypotf u v = u * u + v * v.
Proof. unfold hypotf. apply sqrt_sqrt. nra. Qed.

Lemma hypot_factor (u v : R) :
  u <> 0 -> sqrt (1 + (v / u)²) = hypotf u v / Rabs u.
Proof.
  intros Hu. unfold hypotf.
  replace (u * u + v * v) with (Rsqr u * (1 + (v / u)²))
    by (unfold Rsqr; field; assumption).
  rewrite sqrt_mult by (unfold Rsqr; nra).
  rewrite sqrt_Rsqr_abs. field.
  now apply Rabs_no_R0.
Qed.

Lemma cos_sin_shift (x : R) :
  (cos (x + 2 * PI) = cos x /\ sin (x + 2 * PI) = sin x) /\
  (cos (x + PI) = - cos x /\ sin (x + PI) = - sin x) /\
  (cos (x - PI) = - cos x /\ sin (x - PI) = - sin x).
Proof.
  repeat split.
  - rewrite cos_plus, cos_2PI, sin_2PI. ring.
  - rewrite sin_plus, cos_2PI, sin_2PI. ring.
  - apply neg_cos.
  - apply neg_sin.
  - rewrite cos_minus, cos_PI, sin_PI. ring.
  - rewrite sin_minus, cos_PI, sin_PI. ring.
Qed.

Lemma cos_sin_atan_pos (u v : R) :
  0 < u ->
  cos (atan (v / u)) = u / hypotf u v /\ sin (atan (v / u)) = v / hypotf u v.
Proof.
  intros Hu.
  pose proof (hypotf_pos u v ltac:(left; lra)) as Hh.
  rewrite cos_atan, sin_atan, hypot_factor by lra.
  rewrite Rabs_pos_eq by lra.
  split; field; lra.
Qed.

Lemma cos_sin_atan_neg (u v : R) :
  u < 0 ->
  - cos (atan (v / u)) = u / hypotf u v /\
  - sin (atan (v / u)) = v / hypotf u v.
Proof.
  intros Hu.
  pose proof (hypotf_pos u v ltac:(left; lra)) as Hh.
  rewrite cos_atan, sin_atan, hypot_factor by lra.
  rewrite Rabs_left by lra.
  split; field; lra.
Qed.

(** The hue of a non-zero (u, v) is the angle of its direction. *)
Lemma cos_sin_hue_of (u v : R) :
  u <> 0 \/ v <> 0 ->
  cos (hue_of u v) = u / hypotf u v /\ sin (hue_of u v) = v / hypotf u v.
Proof.
  intros H.
  pose proof (hypotf_pos u v H) as Hh.
  pose proof PI_RGT_0 as Hpi.
  assert (Hshift : forall x,
            cos (if fltb x 0 then x + twopi else x) = cos x /\
            sin (if fltb x 0 then x + twopi else x) = sin x).
  { intros x. destruct (fltb x 0); [| auto].
    unfold twopi. apply (cos_sin_shift x). }
  rewrite hue_of_unfold.
  destruct (Hshift (atan2f v u)) as [Hc Hs]. rewrite Hc, Hs. clear Hc Hs Hshift.
  unfold atan2f.
  destruct (Rlt_dec 0 u) as [Hu | Hu].
  - now apply cos_sin_atan_pos.
  - destruct (Rlt_dec u 0) as [Hu' | Hu'].
    + destruct (cos_sin_atan_neg u v Hu') as [Hc Hs].
      destruct (cos_sin_shift (atan (v / u))) as (_ & [Ha Hb] & [Hc' Hd]).
      destruct (Rlt_dec v 0).
      * rewrite Hc', Hd. auto.
      * rewrite Ha, Hb. auto.
    + assert (u = 0) by lra. subst u.
      assert (Hv : v <> 0) by (destruct H; [lra | assumption]).
      assert (Hq : hypotf 0 v = Rabs v).
      { unfold hypotf. replace (0 * 0 + v * v) with (Rsqr v) by (unfold Rsqr; ring).
        apply sqrt_Rsqr_abs. }
      rewrite Hq.
      destruct (Rlt_dec 0 v).
      * rewrite cos_PI2, sin_PI2, Rabs_pos_eq by lra. split; field; lra.
      * destruct (Rlt_dec v 0); [| lra].
        rewrite cos_neg, sin_neg, cos_PI2, sin_PI2, Rabs_left by lra.
        split; field; lra.
Qed.

(** * Linear RGB to LUV *)

Lemma rgb_denominator_pos (r g b : R) :
  0 <= r -> 0 <= g -> 0 <= b -> 0 < r + g + b ->
  let '(x, y, z) := rgb_to_xyz r g b in 0 < x + 15 * y + 3 * z.
Proof. intros Hr Hg Hb H. unfold rgb_to_xyz. lra. Qed.

Lemma rgb_to_luv_some (r g b : R) :
  0 <= r -> 0 <= g -> 0 <= b -> 0 < r + g + b ->
  rgb_to_luv r g b = Some (luv_of_rgb r g b).
Proof.
  intros Hr Hg Hb H.
  pose proof (rgb_denominator_pos r g b Hr Hg Hb H) as Hd.
  unfold rgb_to_luv, luv_of_rgb, chroma_du, chroma_dv, luma.
  unfold rgb_to_xyz in *.
  rewrite xyz_to_luv_some by lra. reflexivity.
Qed.

Lemma luma_pos (r g b : R) :
  0 <= r -> 0 <= g -> 0 <= b -> 0 < r + g + b -> 0 < luma r g b.
Proof. intros. unfold luma. lra. Qed.

Lemma luv_of_rgb_l_pos (r g b : R) :
  0 <= r -> 0 <= g -> 0 <= b -> 0 < r + g + b -> 0 < LUV.l (luv_of_rgb r g b).
Proof. intros. simpl. apply lightness_of_pos. now apply luma_pos. Qed.

(** The hue of a corner of the cube: the three channels are 0 or 1. *)
Lemma srgb_to_lch_hue_corner (r g b : R) :
  (r = 0 \/ r = 1) -> (g = 0 \/ g = 1) -> (b = 0 \/ b = 1) ->
  0 < r + g + b ->
  srgb_to_lch_hue r g b = Some (hue_of_rgb r g b).
Proof.
  intros Hr Hg Hb H.
  assert (Hh : forall c, c = 0 \/ c = 1 -> srgb_to_rgb_helper c = Some c).
  { intros c [-> | ->]; [apply srgb_to_rgb_helper_0 | apply srgb_to_rgb_helper_1]. }
  unfold srgb_to_lch_hue, srgb_to_rgb.
  rewrite (Hh r Hr), (Hh g Hg), (Hh b Hb). cbn [bind ret].
  unfold rgb_to_xyz.
  rewrite xyz_to_luv_some by (destruct Hr, Hg, Hb; subst; lra).
  reflexivity.
Qed.

Lemma hue_table_some :
  hue_table = Some corner_hues.
Proof.
  unfold hue_table.
  rewrite !srgb_to_lch_hue_corner by (auto; lra).
  reflexivity.
Qed.

(** Signs of the chromaticity offsets of the six corners. *)
Lemma corner_chroma_signs :
  (0 < chroma_du 1 0 0 /\ 0 < chroma_dv 1 0 0) /\
  (0 < chroma_du 1 1 0 /\ 0 < chroma_dv 1 1 0) /\
  (chroma_du 0 1 0 < 0 /\ 0 < chroma_dv 0 1 0) /\
  (chroma_du 0 1 1 < 0 /\ chroma_dv 0 1 1 < 0) /\
  (chroma_du 0 0 1 < 0 /\ chroma_dv 0 0 1 < 0) /\
  (0 < chroma_du 1 0 1 /\ chroma_dv 1 0 1 < 0).
Proof.
  unfold chroma_du, chroma_dv, rgb_to_xyz.
  rewrite d65_u_prime_val, d65_v_prime_val.
  repeat split; lra.
Qed.

Lemma scaled_pos (l d : R) : 0 < l -> 0 < d -> 0 < 13 * l * d.
Proof. intros. apply Rmult_lt_0_compat; lra. Qed.

Lemma scaled_neg (l d : R) : 0 < l -> d < 0 -> 13 * l * d < 0.
Proof.
  intros. assert (0 < 13 * l * (- d)) by (apply Rmult_lt_0_compat; lra). lra.
Qed.

(** The quadrants of the six hues of the table. *)
Lemma corner_hue_bounds :
  (0 < hue_of_rgb 1 0 0 < PI / 2) /\
  (0 < hue_of_rgb 1 1 0 < PI / 2) /\
  (PI / 2 < hue_of_rgb 0 1 0 < PI) /\
  (PI < hue_of_rgb 0 1 1 < 3 * PI / 2) /\
  (PI < hue_of_rgb 0 0 1 < 3 * PI / 2) /\
  (3 * PI / 2 < hue_of_rgb 1 0 1 < 2 * PI).
Proof.
  destruct corner_chroma_signs as
    ([R1 R2] & [Y1 Y2] & [G1 G2] & [C1 C2] & [B1 B2] & [M1 M2]).
  assert (L : forall r g b, (r = 0 \/ r = 1) -> (g = 0 \/ g = 1) ->
            (b = 0 \/ b = 1) -> 0 < r + g + b ->
            0 < lightness_of (luma r g b)).
  { intros r g b Hr Hg Hb H. apply lightness_of_pos, luma_pos;
      destruct Hr, Hg, Hb; subst; lra. }
  unfold hue_of_rgb, luv_of_rgb; simpl.
  repeat split.
  1,2: apply hue_of_q1; apply scaled_pos; auto; apply L; auto; lra.
  1,2: apply hue_of_q1; apply scaled_pos; auto; apply L; auto; lra.
  1,2: apply hue_of_q2; [apply scaled_neg | apply scaled_pos]; auto; apply L; auto; lra.
  1,2: apply hue_of_q3; apply scaled_neg; auto; apply L; auto; lra.
  1,2: apply hue_of_q3; apply scaled_neg; auto; apply L; auto; lra.
  1,2: apply hue_of_q4; [apply scaled_pos | apply scaled_neg]; auto; apply L; auto; lra.
Qed.

(** Linear to sRGB and back stays in [0, 1], and is the identity outside
    the narrow window above the threshold 0.0031308 where the two transfer
    functions do not agree on the branch. *)
Lemma srgb_roundtrip (x : R) :
  0 <= x <= 1 ->
  exists s t, rgb_to_srgb_helper x = Some s /\ srgb_to_rgb_helper s = Some t /\
              0 <= t <= 1 /\
              (x <= 0.0031308 \/ 0.0031309 <= x -> t = x).
Proof.
  intros Hx.
  destruct (rgb_to_srgb_helper_range x Hx) as (s & Hs & Hr).
  destruct (srgb_to_rgb_helper_range s Hr) as (t & Ht & Htr).
  exists s, t. split; [exact Hs |]. split; [exact Ht |]. split; [exact Htr |].
  intros Hw.
  unfold rgb_to_srgb_helper in Hs. unfold srgb_to_rgb_helper in Ht.
  destruct (fleb x 0.0031308) eqn:E.
  - apply fleb_true in E. inversion Hs; subst.
    replace (fleb (x * 12.92) 0.04045) with true in Ht
      by (symmetry; apply fleb_true; lra).
    unfold ret in Ht. injection Ht as Ht. lra.
  - apply fleb_false in E. rewrite powf_pos in Hs by lra.
    inversion Hs; subst. clear Hs.
    assert (Hc : 0.090474 <= Rpower x (1 / 2.4)).
    { apply Rpower_root_ge; [lra | lra |].
      apply Rle_trans with (0.0031309 ^ 5); [lra |].
      apply pow_incr. lra. }
    replace (fleb _ 0.04045) with false in Ht
      by (symmetry; apply fleb_false; lra).
    replace ((1.055 * Rpower x (1 / 2.4) - 0.055 + 0.055) / 1.055)
      with (Rpower x (1 / 2.4)) in Ht by (field; lra).
    rewrite powf_pos in Ht by apply Rpower_pos.
    rewrite Rpower_mult in Ht.
    replace (1 / 2.4 * 2.4) with 1 in Ht by lra.
    rewrite Rpower_1 in Ht by lra. congruence.
Qed.

(** * The gamut solver *)

Lemma sector_In (h : list R) (hue : R) : In (sector h hue) sector_indices.
Proof.
  unfold sector, sector_indices.
  repeat match goal with
         | |- context [fltb ?a ?b] => destruct (fltb a b)
         end; simpl; tauto.
Qed.

Lemma solver_q_unfold (hue : R) (c : nat) :
  (c < 3)%nat ->
  solver_q hue c =
  primary_S c * (sin hue * primary_du c - cos hue * primary_dv c).
Proof.
  intros Hc. unfold solver_q, primary_du, primary_dv.
  assert (H : primary_S c <> 0).
  { destruct c as [| [| [| c]]]; [| | | lia];
      unfold primary_S, at2, M; simpl; lra. }
  fold (primary_S c). field. exact H.
Qed.

(** The solver returns whenever [q1] is not zero; its result is the LUV
    colour of an edge point, whose channel [i] is [clamp (- q0 / q1)] taken
    to sRGB and back. *)
Lemma most_saturated_eval (hue : R) (i j k : nat) :
  sector corner_hues hue = (i, j, k) ->
  solver_q hue i <> 0 ->
  let q := clamp01 (- solver_q hue k / solver_q hue i) in
  exists t,
    0 <= t <= 1 /\ (q <= 0.0031308 \/ 0.0031309 <= q -> t = q) /\
    let e := edge_triple i j k t in
    most_saturated_in_srgb hue
      = Some (luv_of_rgb (nth 0 e 0) (nth 1 e 0) (nth 2 e 0)).
Proof.
  intros Hs Hq q.
  pose proof (sector_In corner_hues hue) as Hin. rewrite Hs in Hin.
  pose proof (clamp01_range (- solver_q hue k / solver_q hue i)) as Hc.
  destruct (srgb_roundtrip _ Hc) as (s & t & Hs1 & Hs2 & Hs3 & Hs4).
  exists t. split; [exact Hs3 |]. split; [exact Hs4 |].
  unfold most_saturated_in_srgb, boundary_srgb.
  rewrite hue_table_some. cbn [bind ret]. rewrite Hs.
  fold (solver_q hue k). fold (solver_q hue i).
  rewrite fdiv_some by assumption. cbn [bind ret].
  rewrite clamp_clamp01, Hs1. cbn [bind ret].
  pose proof (rgb_to_luv_some) as Hl. unfold rgb_to_luv in Hl.
  unfold edge_triple.
  simpl in Hin.
  destruct Hin as [E | [E | [E | [E | [E | [E | []]]]]]];
    inversion E; subst i j k; simpl;
    unfold srgb_to_rgb;
    rewrite ?srgb_to_rgb_helper_0, ?srgb_to_rgb_helper_1, ?Hs2;
    cbn [bind ret]; apply Hl; lra.
Qed.

(** A direction between two directions less than a half turn apart is on
    the same side of a line through the origin as both of them. *)
Lemma cone_side (a b h du dv : R) :
  a <= h < b -> b - a < PI ->
  (0 < sin a * du - cos a * dv /\ 0 < sin b * du - cos b * dv) \/
  (sin a * du - cos a * dv < 0 /\ sin b * du - cos b * dv < 0) ->
  sin h * du - cos h * dv <> 0.
Proof.
  intros [Hah Hhb] Hba Hside.
  assert (Hid : sin (b - a) * (sin h * du - cos h * dv) =
                sin (b - h) * (sin a * du - cos a * dv)
                + sin (h - a) * (sin b * du - cos b * dv)).
  { rewrite !sin_minus. ring. }
  assert (H1 : 0 < sin (b - h)) by (apply sin_gt_0; lra).
  assert (H2 : 0 <= sin (h - a)) by (apply sin_ge_0; lra).
  assert (H3 : 0 < sin (b - a)) by (apply sin_gt_0; lra).
  intros Hz. rewrite Hz, Rmult_0_r in Hid.
  destruct Hside as [[Ha Hb] | [Ha Hb]]; nra.
Qed.

(** At the hue of a colour with a chromaticity that is not the white
    point's, the side of a line is the sign of a cross product of
    chromaticities. *)
Lemma hue_cross (r g b du dv : R) :
  0 <= r -> 0 <= g -> 0 <= b -> 0 < r + g + b ->
  chroma_du r g b <> 0 \/ chroma_dv r g b <> 0 ->
  exists kappa, 0 < kappa /\
    sin (hue_of_rgb r g b) * du - cos (hue_of_rgb r g b) * dv
    = kappa * (chroma_dv r g b * du - chroma_du r g b * dv).
Proof.
  intros Hr Hg Hb H Hc.
  pose proof (luv_of_rgb_l_pos r g b Hr Hg Hb H) as Hl. simpl in Hl.
  set (L := lightness_of (luma r g b)) in *.
  assert (Hnz : 13 * L * chroma_du r g b <> 0 \/ 13 * L * chroma_dv r g b <> 0).
  { destruct Hc as [Hc | Hc]; [left | right];
      apply Rmult_integral_contrapositive_currified; lra. }
  destruct (cos_sin_hue_of _ _ Hnz) as [Hcos Hsin].
  pose proof (hypotf_pos _ _ Hnz) as Hh.
  unfold hue_of_rgb, luv_of_rgb. simpl. fold L.
  rewrite Hcos, Hsin.
  exists (13 * L / hypotf (13 * L * chroma_du r g b) (13 * L * chroma_dv r g b)).
  split.
  - apply Rdiv_lt_0_compat; lra.
  - field. lra.
Qed.

Lemma primary_S_pos (c : nat) : (c < 3)%nat -> 0 < primary_S c.
Proof.
  intros Hc. destruct c as [| [| [| c]]]; [| | | lia];
    unfold primary_S, at2, M; simpl; lra.
Qed.

Lemma corner_side_pos (r g b : R) (c : nat) :
  (r = 0 \/ r = 1) -> (g = 0 \/ g = 1) -> (b = 0 \/ b = 1) -> 0 < r + g + b ->
  chroma_du r g b <> 0 ->
  0 < chroma_dv r g b * primary_du c - chroma_du r g b * primary_dv c ->
  0 < sin (hue_of_rgb r g b) * primary_du c
      - cos (hue_of_rgb r g b) * primary_dv c.
Proof.
  intros Hr Hg Hb H Hnz Hs.
  assert (Hr' : 0 <= r) by (destruct Hr; lra).
  assert (Hg' : 0 <= g) by (destruct Hg; lra).
  assert (Hb' : 0 <= b) by (destruct Hb; lra).
  destruct (hue_cross r g b (primary_du c) (primary_dv c) Hr' Hg' Hb' H
              (or_introl Hnz)) as (kappa & Hk & E).
  rewrite E. now apply Rmult_lt_0_compat.
Qed.

Lemma corner_side_neg (r g b : R) (c : nat) :
  (r = 0 \/ r = 1) -> (g = 0 \/ g = 1) -> (b = 0 \/ b = 1) -> 0 < r + g + b ->
  chroma_du r g b <> 0 ->
  chroma_dv r g b * primary_du c - chroma_du r g b * primary_dv c < 0 ->
  sin (hue_of_rgb r g b) * primary_du c
  - cos (hue_of_rgb r g b) * primary_dv c < 0.
Proof.
  intros Hr Hg Hb H Hnz Hs.
  assert (Hr' : 0 <= r) by (destruct Hr; lra).
  assert (Hg' : 0 <= g) by (destruct Hg; lra).
  assert (Hb' : 0 <= b) by (destruct Hb; lra).
  destruct (hue_cross r g b (primary_du c) (primary_dv c) Hr' Hg' Hb' H
              (or_introl Hnz)) as (kappa & Hk & E).
  rewrite E.
  assert (0 < kappa * - (chroma_dv r g b * primary_du c
                         - chroma_du r g b * primary_dv c))
    by (apply Rmult_lt_0_compat; lra).
  lra.
Qed.

(** The sides, for each sector, of its two bounding corners with respect to
    the primary of the channel that is solved for. *)
Lemma sector_cross_signs :
  (0 < chroma_dv 1 0 1 * primary_du 2 - chroma_du 1 0 1 * primary_dv 2 /\
   0 < chroma_dv 1 0 0 * primary_du 2 - chroma_du 1 0 0 * primary_dv 2) /\
  (chroma_dv 1 0 0 * primary_du 1 - chroma_du 1 0 0 * primary_dv 1 < 0 /\
   chroma_dv 1 1 0 * primary_du 1 - chroma_du 1 1 0 * primary_dv 1 < 0) /\
  (0 < chroma_dv 1 1 0 * primary_du 0 - chroma_du 1 1 0 * primary_dv 0 /\
   0 < chroma_dv 0 1 0 * primary_du 0 - chroma_du 0 1 0 * primary_dv 0) /\
  (chroma_dv 0 1 0 * primary_du 2 - chroma_du 0 1 0 * primary_dv 2 < 0 /\
   chroma_dv 0 1 1 * primary_du 2 - chroma_du 0 1 1 * primary_dv 2 < 0) /\
  (0 < chroma_dv 0 1 1 * primary_du 1 - chroma_du 0 1 1 * primary_dv 1 /\
   0 < chroma_dv 0 0 1 * primary_du 1 - chroma_du 0 0 1 * primary_dv 1) /\
  (chroma_dv 0 0 1 * primary_du 0 - chroma_du 0 0 1 * primary_dv 0 < 0 /\
   chroma_dv 1 0 1 * primary_du 0 - chroma_du 1 0 1 * primary_dv 0 < 0).
Proof.
  unfold chroma_du, chroma_dv, rgb_to_xyz, primary_du, primary_dv, primary_S,
    at2, M; simpl.
  rewrite d65_u_prime_val, d65_v_prime_val.
  repeat split; lra.
Qed.

(** For a hue in [0, 2 PI), and a little beyond on both sides, the divisor
    [q1] of the solver is not zero. *)
Lemma solver_q1_nonzero (hue : R) (i j k : nat) :
  hue_of_rgb 1 0 1 - 2 * PI <= hue < hue_of_rgb 1 0 0 + 2 * PI ->
  sector corner_hues hue = (i, j, k) ->
  solver_q hue i <> 0.
Proof.
  intros [H0 H2] Hs.
  destruct corner_hue_bounds as (bR & bY & bG & bC & bB & bM).
  destruct corner_chroma_signs as
    ([R1 R2] & [Y1 Y2] & [G1 G2] & [C1 C2] & [B1 B2] & [M1 M2]).
  destruct sector_cross_signs as
    ([s1a s1b] & [s2a s2b] & [s3a s3b] & [s4a s4b] & [s5a s5b] & [s6a s6b]).
  pose proof PI_RGT_0 as Hpi.
  assert (Hfin : forall c, (c < 3)%nat ->
            sin hue * primary_du c - cos hue * primary_dv c <> 0 ->
            solver_q hue c <> 0).
  { intros c Hc Hn. rewrite solver_q_unfold by assumption.
    apply Rmult_integral_contrapositive_currified; [| assumption].
    pose proof (primary_S_pos c Hc). lra. }
  unfold sector, corner_hues in Hs. simpl nth in Hs.
  destruct (fltb hue (hue_of_rgb 1 0 0)) eqn:E0.
  { (* below red: between magenta, a turn back, and red *)
    apply fltb_true in E0. inversion Hs; subst i j k. apply Hfin; [lia |].
    apply (cone_side (hue_of_rgb 1 0 1 - 2 * PI) (hue_of_rgb 1 0 0)); [lra | lra |].
    left. split.
    - destruct (cos_sin_shift (hue_of_rgb 1 0 1 - 2 * PI)) as ([Hc Hsn] & _).
      replace (hue_of_rgb 1 0 1 - 2 * PI + 2 * PI) with (hue_of_rgb 1 0 1)
        in Hc, Hsn by ring.
      rewrite <- Hc, <- Hsn. apply corner_side_pos; auto; lra.
    - apply corner_side_pos; auto; lra. }
  apply fltb_false in E0.
  destruct (fltb hue (hue_of_rgb 1 1 0)) eqn:E1.
  { apply fltb_true in E1. inversion Hs; subst i j k. apply Hfin; [lia |].
    apply (cone_side (hue_of_rgb 1 0 0) (hue_of_rgb 1 1 0)); [lra | lra |].
    right. split; apply corner_side_neg; auto; lra. }
  apply fltb_false in E1.
  destruct (fltb hue (hue_of_rgb 0 1 0)) eqn:E2.
  { apply fltb_true in E2. inversion Hs; subst i j k. apply Hfin; [lia |].
    apply (cone_side (hue_of_rgb 1 1 0) (hue_of_rgb 0 1 0)); [lra | lra |].
    left. split; apply corner_side_pos; auto; lra. }
  apply fltb_false in E2.
  destruct (fltb hue (hue_of_rgb 0 1 1)) eqn:E3.
  { apply fltb_true in E3. inversion Hs; subst i j k. apply Hfin; [lia |].
    apply (cone_side (hue_of_rgb 0 1 0) (hue_of_rgb 0 1 1)); [lra | lra |].
    right. split; apply corner_side_neg; auto; lra. }
  apply fltb_false in E3.
  destruct (fltb hue (hue_of_rgb 0 0 1)) eqn:E4.
  { apply fltb_true in E4. inversion Hs; subst i j k. apply Hfin; [lia |].
    apply (cone_side (hue_of_rgb 0 1 1) (hue_of_rgb 0 0 1)); [lra | lra |].
    left. split; apply corner_side_pos; auto; lra. }
  apply fltb_false in E4.
  destruct (fltb hue (hue_of_rgb 1 0 1)) eqn:E5.
  { apply fltb_true in E5. inversion Hs; subst i j k. apply Hfin; [lia |].
    apply (cone_side (hue_of_rgb 0 0 1) (hue_of_rgb 1 0 1)); [lra | lra |].
    right. split; apply corner_side_neg; auto; lra. }
  apply fltb_false in E5.
  (* from magenta on: between magenta and red, a turn ahead *)
  inversion Hs; subst i j k. apply Hfin; [lia |].
  apply (cone_side (hue_of_rgb 1 0 1) (hue_of_rgb 1 0 0 + 2 * PI)); [lra | lra |].
  left. split.
  - apply corner_side_pos; auto; lra.
  - destruct (cos_sin_shift (hue_of_rgb 1 0 0)) as ([Hc Hsn] & _).
    rewrite Hc, Hsn. apply corner_side_pos; auto; lra.
Qed.

Lemma hue_domain (hue : R) :
  0 <= hue < 2 * PI ->
  hue_of_rgb 1 0 1 - 2 * PI <= hue < hue_of_rgb 1 0 0 + 2 * PI.
Proof.
  destruct corner_hue_bounds as (bR & _ & _ & _ & _ & bM). lra.
Qed.

(** The solver is total on [0, 2 PI), and a little beyond: it returns the
    LUV colour of a point on an edge of the cube. *)
Lemma most_saturated_total (hue : R) :
  hue_of_rgb 1 0 1 - 2 * PI <= hue < hue_of_rgb 1 0 0 + 2 * PI ->
  exists i j k t,
    In (i, j, k) sector_indices /\ 0 <= t <= 1 /\
    let e := edge_triple i j k t in
    most_saturated_in_srgb hue
      = Some (luv_of_rgb (nth 0 e 0) (nth 1 e 0) (nth 2 e 0)).
Proof.
  intros Hh.
  destruct (sector corner_hues hue) as [[i j] k] eqn:Hs.
  pose proof (solver_q1_nonzero hue i j k Hh Hs) as Hq.
  destruct (most_saturated_eval hue i j k Hs Hq) as (t & Ht & _ & E).
  exists i, j, k, t. split; [| split; assumption].
  rewrite <- Hs. apply sector_In.
Qed.

(** * From LUV back to sRGB bytes *)

Lemma lightness_inverse (y : R) :
  0 < y ->
  (if fleb (lightness_of y) 8
   then d65_y * lightness_of y * (3 * 3 * 3 / (29 * 29 * 29))
   else let tmp := (lightness_of y + 16) / 116 in d65_y * tmp * tmp * tmp)
  = y.
Proof.
  intros Hy. unfold d65_y.
  destruct (Rle_dec (y / 100) (216 / 24389)) as [Hl | Hl].
  - rewrite lightness_of_low by assumption.
    replace (fleb _ 8) with true by (symmetry; apply fleb_true; lra).
    field.
  - assert (Hh : 216 / 24389 < y / 100) by lra.
    rewrite lightness_of_high by assumption.
    assert (Hc : 6 / 29 < cbrtf (y / 100)) by (apply cbrtf_gt; lra).
    replace (fleb _ 8) with false by (symmetry; apply fleb_false; lra).
    cbv zeta.
    replace ((116 * cbrtf (y / 100) - 16 + 16) / 116) with (cbrtf (y / 100))
      by field.
    rewrite !Rmult_assoc, <- (Rmult_assoc (cbrtf _)), cbrtf_cube by lra.
    field.
Qed.


(** [xyz_to_rgb] after [rgb_to_xyz]: the two matrices are inverse to each
    other up to 2e-7 on the unit cube. *)
Lemma matrix_roundtrip (r g b : R) :
  0 <= r <= 1 -> 0 <= g <= 1 -> 0 <= b <= 1 ->
  let '(x, y, z) := rgb_to_xyz r g b in
  exists r' g' b',
    xyz_to_rgb x y z = (clamp01 r', clamp01 g', clamp01 b') /\
    Rabs (r' - r) <= 2e-7 /\ Rabs (g' - g) <= 2e-7 /\ Rabs (b' - b) <= 2e-7.
Proof.
  intros Hr Hg Hb. unfold rgb_to_xyz, xyz_to_rgb. cbv beta iota.
  rewrite !clamp_clamp01.
  eexists _, _, _. split; [reflexivity |].
  split; [| split]; apply Rabs_le; lra.
Qed.

Lemma roundf_nonneg (x : R) : 0 <= x -> roundf x = IZR (floorZ (x + / 2)).
Proof. intros H. unfold roundf. destruct (Rlt_dec x 0); [lra | reflexivity]. Qed.

Lemma uchar_of_float_IZR (k : Z) :
  (0 <= k <= 255)%Z -> uchar_of_float (IZR k) = Some k.
Proof.
  intros [H1 H2]. unfold uchar_of_float. rewrite truncZ_IZR.
  apply Z.leb_le in H1, H2. now rewrite H1, H2.
Qed.

(** The byte of an sRGB channel in [0, 1]. *)
Lemma srgb_byte (s : R) :
  0 <= s <= 1 ->
  exists k, uchar_of_float (roundf (s * 255)) = Some k /\
            (0 <= k <= 255)%Z /\
            (s * 255 < / 2 -> k = 0%Z) /\ (254.5 <= s * 255 -> k = 255%Z).
Proof.
  intros Hs. rewrite roundf_nonneg by lra.
  set (k := floorZ (s * 255 + / 2)).
  destruct (floorZ_bounds (s * 255 + / 2)) as [H1 H2]. fold k in H1, H2.
  assert (Hk : (0 <= k <= 255)%Z).
  { split.
    - assert (0 < k + 1)%Z; [| lia]. apply lt_IZR. rewrite plus_IZR. lra.
    - assert (k < 256)%Z; [| lia]. apply lt_IZR. lra. }
  exists k. split; [now apply uchar_of_float_IZR |]. split; [exact Hk |].
  split; intros H.
  - assert (k < 1)%Z; [| lia]. apply lt_IZR. lra.
  - assert (254 < k)%Z; [| lia]. apply lt_IZR. lra.
Qed.





(** * Hue wrap *)

Lemma sector_first (hue : R) :
  hue < nth 0 corner_hues 0 -> sector corner_hues hue = (2, 1, 0)%nat.
Proof.
  intros H. unfold sector.
  replace (fltb hue (nth 0 corner_hues 0)) with true
    by (symmetry; now apply fltb_true).
  reflexivity.
Qed.

Lemma angle_order (a b : R) : - PI < b - a < PI -> 0 < sin (b - a) -> a < b.
Proof.
  intros Hd Hs.
  destruct (Rlt_dec a b) as [| Hn]; [assumption | exfalso].
  assert (H : 0 <= sin (a - b)) by (apply sin_ge_0; lra).
  replace (a - b) with (- (b - a)) in H by ring.
  rewrite sin_neg in H. lra.
Qed.

(** The sine of the difference of the hues of two colours is, up to a
    positive factor, the cross product of their chromaticities. *)
Lemma hue_sin_diff (r g b r' g' b' : R) :
  0 <= r -> 0 <= g -> 0 <= b -> 0 < r + g + b ->
  0 <= r' -> 0 <= g' -> 0 <= b' -> 0 < r' + g' + b' ->
  chroma_du r g b <> 0 \/ chroma_dv r g b <> 0 ->
  chroma_du r' g' b' <> 0 \/ chroma_dv r' g' b' <> 0 ->
  exists kappa, 0 < kappa /\
    sin (hue_of_rgb r' g' b' - hue_of_rgb r g b)
    = kappa * (chroma_dv r' g' b' * chroma_du r g b
               - chroma_du r' g' b' * chroma_dv r g b).
Proof.
  intros Hr Hg Hb H Hr' Hg' Hb' H' Hc Hc'.
  pose proof (luv_of_rgb_l_pos r g b Hr Hg Hb H) as Hl. simpl in Hl.
  assert (Hnz : 13 * lightness_of (luma r g b) * chroma_du r g b <> 0 \/
                13 * lightness_of (luma r g b) * chroma_dv r g b <> 0).
  { destruct Hc as [Hc | Hc]; [left | right];
      apply Rmult_integral_contrapositive_currified; lra. }
  destruct (cos_sin_hue_of _ _ Hnz) as [Hcos Hsin].
  pose proof (hypotf_pos _ _ Hnz) as Hh.
  fold (hue_of_rgb r g b) in Hcos, Hsin.
  change (hue_of (LUV.u (luv_of_rgb r g b)) (LUV.v (luv_of_rgb r g b)))
    with (hue_of_rgb r g b) in *.
  destruct (hue_cross r' g' b' (cos (hue_of_rgb r g b)) (sin (hue_of_rgb r g b))
              Hr' Hg' Hb' H' Hc') as (kappa & Hk & E).
  rewrite sin_minus, E.
  unfold hue_of_rgb at 1 2. simpl LUV.u. simpl LUV.v. rewrite Hcos, Hsin.
  set (hy := hypotf _ _) in *.
  exists (kappa * (13 * lightness_of (luma r g b) / hy)). split.
  - apply Rmult_lt_0_compat; [assumption |]. apply Rdiv_lt_0_compat; lra.
  - field. lra.
Qed.

(** The six hues of the table are increasing. *)
Lemma corner_hue_order :
  hue_of_rgb 1 0 0 < hue_of_rgb 1 1 0 /\
  hue_of_rgb 1 1 0 < hue_of_rgb 0 1 0 /\
  hue_of_rgb 0 1 0 < hue_of_rgb 0 1 1 /\
  hue_of_rgb 0 1 1 < hue_of_rgb 0 0 1 /\
  hue_of_rgb 0 0 1 < hue_of_rgb 1 0 1.
Proof.
  destruct corner_hue_bounds as (bR & bY & bG & bC & bB & bM).
  destruct corner_chroma_signs as
    ([R1 R2] & [Y1 Y2] & [G1 G2] & [C1 C2] & [B1 B2] & [M1 M2]).
  pose proof PI_RGT_0 as Hpi.
  repeat split; try lra.
  - apply angle_order; [lra |].
    destruct (hue_sin_diff 1 0 0 1 1 0) as (kappa & Hk & E); try lra.
    rewrite E. apply Rmult_lt_0_compat; [assumption |].
    clear E; unfold chroma_du, chroma_dv, rgb_to_xyz.
    rewrite d65_u_prime_val, d65_v_prime_val. lra.
  - apply angle_order; [lra |].
    destruct (hue_sin_diff 0 1 1 0 0 1) as (kappa & Hk & E); try lra.
    rewrite E. apply Rmult_lt_0_compat; [assumption |].
    clear E; unfold chroma_du, chroma_dv, rgb_to_xyz.
    rewrite d65_u_prime_val, d65_v_prime_val. lra.
Qed.

Lemma sector_last (hue : R) :
  nth 5 corner_hues 0 <= hue -> sector corner_hues hue = (2, 1, 0)%nat.
Proof.
  intros H. simpl in H.
  destruct corner_hue_order as (o1 & o2 & o3 & o4 & o5).
  unfold sector, corner_hues. simpl nth.
  repeat match goal with
         | |- context [fltb ?a ?b] =>
             replace (fltb a b) with false by (symmetry; apply fltb_false; lra)
         end.
  reflexivity.
Qed.

Lemma sector_at_pi : sector corner_hues PI = (2, 0, 1)%nat.
Proof.
  destruct corner_hue_bounds as (bR & bY & bG & bC & bB & bM).
  pose proof PI_RGT_0 as Hpi.
  unfold sector, corner_hues. simpl nth.
  replace (fltb PI (hue_of_rgb 1 0 0)) with false
    by (symmetry; apply fltb_false; lra).
  replace (fltb PI (hue_of_rgb 1 1 0)) with false
    by (symmetry; apply fltb_false; lra).
  replace (fltb PI (hue_of_rgb 0 1 0)) with false
    by (symmetry; apply fltb_false; lra).
  replace (fltb PI (hue_of_rgb 0 1 1)) with true
    by (symmetry; apply fltb_true; lra).
  reflexivity.
Qed.

Lemma solver_ext (hue hue' : R) :
  sin hue' = sin hue -> cos hue' = cos hue ->
  sector corner_hues hue' = sector corner_hues hue ->
  most_saturated_in_srgb hue' = most_saturated_in_srgb hue.
Proof.
  intros Hs Hc Hsec.
  unfold most_saturated_in_srgb, boundary_srgb.
  rewrite hue_table_some. cbn [bind ret].
  now rewrite Hs, Hc, Hsec.
Qed.

(** At the hue PI the solver is on the edge from green to cyan. *)
Lemma most_saturated_at_pi :
  exists t, 0 <= t <= 1 /\
    most_saturated_in_srgb PI = Some (luv_of_rgb 0 1 t).
Proof.
  assert (Hq : solver_q PI 2 <> 0).
  { rewrite solver_q_unfold by lia. rewrite sin_PI, cos_PI.
    unfold primary_dv, primary_S, at2, M; simpl.
    rewrite d65_v_prime_val. lra. }
  destruct (most_saturated_eval PI 2 0 1 sector_at_pi Hq) as (t & Ht & _ & E).
  exists t. split; [exact Ht | exact E].
Qed.

(** A turn later it is on the edge from red to magenta. *)
Lemma most_saturated_at_3pi :
  exists t, 0 <= t <= 1 /\
    most_saturated_in_srgb (PI + twopi) = Some (luv_of_rgb 1 0 t).
Proof.
  destruct (cos_sin_shift PI) as ([Hc Hs] & _).
  assert (Hsec : sector corner_hues (PI + twopi) = (2, 1, 0)%nat).
  { apply sector_last. simpl.
    destruct corner_hue_bounds as (_ & _ & _ & _ & _ & bM).
    pose proof PI_RGT_0. unfold twopi. lra. }
  assert (Hq : solver_q (PI + twopi) 2 <> 0).
  { rewrite solver_q_unfold by lia. unfold twopi.
    rewrite Hs, Hc, sin_PI, cos_PI.
    unfold primary_dv, primary_S, at2, M; simpl.
    rewrite d65_v_prime_val. lra. }
  destruct (most_saturated_eval _ 2 1 0 Hsec Hq) as (t & Ht & _ & E).
  exists t. split; [exact Ht | exact E].
Qed.

(** C2, as stated, fails: at the hue PI the solver returns a colour between
    green and cyan, of lightness above 87, and at PI + 2 PI a colour between
    red and magenta, of lightness below 61. *)
Lemma hue_wrap_counterexample :
  most_saturated_in_srgb PI <> most_saturated_in_srgb (PI + twopi).
Proof.
  destruct most_saturated_at_pi as (t & Ht & E).
  destruct most_saturated_at_3pi as (t' & Ht' & E').
  rewrite E, E'. intros H. injection H as Hl _ _.
  assert (H1 : 87 < lightness_of (luma 0 1 t)).
  { apply Rlt_trans with (116 * 0.89 - 16); [lra |].
    apply lightness_of_gt; [lra |]. unfold luma. lra. }
  assert (H2 : lightness_of (luma 1 0 t') < 61).
  { apply Rlt_trans with (116 * 0.66 - 16); [| lra].
    apply lightness_of_lt; [lra | |]; unfold luma; lra. }
  lra.
Qed.

(** * The bright point and the saturation bound *)

Lemma get_bright_point_some : get_bright_point = Some (luv_of_rgb 1 1 0).
Proof. apply (rgb_to_luv_some 1 1 0); lra. Qed.

Lemma Rmax_floor (l : R) : 1e-8 <= l -> Rmax l 1e-8 = l.
Proof. intros H. unfold Rmax. destruct (Rle_dec l 1e-8); lra. Qed.

Lemma luv_saturation_total (l u v : R) :
  luv_saturation l u v = Some (hypotf u v / Rmax l 1e-8).
Proof. unfold luv_saturation. apply lch_saturation_total. Qed.

Lemma bright_point_lch_some :
  bright_point_lch =
    Some (luv_of_rgb 1 1 0, hue_of_rgb 1 1 0,
          hypotf (LUV.u (luv_of_rgb 1 1 0)) (LUV.v (luv_of_rgb 1 1 0))
          / Rmax (LUV.l (luv_of_rgb 1 1 0)) 1e-8).
Proof.
  unfold bright_point_lch. rewrite get_bright_point_some. cbn [bind ret].
  unfold luv_to_lch. rewrite lch_saturation_total. reflexivity.
Qed.

Lemma hypotf_zero : hypotf 0 0 = 0.
Proof. unfold hypotf. replace (0 * 0 + 0 * 0) with 0 by ring. apply sqrt_0. Qed.

Lemma lightness_of_mono (y y' : R) :
  0 < y -> y <= y' -> lightness_of y <= lightness_of y'.
Proof.
  intros Hy Hle.
  destruct (Rle_dec (y' / 100) (216 / 24389)) as [H' | H'].
  - rewrite !lightness_of_low by lra. lra.
  - assert (H2 : 216 / 24389 < y' / 100) by lra.
    rewrite (lightness_of_high y') by assumption.
    assert (Hc : 6 / 29 < cbrtf (y' / 100)) by (apply cbrtf_gt; lra).
    destruct (Rle_dec (y / 100) (216 / 24389)) as [H | H].
    + rewrite lightness_of_low by assumption. lra.
    + rewrite lightness_of_high by lra.
      destruct (Req_dec_T y y') as [-> | Hne]; [lra |].
      assert (cbrtf (y / 100) < cbrtf (y' / 100))
        by (apply cbrtf_increasing; lra).
      lra.
Qed.

(** Points on the six edges that the solver uses. *)
Lemma edge_cases (i j k : nat) (t : R) (P : R -> R -> R -> Prop) :
  In (i, j, k) sector_indices ->
  P 1 0 t -> P 1 t 0 -> P t 1 0 -> P 0 1 t -> P 0 t 1 -> P t 0 1 ->
  let e := edge_triple i j k t in P (nth 0 e 0) (nth 1 e 0) (nth 2 e 0).
Proof.
  intros Hin H1 H2 H3 H4 H5 H6.
  unfold sector_indices in Hin. simpl in Hin.
  destruct Hin as [E | [E | [E | [E | [E | [E | []]]]]]];
    inversion E; subst i j k; unfold edge_triple; simpl; assumption.
Qed.

Lemma edge_luv_bounds (i j k : nat) (t : R) :
  In (i, j, k) sector_indices -> 0 <= t <= 1 ->
  let e := edge_triple i j k t in
  let c := luv_of_rgb (nth 0 e 0) (nth 1 e 0) (nth 2 e 0) in
  32 < LUV.l c <= LUV.l (luv_of_rgb 1 1 0) /\ LUV.l c < 98.
Proof.
  intros Hin Ht.
  apply (edge_cases i j k t
           (fun r g b => 32 < LUV.l (luv_of_rgb r g b)
                              <= LUV.l (luv_of_rgb 1 1 0)
                         /\ LUV.l (luv_of_rgb r g b) < 98) Hin);
    simpl; unfold luma.
  all: split; [split |].
  all: try (apply Rlt_trans with (116 * 0.414 - 16); [lra |];
            apply lightness_of_gt; lra).
  all: try (apply lightness_of_mono; lra).
  all: apply Rle_lt_trans with (lightness_of 92.78);
    [apply lightness_of_mono; lra |];
    apply Rlt_trans with (116 * 0.98 - 16); [| lra];
    apply lightness_of_lt; lra.
Qed.

(** The solver's result, when there is one, is the colour of an edge
    point. *)
Lemma most_saturated_inv (hue : R) (c : LUVColor) :
  most_saturated_in_srgb hue = Some c ->
  exists i j k t,
    In (i, j, k) sector_indices /\ 0 <= t <= 1 /\
    let e := edge_triple i j k t in
    c = luv_of_rgb (nth 0 e 0) (nth 1 e 0) (nth 2 e 0).
Proof.
  intros H.
  destruct (sector corner_hues hue) as [[i j] k] eqn:Hs.
  destruct (Req_dec_T (solver_q hue i) 0) as [Hz | Hnz].
  - exfalso. unfold most_saturated_in_srgb, boundary_srgb in H.
    rewrite hue_table_some in H. cbn [bind ret] in H. rewrite Hs in H.
    fold (solver_q hue k) in H. fold (solver_q hue i) in H.
    rewrite Hz, fdiv_zero in H. discriminate.
  - destruct (most_saturated_eval hue i j k Hs Hnz) as (t & Ht & _ & E).
    exists i, j, k, t. split; [rewrite <- Hs; apply sector_In |].
    split; [exact Ht |]. simpl in E. rewrite E in H. now inversion H.
Qed.

(** The saturation bound, written out, whenever the solver returns. *)
Lemma Smax_eval (l h : R) (pmid : LUVColor) :
  most_saturated_in_srgb h = Some pmid ->
  let pendl := if fltb (LUV.l pmid) l then 100 else 0 in
  Smax l h =
    Some ((pendl - l) / (pendl - LUV.l pmid)
          * (hypotf (LUV.u pmid) (LUV.v pmid) / LUV.l pmid)).
Proof.
  intros Hm pendl.
  destruct (most_saturated_inv h pmid Hm) as (i & j & k & t & Hin & Ht & E).
  pose proof (edge_luv_bounds i j k t Hin Ht) as [[Hlo _] Hhi].
  simpl in E. rewrite <- E in Hlo, Hhi.
  unfold Smax. rewrite Hm. cbn [bind ret].
  rewrite !luv_saturation_total.
  destruct (fltb (LUV.l pmid) l) eqn:Ef; simpl;
    rewrite fdiv_some by lra; cbn [bind ret];
    rewrite hypotf_zero, Rmax_floor by lra;
    unfold pendl, ret; apply f_equal; unfold Rdiv; ring.
Qed.

Lemma Smax_total (l h : R) :
  hue_of_rgb 1 0 1 - 2 * PI <= h < hue_of_rgb 1 0 0 + 2 * PI ->
  exists sm, Smax l h = Some sm.
Proof.
  intros Hh.
  destruct (most_saturated_total h Hh) as (i & j & k & t & _ & _ & E).
  simpl in E. eexists. apply (Smax_eval l h _ E).
Qed.

(** * The qualitative generator *)

Lemma twopi_pos : 0 < twopi.
Proof. unfold twopi. pose proof PI_RGT_0. lra. Qed.

Lemma fmodf_twopi (x : R) :
  fmodf x twopi = Some (x - IZR (truncZ (x / twopi)) * twopi).
Proof.
  unfold fmodf. pose proof twopi_pos.
  destruct (Req_dec_T twopi 0); [lra | reflexivity].
Qed.

Lemma fmodf_twopi_range (x : R) :
  0 <= x -> 0 <= x - IZR (truncZ (x / twopi)) * twopi < twopi.
Proof.
  intros Hx. pose proof twopi_pos as Hp.
  assert (Hq : 0 <= x / twopi).
  { apply Rmult_le_pos; [lra |]. apply Rlt_le, Rinv_0_lt_compat, Hp. }
  rewrite truncZ_nonneg by assumption.
  destruct (floorZ_bounds (x / twopi)) as [H1 H2].
  set (k := IZR (floorZ (x / twopi))) in *.
  assert (E : x = x / twopi * twopi) by (field; lra).
  split.
  - assert (k * twopi <= x / twopi * twopi)
      by (apply Rmult_le_compat_r; lra).
    lra.
  - assert (x / twopi * twopi < (k + 1) * twopi)
      by (apply Rmult_lt_compat_r; lra).
    lra.
Qed.

Lemma Qualitative_yellow_some :
  Qualitative.yellow = Some (LUV.l (luv_of_rgb 1 1 0), hue_of_rgb 1 1 0).
Proof.
  unfold Qualitative.yellow, rgb_to_xyz.
  rewrite xyz_to_luv_some by lra. reflexivity.
Qed.

Lemma Qualitative_red_saturation_some :
  Qualitative.red_saturation =
    luv_saturation (LUV.l (luv_of_rgb 1 0 0)) (LUV.u (luv_of_rgb 1 0 0))
      (LUV.v (luv_of_rgb 1 0 0)).
Proof.
  unfold Qualitative.red_saturation, rgb_to_xyz.
  rewrite xyz_to_luv_some by lra. reflexivity.
Qed.

Lemma Qualitative_lightness_hue_some (n : Z)
    (hue divergence contrast brightness yl yh : R) (i : Z) :
  (2 <= n)%Z ->
  exists cl ch,
    Qualitative.lightness_hue n hue divergence contrast brightness yl yh i
      = Some (cl, ch) /\
    (0 <= hue -> 0 <= divergence -> (0 <= i)%Z -> 0 <= ch < twopi).
Proof.
  intros Hn. unfold Qualitative.lightness_hue.
  rewrite Helix_fract by assumption. cbn [bind ret].
  rewrite fmodf_twopi. cbn [bind ret].
  eexists _, _. split; [reflexivity |].
  intros Hh Hd Hi. apply fmodf_twopi_range.
  pose proof twopi_pos as Hp.
  apply IZR_le in Hn, Hi.
  assert (0 <= IZR i / (IZR n - 1)).
  { apply Rmult_le_pos; [lra |]. apply Rlt_le, Rinv_0_lt_compat. lra. }
  assert (0 <= hue / twopi).
  { apply Rmult_le_pos; [lra |]. apply Rlt_le, Rinv_0_lt_compat, Hp. }
  assert (0 <= divergence / twopi).
  { apply Rmult_le_pos; [lra |]. apply Rlt_le, Rinv_0_lt_compat, Hp. }
  apply Rmult_le_pos; [lra |].
  apply Rplus_le_le_0_compat; [assumption |].
  now apply Rmult_le_pos.
Qed.

(** C5.  For [n >= 2] and an index [i] in [0, n): with [rs] the saturation
    of pure red that the generator precomputes, and [cl], [ch] the lightness
    and hue of entry [i], the colour of entry [i] has lightness [cl], hue
    [ch] and chroma [cl * min (Smax cl ch) (saturation * rs)]; for a hue and
    a divergence that are not negative the bound [Smax cl ch] is defined. *)
Theorem Qualitative_saturation_cap (n : Z)
    (hue divergence contrast saturation brightness : R) (i : Z) :
  (2 <= n)%Z -> (0 <= i < n)%Z ->
  exists yl yh rs cl ch,
    Qualitative.yellow = Some (yl, yh) /\
    Qualitative.red_saturation = Some rs /\
    luv_saturation (LUV.l (luv_of_rgb 1 0 0)) (LUV.u (luv_of_rgb 1 0 0))
      (LUV.v (luv_of_rgb 1 0 0)) = Some rs /\
    Qualitative.lightness_hue n hue divergence contrast brightness yl yh i
      = Some (cl, ch) /\
    Qualitative.color n hue divergence contrast saturation brightness
      yl yh rs i
    = (sm <- Smax cl ch ;;
       let cs := Rmin sm (saturation * rs) in
       ret (LUV.mk cl (cl * cs * cos ch) (cl * cs * sin ch))) /\
    (0 <= hue -> 0 <= divergence -> exists sm, Smax cl ch = Some sm).
Proof.
  intros Hn [Hi Hin].
  destruct (Qualitative_lightness_hue_some n hue divergence contrast brightness
              (LUV.l (luv_of_rgb 1 1 0)) (hue_of_rgb 1 1 0) i Hn)
    as (cl & ch & Hlh & Hrange).
  eexists _, _, _, cl, ch.
  split; [apply Qualitative_yellow_some |].
  split; [rewrite Qualitative_red_saturation_some; apply luv_saturation_total |].
  split; [apply luv_saturation_total |].
  split; [exact Hlh |]. split.
  - unfold Qualitative.color. rewrite Hlh. cbn [bind ret].
    destruct (Smax cl ch) as [sm |]; [| reflexivity].
    cbn [bind ret]. unfold lch_to_luv, lch_chroma. rewrite fmin_Rmin.
    unfold ret. do 2 f_equal; ring.
  - intros Hh Hd. apply Smax_total.
    destruct (Hrange Hh Hd Hi) as [H1 H2]. unfold twopi in H2.
    apply hue_domain. lra.
Qed.

Lemma Qualitative_saturation_cap_witness :
  exists yl yh rs cl ch,
    Qualitative.yellow = Some (yl, yh) /\
    Qualitative.red_saturation = Some rs /\
    luv_saturation (LUV.l (luv_of_rgb 1 0 0)) (LUV.u (luv_of_rgb 1 0 0))
      (LUV.v (luv_of_rgb 1 0 0)) = Some rs /\
    Qualitative.lightness_hue 2 0 1 1 1 yl yh 1 = Some (cl, ch) /\
    Qualitative.color 2 0 1 1 1 1 yl yh rs 1
    = (sm <- Smax cl ch ;;
       let cs := Rmin sm (1 * rs) in
       ret (LUV.mk cl (cl * cs * cos ch) (cl * cs * sin ch))) /\
    (0 <= 0 -> 0 <= 1 -> exists sm, Smax cl ch = Some sm).
Proof. apply (Qualitative_saturation_cap 2 0 1 1 1 1 1); lia. Defined.

(** * The perspective divide at its call sites *)

Lemma fdiv_none_iff (x y : R) : fdiv x y = None <-> y = 0.
Proof.
  unfold fdiv. destruct (Req_dec_T y 0); split; intros H;
    (reflexivity || discriminate || contradiction || assumption).
Qed.

(** What [most_saturated_in_srgb] passes on to [srgb_to_rgb], and from
    there to [xyz_to_luv]: a triple of [0, 1] with a channel equal to 1. *)
Lemma boundary_srgb_channels (hue : R) (srgb : list R) :
  boundary_srgb hue = Some srgb ->
  exists r g b,
    srgb_to_rgb (nth 0 srgb 0) (nth 1 srgb 0) (nth 2 srgb 0) = Some (r, g, b) /\
    0 <= r /\ 0 <= g /\ 0 <= b /\ (r = 1 \/ g = 1 \/ b = 1).
Proof.
  intros H. unfold boundary_srgb in H.
  rewrite hue_table_some in H. cbn [bind ret] in H.
  pose proof (sector_In corner_hues hue) as Hin.
  destruct (sector corner_hues hue) as [[i j] k].
  cbv zeta in H.
  destruct (fdiv _ _) as [q |]; [| discriminate]. cbn [bind] in H.
  rewrite clamp_clamp01 in H.
  destruct (rgb_to_srgb_helper_range _ (clamp01_range q)) as (s & Hs & Hr).
  rewrite Hs in H. cbn [bind ret] in H. injection H as <-.
  destruct (srgb_to_rgb_helper_range s Hr) as (t & Ht & Htr).
  unfold sector_indices in Hin. simpl in Hin.
  destruct Hin as [E | [E | [E | [E | [E | [E | []]]]]]];
    inversion E; subst i j k; simpl;
    unfold srgb_to_rgb;
    rewrite ?srgb_to_rgb_helper_0, ?srgb_to_rgb_helper_1, ?Ht;
    cbn [bind ret]; eexists _, _, _; (split; [reflexivity |]);
    repeat split; try lra; auto.
Qed.

(** C6, amended.  [u_prime], [v_prime] and [xyz_to_luv] divide by
    [x + 15 y + 3 z] without a guard: each is defined exactly when that
    denominator is not 0.  No call of the program passes black: the two
    static initialisers pass the white point; every other call passes the
    XYZ of a linear RGB colour with a channel equal to 1, whose denominator
    is positive, namely the six corners of the table [h[]], yellow for the
    bright point and for [yl, yh], red for [rs], and in the solver the edge
    point with [srgb[k] = 1].  So [xyz_to_luv] is defined at every call
    site, and the solver returns whenever its own division by [q1] does. *)
Theorem perspective_divide_domain :
  (forall x y z,
     (u_prime x y z = None <-> x + 15 * y + 3 * z = 0) /\
     (v_prime x y z = None <-> x + 15 * y + 3 * z = 0) /\
     (xyz_to_luv x y z = None <-> x + 15 * y + 3 * z = 0)) /\
  (u_prime d65_x d65_y d65_z = Some d65_u_prime /\
   v_prime d65_x d65_y d65_z = Some d65_v_prime) /\
  (forall r g b,
     0 <= r -> 0 <= g -> 0 <= b -> r = 1 \/ g = 1 \/ b = 1 ->
     let '(x, y, z) := rgb_to_xyz r g b in
     0 < x + 15 * y + 3 * z /\ exists luv, xyz_to_luv x y z = Some luv) /\
  (exists h, hue_table = Some h) /\
  (exists pb, get_bright_point = Some pb) /\
  (exists yellow, Qualitative.yellow = Some yellow) /\
  (exists rs, Qualitative.red_saturation = Some rs) /\
  (forall hue srgb,
     boundary_srgb hue = Some srgb ->
     exists r g b,
       srgb_to_rgb (nth 0 srgb 0) (nth 1 srgb 0) (nth 2 srgb 0)
         = Some (r, g, b) /\
       0 <= r /\ 0 <= g /\ 0 <= b /\ (r = 1 \/ g = 1 \/ b = 1) /\
       exists c, most_saturated_in_srgb hue = Some c).
Proof.
  split; [| split; [| split; [| split; [| split; [| split; [| split]]]]]].
  - intros x y z. split; [apply fdiv_none_iff |].
    split; [apply fdiv_none_iff |]. split.
    + intros H. destruct (Req_dec_T (x + 15 * y + 3 * z) 0) as [| Hne];
        [assumption |].
      rewrite xyz_to_luv_some in H by assumption. discriminate.
    + intros H. unfold xyz_to_luv, u_prime. rewrite H. now rewrite fdiv_zero.
  - exact d65_prime_init.
  - intros r g b Hr Hg Hb H1.
    assert (Hsum : 0 < r + g + b) by (destruct H1 as [? | [? | ?]]; lra).
    pose proof (rgb_denominator_pos r g b Hr Hg Hb Hsum) as Hd.
    destruct (rgb_to_xyz r g b) as [[x y] z].
    split; [exact Hd |]. rewrite xyz_to_luv_some by lra. eauto.
  - rewrite hue_table_some. eauto.
  - rewrite get_bright_point_some. eauto.
  - rewrite Qualitative_yellow_some. eauto.
  - rewrite Qualitative_red_saturation_some, luv_saturation_total. eauto.
  - intros hue srgb H.
    destruct (boundary_srgb_channels hue srgb H)
      as (r & g & b & E & Hr & Hg & Hb & H1).
    exists r, g, b. split; [exact E |].
    repeat (split; [assumption |]).
    unfold most_saturated_in_srgb. rewrite H. cbn [bind]. rewrite E.
    cbn [bind].
    pose proof (rgb_to_luv_some r g b Hr Hg Hb) as Hl.
    unfold rgb_to_luv in Hl. rewrite Hl; [eauto |].
    destruct H1 as [? | [? | ?]]; lra.
Qed.

(** * The profile at the hue PI, full saturation, no warmth *)

Lemma luv_eq (a b : LUVColor) :
  LUV.l a = LUV.l b -> LUV.u a = LUV.u b -> LUV.v a = LUV.v b -> a = b.
Proof. destruct a, b; simpl; intros; subst; reflexivity. Qed.

Lemma truncZ_half : truncZ (PI / twopi) = 0%Z.
Proof.
  pose proof PI_RGT_0 as Hpi.
  replace (PI / twopi) with (/ 2) by (unfold twopi; field; lra).
  rewrite truncZ_nonneg by lra.
  apply floorZ_unique. lra.
Qed.

Lemma mix_hue_cold (hue pbh : R) :
  0 <= hue < twopi -> mix_hue 0 hue pbh = Some hue.
Proof.
  intros Hh. unfold mix_hue.
  rewrite fmodf_twopi. cbn [bind ret].
  rewrite fmodf_twopi. f_equal.
  rewrite Rmult_0_l, Rplus_0_r.
  pose proof twopi_pos as Hp.
  assert (Hq : 0 <= hue / twopi < 1).
  { split.
    - apply Rmult_le_pos; [lra |]. apply Rlt_le, Rinv_0_lt_compat, Hp.
    - apply Rmult_lt_reg_r with twopi; [exact Hp |].
      replace (hue / twopi * twopi) with hue by (field; lra). lra. }
  rewrite truncZ_nonneg by lra.
  rewrite (floorZ_unique (hue / twopi) 0) by lra.
  lra.
Qed.

(** The control points for the hue PI with saturation 1 and warmth 0: black,
    the solver's colour [p1], white, and [p1] three times. *)
Lemma color_points_at_pi (pb : LUVColor) (pbh pbs : R) :
  exists t, 0 <= t <= 1 /\
    get_color_points PI 1 0 pb pbh pbs =
      Some (mkPoints (LUV.mk 0 0 0) (luv_of_rgb 0 1 t) (LUV.mk 100 0 0)
              (luv_of_rgb 0 1 t) (luv_of_rgb 0 1 t) (luv_of_rgb 0 1 t)).
Proof.
  destruct most_saturated_at_pi as (t & Ht & E).
  exists t. split; [exact Ht |].
  pose proof PI_RGT_0 as Hpi.
  unfold get_color_points, lch_to_luv.
  rewrite E. cbn [bind ret].
  rewrite mix_hue_cold by (unfold twopi; lra). cbn [bind ret].
  rewrite (Smax_eval _ _ _ E). cbn [bind ret].
  unfold ret. f_equal.
  assert (Hz : forall x y : R, lch_chroma ((1 - 0) * 100 + 0 * LUV.l pb)
                 (fmin (((if fltb (LUV.l (luv_of_rgb 0 1 t))
                               ((1 - 0) * 100 + 0 * LUV.l pb)
                          then 100 else 0) - ((1 - 0) * 100 + 0 * LUV.l pb))
                        / x * y) (0 * 1 * pbs)) = 0).
  { intros x y.
    pose proof (edge_luv_bounds 2 0 1 t) as Hb.
    unfold edge_triple in Hb; simpl in Hb.
    destruct Hb as [_ Hb]; [unfold sector_indices; simpl; tauto | exact Ht |].
    change (lightness_of (luma 0 1 t)) with (LUV.l (luv_of_rgb 0 1 t)) in Hb.
    replace (fltb (LUV.l (luv_of_rgb 0 1 t)) ((1 - 0) * 100 + 0 * LUV.l pb))
      with true by (symmetry; apply fltb_true; lra).
    unfold lch_chroma. rewrite fmin_Rmin.
    replace ((100 - ((1 - 0) * 100 + 0 * LUV.l pb)) / x * y) with 0
      by (unfold Rdiv; ring).
    replace (0 * 1 * pbs) with 0 by ring.
    unfold Rmin. destruct (Rle_dec 0 0); ring. }
  rewrite Hz.
  f_equal; apply luv_eq; luv_fields; unfold luv_of_rgb; luv_fields; lra.
Qed.

Lemma fmax_nonneg (x : R) : 0 <= x -> fmax x 0 = x.
Proof.
  intros H. unfold fmax.
  replace (fltb x 0) with false by (symmetry; apply fltb_false; lra).
  reflexivity.
Qed.

Lemma sqrtf_nonneg (x : R) : 0 <= x -> sqrtf x = Some (sqrt x).
Proof. intros H. unfold sqrtf. destruct (Rlt_dec x 0); [lra | reflexivity]. Qed.

(** With the control points (black, p1, p1) a lightness [l] up to that of
    [p1] is reached on the first curve, at the colour [(l / m) p1]. *)
Lemma entry_below (p1 p2 : LUVColor) (t contrast brightness l : R) :
  target_lightness t contrast brightness = Some l ->
  0 <= l <= LUV.l p1 -> 0 < LUV.l p1 ->
  get_colormap_entry t (LUV.mk 0 0 0) p2 p1 p1 p1 contrast brightness
    = Some (luv_scale (l / LUV.l p1) p1).
Proof.
  intros Ht Hl Hm. unfold get_colormap_entry. rewrite Ht. cbn [bind ret].
  set (m := LUV.l p1) in *.
  replace (fleb l m) with true by (symmetry; apply fleb_true; lra).
  unfold invB. cbn [LUV.l].
  assert (HD : m * m - 0 * m + (0 - 2 * m + m) * l = m * (m - l)) by ring.
  rewrite HD.
  assert (HD0 : 0 <= m * (m - l)) by (apply Rmult_le_pos; lra).
  rewrite fmax_nonneg, sqrtf_nonneg by assumption. cbn [bind ret].
  rewrite fdiv_some by lra. cbn [bind ret].
  set (r := sqrt (m * (m - l))).
  assert (Hr : r * r = m * (m - l)) by (apply sqrt_sqrt; assumption).
  assert (Hr0 : 0 <= r) by apply sqrt_pos.
  set (s := (0 - m + r) / (0 - 2 * m + m)).
  assert (Hs : 1 - s = r / m) by (unfold s; field; lra).
  assert (Hs1 : s <= 1).
  { assert (0 <= r / m); [| lra].
    apply Rmult_le_pos; [assumption |]. apply Rlt_le, Rinv_0_lt_compat, Hm. }
  replace (fleb (0.5 * s) 0.5) with true by (symmetry; apply fleb_true; lra).
  unfold ret. f_equal.
  assert (Hk : 1 - (1 - s) * (1 - s) = l / m).
  { rewrite Hs. replace (r / m * (r / m)) with (r * r / (m * m)) by (field; lra).
    rewrite Hr. field. lra. }
  replace (2 * (0.5 * s)) with s by lra.
  unfold B. apply luv_eq; luv_fields; fold m; rewrite <- Hk; ring.
Qed.

(** With the control points (p1, p1, white) the lightness 100 is reached at
    the end of the second curve. *)
Lemma entry_white (p0 p1 : LUVColor) (t contrast brightness : R) :
  target_lightness t contrast brightness = Some 100 ->
  LUV.l p1 < 100 ->
  get_colormap_entry t p0 (LUV.mk 100 0 0) p1 p1 p1 contrast brightness
    = Some (LUV.mk 100 0 0).
Proof.
  intros Ht Hm. unfold get_colormap_entry. rewrite Ht. cbn [bind ret].
  set (m := LUV.l p1) in *.
  replace (fleb 100 m) with false by (symmetry; apply fleb_false; lra).
  unfold invB. cbn [LUV.l].
  assert (HD : m * m - m * 100 + (m - 2 * m + 100) * 100
               = (100 - m) * (100 - m)) by ring.
  rewrite HD.
  assert (HD0 : 0 <= (100 - m) * (100 - m)) by (apply Rmult_le_pos; lra).
  rewrite fmax_nonneg, sqrtf_nonneg by assumption. cbn [bind ret].
  rewrite sqrt_square by lra.
  rewrite fdiv_some by lra. cbn [bind ret].
  replace ((m - m + (100 - m)) / (m - 2 * m + 100)) with 1 by (field; lra).
  replace (fleb (0.5 * 1 + 0.5) 0.5) with false
    by (symmetry; apply fleb_false; lra).
  unfold ret. f_equal.
  unfold B. apply luv_eq; luv_fields; fold m; lra.
Qed.

Lemma target_lightness_dark (brightness : R) :
  target_lightness 0 1 brightness = Some 0.
Proof.
  unfold target_lightness. rewrite powf_pos by lra. cbn [bind ret].
  replace ((1 - 1) * brightness + 0 * 1) with 0 by ring.
  rewrite Rpower_O by lra. unfold ret. f_equal. ring.
Qed.

Lemma target_lightness_bright (contrast : R) :
  target_lightness 1 contrast 1 = Some 100.
Proof.
  unfold target_lightness. rewrite powf_pos by lra. cbn [bind ret].
  replace ((1 - contrast) * 1 + 1 * contrast) with 1 by ring.
  rewrite Rpower_1 by lra. unfold ret. f_equal. lra.
Qed.

Lemma target_lightness_flat (t : R) :
  target_lightness t 0 (1 / 2) = Some (125 - 125 * sqrt 0.2).
Proof.
  unfold target_lightness. rewrite powf_pos by lra. cbn [bind ret].
  replace ((1 - 0) * (1 / 2) + t * 0) with (/ 2) by lra.
  rewrite Rpower_sqrt by lra. reflexivity.
Qed.

Lemma sqrt_fifth_bounds : 0.44 < sqrt 0.2 < 0.45.
Proof.
  split.
  - replace 0.44 with (sqrt (0.44 * 0.44)) by (apply sqrt_square; lra).
    apply sqrt_lt_1; lra.
  - replace 0.45 with (sqrt (0.45 * 0.45)) by (apply sqrt_square; lra).
    apply sqrt_lt_1; lra.
Qed.

(** * Two entries *)

(** With [n = 2] the division by [n - 1] is a division by 1. *)
Lemma two_entries_parameter (i : Z) : fdiv (IZR i) (IZR 2 - 1) = Some (IZR i).
Proof. rewrite fdiv_some by lra. f_equal. lra. Qed.

(** Two turns of a generator's loop. *)
Lemma two_entries_loop (color : Z -> option LUVColor) :
  for_loop (write_entry color) 0%Z (Z.to_nat 2) [] =
  (c0 <- color 0%Z ;; b0 <- convert_colormap_entry c0 ;;
   c1 <- color 1%Z ;; b1 <- convert_colormap_entry c1 ;;
   ret [b0; b1]).
Proof.
  change (Z.to_nat 2) with 2%nat. simpl. unfold write_entry.
  destruct (color 0%Z) as [c0 |]; [| reflexivity]. cbn [bind ret].
  destruct (convert_colormap_entry c0) as [b0 |]; [| reflexivity].
  cbn [bind ret].
  destruct (color 1%Z) as [c1 |]; [| reflexivity]. cbn [bind ret].
  destruct (convert_colormap_entry c1) as [b1 |]; reflexivity.
Qed.

(** The samples of the two entries: [t = 1] and [t = 0] for the sequential
    map, [t = 0] and [t = 1] (both folded to the start of a half) for the
    diverging one. *)
Lemma Sequential_two_samples (cp : ColorPoints) (contrast brightness : R) :
  Sequential.color 2 cp contrast brightness 0
    = get_colormap_entry 1 (p0 cp) (p2 cp) (q0 cp) (q1 cp) (q2 cp)
        contrast brightness /\
  Sequential.color 2 cp contrast brightness 1
    = get_colormap_entry 0 (p0 cp) (p2 cp) (q0 cp) (q1 cp) (q2 cp)
        contrast brightness.
Proof.
  unfold Sequential.color.
  change (2 - 1 - 0)%Z with 1%Z. change (2 - 1 - 1)%Z with 0%Z.
  rewrite !two_entries_parameter. split; reflexivity.
Qed.

Lemma Diverging_two_samples (cp0 cp1 : ColorPoints)
    (contrast brightness warmth pbh : R) :
  Diverging.color 2 cp0 cp1 contrast brightness warmth pbh 0
    = get_colormap_entry (2 * 0) (p0 cp0) (p2 cp0) (q0 cp0) (q1 cp0) (q2 cp0)
        contrast brightness /\
  Diverging.color 2 cp0 cp1 contrast brightness warmth pbh 1
    = get_colormap_entry (2 * (1 - 1)) (p0 cp1) (p2 cp1) (q0 cp1) (q1 cp1)
        (q2 cp1) contrast brightness.
Proof.
  unfold Diverging.color.
  change (Z.rem 2 2 =? 1)%Z with false. cbn [andb].
  rewrite !two_entries_parameter. cbn [bind ret].
  change (0 <? Z.quot 2 2)%Z with true. change (1 <? Z.quot 2 2)%Z with false.
  split; reflexivity.
Qed.

(** A colour of lightness 0 cannot be converted: [luv_to_xyz] divides by
    [13 * l]. *)
Lemma convert_dark (c : LUVColor) :
  LUV.l c = 0 -> convert_colormap_entry c = None.
Proof.
  intros H. unfold convert_colormap_entry, luv_to_xyz. rewrite H.
  replace (13 * 0) with 0 by ring. now rewrite fdiv_zero.
Qed.

(** After [luv_to_xyz] nothing in the conversion to bytes can fault. *)
Lemma convert_after_xyz (c : LUVColor) (x y z : R) :
  luv_to_xyz (LUV.l c) (LUV.u c) (LUV.v c) = Some (x, y, z) ->
  exists bytes, convert_colormap_entry c = Some bytes.
Proof.
  intros H. unfold convert_colormap_entry. rewrite H. cbn [bind ret].
  unfold xyz_to_rgb. rewrite !clamp_clamp01.
  set (r := clamp01 _). set (g := clamp01 _). set (b := clamp01 _).
  destruct (rgb_to_srgb_helper_range r (clamp01_range _)) as (sr & Hr & Hsr).
  destruct (rgb_to_srgb_helper_range g (clamp01_range _)) as (sg & Hg & Hsg).
  destruct (rgb_to_srgb_helper_range b (clamp01_range _)) as (sb & Hb & Hsb).
  destruct (srgb_byte sr Hsr) as (c0 & Hc0 & _).
  destruct (srgb_byte sg Hsg) as (c1 & Hc1 & _).
  destruct (srgb_byte sb Hsb) as (c2 & Hc2 & _).
  unfold rgb_to_srgb. rewrite Hr, Hg, Hb. cbn [bind ret].
  rewrite Hc0, Hc1, Hc2. cbn [bind ret]. eexists; reflexivity.
Qed.

Lemma luv_to_xyz_white :
  luv_to_xyz 100 0 0 = Some (d65_x, d65_y, d65_z).
Proof.
  unfold luv_to_xyz. rewrite !fdiv_some by lra. cbn [bind ret].
  replace (fleb 100 8) with false by (symmetry; apply fleb_false; lra).
  rewrite d65_u_prime_val, d65_v_prime_val.
  rewrite !fdiv_some by lra. cbn [bind ret].
  unfold d65_x, d65_y, d65_z. triple_eq; lra.
Qed.

Lemma Sequential_two_entries_aux :
  exists cp bytes,
    (exists pb pbh pbs,
       bright_point_lch = Some (pb, pbh, pbs) /\
       get_color_points PI 1 0 pb pbh pbs = Some cp) /\
    Sequential.color 2 cp 1 1 0 = Some (LUV.mk 100 0 0) /\
    convert_colormap_entry (LUV.mk 100 0 0) = Some bytes /\
    Sequential.color 2 cp 1 1 1 = Some (LUV.mk 0 0 0) /\
    luv_to_xyz 0 0 0 = None /\
    convert_colormap_entry (LUV.mk 0 0 0) = None /\
    BrewerSequential 2 PI 1 1 1 0 = None.
Proof.
  pose proof bright_point_lch_some as Hb.
  set (pb := luv_of_rgb 1 1 0) in *.
  set (pbh := hue_of_rgb 1 1 0) in *.
  set (pbs := hypotf (LUV.u pb) (LUV.v pb) / Rmax (LUV.l pb) 1e-8) in *.
  destruct (color_points_at_pi pb pbh pbs) as (t & Ht & Hcp).
  set (p1 := luv_of_rgb 0 1 t) in *.
  set (cp := mkPoints (LUV.mk 0 0 0) p1 (LUV.mk 100 0 0) p1 p1 p1) in *.
  pose proof (edge_luv_bounds 2 0 1 t) as Hm.
  unfold edge_triple in Hm; simpl in Hm.
  destruct Hm as [[Hm0 _] Hm1]; [unfold sector_indices; simpl; tauto | exact Ht |].
  change (lightness_of (luma 0 1 t)) with (LUV.l p1) in Hm0, Hm1.
  destruct (convert_after_xyz (LUV.mk 100 0 0) _ _ _ luv_to_xyz_white)
    as (bytes & Hw).
  assert (E0 : Sequential.color 2 cp 1 1 0 = Some (LUV.mk 100 0 0)).
  { unfold Sequential.color. change (2 - 1 - 0)%Z with 1%Z.
    rewrite two_entries_parameter. cbn [bind ret]. unfold cp; simpl.
    apply entry_white; [apply target_lightness_bright | lra]. }
  assert (E1 : Sequential.color 2 cp 1 1 1 = Some (LUV.mk 0 0 0)).
  { unfold Sequential.color. change (2 - 1 - 1)%Z with 0%Z.
    rewrite two_entries_parameter. cbn [bind ret]. unfold cp; simpl.
    rewrite (entry_below p1 _ 0 1 1 0 (target_lightness_dark 1)) by lra.
    f_equal. apply luv_eq; luv_fields; field; lra. }
  assert (Ed : convert_colormap_entry (LUV.mk 0 0 0) = None)
    by (apply convert_dark; reflexivity).
  exists cp, bytes.
  split; [exists pb, pbh, pbs; split; assumption |].
  split; [exact E0 |]. split; [exact Hw |]. split; [exact E1 |].
  split; [| split; [exact Ed |]].
  - unfold luv_to_xyz. replace (13 * 0) with 0 by ring. now rewrite fdiv_zero.
  - unfold BrewerSequential. rewrite Hb. cbn [bind ret]. rewrite Hcp.
    cbn [bind ret]. simpl for_loop. unfold write_entry at 1.
    rewrite E0. cbn [bind ret]. rewrite Hw. cbn [bind ret].
    simpl. unfold write_entry. rewrite E1. cbn [bind ret].
    rewrite Ed. reflexivity.
Qed.

(** C8: the code at [n = 2], hue PI, contrast 1, saturation 1, brightness 1
    and warmth 0.  The control points are defined; the sample at [t = 1] is
    white and is converted; the sample at [t = 0] is black, for which
    [luv_to_xyz] divides 0 by 13 * 0: the generator faults. *)
Theorem Sequential_two_entries_fault :
  exists cp bytes,
    (exists pb pbh pbs,
       bright_point_lch = Some (pb, pbh, pbs) /\
       get_color_points PI 1 0 pb pbh pbs = Some cp) /\
    Sequential.color 2 cp 1 1 0 = Some (LUV.mk 100 0 0) /\
    convert_colormap_entry (LUV.mk 100 0 0) = Some bytes /\
    Sequential.color 2 cp 1 1 1 = Some (LUV.mk 0 0 0) /\
    luv_to_xyz 0 0 0 = None /\
    convert_colormap_entry (LUV.mk 0 0 0) = None /\
    BrewerSequential 2 PI 1 1 1 0 = None.
Proof. exact Sequential_two_entries_aux. Qed.

(** * The diverging generator *)

Lemma ratio_above (a d c : R) : 0 < d -> 0 < a - c * d -> 0 < a / d - c.
Proof.
  intros Hd H. replace (a / d - c) with ((a - c * d) / d) by (field; lra).
  now apply Rdiv_lt_0_compat.
Qed.

Lemma ratio_below (a d c : R) : 0 < d -> a - c * d < 0 -> a / d - c < 0.
Proof.
  intros Hd H. replace (a / d - c) with (- ((c * d - a) / d)) by (field; lra).
  assert (0 < (c * d - a) / d) by (apply Rdiv_lt_0_compat; lra). lra.
Qed.

(** No point of the six edges has the chromaticity of the white point. *)
Lemma edge_chroma_nonzero (i j k : nat) (t : R) :
  In (i, j, k) sector_indices -> 0 <= t <= 1 ->
  let e := edge_triple i j k t in
  chroma_du (nth 0 e 0) (nth 1 e 0) (nth 2 e 0) <> 0 \/
  chroma_dv (nth 0 e 0) (nth 1 e 0) (nth 2 e 0) <> 0.
Proof.
  intros Hin Ht.
  apply (edge_cases i j k t
           (fun r g b => chroma_du r g b <> 0 \/ chroma_dv r g b <> 0) Hin);
    unfold chroma_du, chroma_dv, rgb_to_xyz;
    rewrite d65_u_prime_val, d65_v_prime_val.
  - left. apply Rgt_not_eq, Rlt_gt, ratio_above; lra.
  - right. apply Rgt_not_eq, Rlt_gt, ratio_above; lra.
  - right. apply Rgt_not_eq, Rlt_gt, ratio_above; lra.
  - left. apply Rlt_not_eq, ratio_below; lra.
  - left. apply Rlt_not_eq, ratio_below; lra.
  - right. apply Rlt_not_eq, ratio_below; lra.
Qed.

Lemma edge_hypot_pos (i j k : nat) (t : R) :
  In (i, j, k) sector_indices -> 0 <= t <= 1 ->
  let e := edge_triple i j k t in
  let c := luv_of_rgb (nth 0 e 0) (nth 1 e 0) (nth 2 e 0) in
  0 < hypotf (LUV.u c) (LUV.v c).
Proof.
  intros Hin Ht e c.
  pose proof (edge_luv_bounds i j k t Hin Ht) as [[Hl _] _].
  pose proof (edge_chroma_nonzero i j k t Hin Ht) as Hc.
  fold e in Hl, Hc. simpl in Hl.
  apply hypotf_pos. unfold c. simpl.
  destruct Hc as [Hc | Hc]; [left | right];
    apply Rmult_integral_contrapositive_currified; lra.
Qed.

Lemma odd_rem (n : Z) : (3 <= n)%Z -> Z.odd n = true -> Z.rem n 2 = 1%Z.
Proof.
  intros Hn Ho. rewrite Z.rem_mod_nonneg by lia.
  rewrite Zmod_odd, Ho. reflexivity.
Qed.

Lemma Diverging_middle_entry_aux (n : Z) (cp0 cp1 : ColorPoints)
    (contrast brightness warmth pbh : R) :
  (3 <= n)%Z -> Z.odd n = true ->
  Diverging.color n cp0 cp1 contrast brightness warmth pbh (Z.quot n 2)
  = diverging_neutral_warm n cp0 cp1 contrast brightness warmth pbh.
Proof.
  intros Hn Ho. unfold Diverging.color.
  rewrite (odd_rem n Hn Ho), Z.eqb_refl, Z.eqb_refl. cbn [andb].
  unfold Diverging.neutral, diverging_neutral_warm.
  destruct (get_colormap_entry 1 (p0 cp0) _ _ _ _ _ _) as [c0 |];
    [| reflexivity].
  cbn [bind ret].
  destruct (get_colormap_entry 1 (p0 cp1) _ _ _ _ _ _) as [c1 |];
    [| reflexivity].
  cbn [bind ret].
  destruct (n <=? 9)%Z.
  - rewrite !luv_saturation_total. cbn [bind ret].
    replace (0.5 * (LUV.l c0 + LUV.l c1)) with ((LUV.l c0 + LUV.l c1) / 2)
      by lra.
    destruct (Smax _ pbh) as [sm |]; [| reflexivity].
    cbn [bind ret]. unfold lch_to_luv, lch_chroma. rewrite fmin_Rmin.
    set (a := hypotf (LUV.u c0) (LUV.v c0) / Rmax (LUV.l c0) 1e-8).
    set (b := hypotf (LUV.u c1) (LUV.v c1) / Rmax (LUV.l c1) 1e-8).
    replace (0.5 * (a + b) * warmth) with (warmth * ((a + b) / 2)) by lra.
    unfold ret. f_equal. apply luv_eq; luv_fields; ring.
  - unfold ret. f_equal. apply luv_eq; luv_fields; lra.
Qed.

(** C4, amended.  For an odd [n >= 3] the entry of index [n / 2] is, for
    [n <= 9], the colour with the hue of the bright point, the average of the
    two endpoint lightnesses, and as saturation the warmth times the average
    of the two endpoint saturations, capped by [Smax] at that lightness; for
    [n > 9] it is the average of the two endpoint colours. *)
Theorem Diverging_middle_entry (n : Z) (cp0 cp1 : ColorPoints)
    (contrast brightness warmth pbh : R) :
  (3 <= n)%Z -> Z.odd n = true ->
  Diverging.color n cp0 cp1 contrast brightness warmth pbh (Z.quot n 2)
  = diverging_neutral_warm n cp0 cp1 contrast brightness warmth pbh.
Proof. apply Diverging_middle_entry_aux. Qed.

Lemma Diverging_middle_entry_witness :
  Diverging.color 3
    (mkPoints (LUV.mk 0 0 0) (LUV.mk 50 0 0) (LUV.mk 100 0 0)
       (LUV.mk 50 0 0) (LUV.mk 50 0 0) (LUV.mk 50 0 0))
    (mkPoints (LUV.mk 0 0 0) (LUV.mk 50 0 0) (LUV.mk 100 0 0)
       (LUV.mk 50 0 0) (LUV.mk 50 0 0) (LUV.mk 50 0 0))
    1 1 1 0 (Z.quot 3 2)
  = diverging_neutral_warm 3
      (mkPoints (LUV.mk 0 0 0) (LUV.mk 50 0 0) (LUV.mk 100 0 0)
         (LUV.mk 50 0 0) (LUV.mk 50 0 0) (LUV.mk 50 0 0))
      (mkPoints (LUV.mk 0 0 0) (LUV.mk 50 0 0) (LUV.mk 100 0 0)
         (LUV.mk 50 0 0) (LUV.mk 50 0 0) (LUV.mk 50 0 0))
      1 1 1 0.
Proof. apply Diverging_middle_entry; [lia | reflexivity]. Defined.

Lemma Rmin_zero (x : R) : 0 < x -> Rmin x 0 = 0.
Proof. intros H. unfold Rmin. destruct (Rle_dec x 0); lra. Qed.

Lemma Rmin_pos (x y : R) : 0 < x -> 0 < y -> 0 < Rmin x y.
Proof. intros Hx Hy. unfold Rmin. destruct (Rle_dec x y); lra. Qed.

(** The saturation bound is positive strictly between black and white. *)
Lemma Smax_pos (l h : R) :
  hue_of_rgb 1 0 1 - 2 * PI <= h < hue_of_rgb 1 0 0 + 2 * PI ->
  0 < l < 100 ->
  exists sm, Smax l h = Some sm /\ 0 < sm.
Proof.
  intros Hh Hl.
  destruct (most_saturated_total h Hh) as (i & j & k & t & Hin & Ht & E).
  simpl in E.
  pose proof (edge_luv_bounds i j k t Hin Ht) as [[Hlo _] Hhi].
  pose proof (edge_hypot_pos i j k t Hin Ht) as Hhy.
  cbv zeta in Hlo, Hhi, Hhy.
  set (pmid := luv_of_rgb _ _ _) in *.
  eexists. split; [apply (Smax_eval l h pmid E) |].
  cbv zeta.
  apply Rmult_lt_0_compat; [| apply Rdiv_lt_0_compat; lra].
  destruct (fltb (LUV.l pmid) l).
  - apply Rdiv_lt_0_compat; lra.
  - replace ((0 - l) / (0 - LUV.l pmid)) with (l / LUV.l pmid) by (field; lra).
    apply Rdiv_lt_0_compat; lra.
Qed.

(** C4, as stated, fails: with [n = 3], hue PI, no divergence, contrast 0,
    saturation 1, brightness 1/2 and warmth 0 the code's middle entry has
    chroma 0 (its saturation is the average times the warmth), the stated
    one has not. *)
Lemma diverging_middle_counterexample :
  exists pb pbh pbs cp,
    bright_point_lch = Some (pb, pbh, pbs) /\
    get_color_points PI 1 0 pb pbh pbs = Some cp /\
    Diverging.color 3 cp cp 0 (1 / 2) 0 pbh 1
      <> diverging_neutral_stated 3 cp cp 0 (1 / 2) pbh.
Proof.
  pose proof bright_point_lch_some as Hb.
  set (pb := luv_of_rgb 1 1 0) in *.
  set (pbh := hue_of_rgb 1 1 0) in *.
  set (pbs := hypotf (LUV.u pb) (LUV.v pb) / Rmax (LUV.l pb) 1e-8) in *.
  destruct (color_points_at_pi pb pbh pbs) as (t & Ht & Hcp).
  set (p1 := luv_of_rgb 0 1 t) in *.
  set (cp := mkPoints (LUV.mk 0 0 0) p1 (LUV.mk 100 0 0) p1 p1 p1) in *.
  exists pb, pbh, pbs, cp.
  split; [exact Hb |]. split; [exact Hcp |].
  (* the solver's colour at PI *)
  assert (Hin : In (2, 0, 1)%nat sector_indices)
    by (unfold sector_indices; simpl; tauto).
  assert (Hm : 87 < LUV.l p1).
  { unfold p1. simpl. apply Rlt_trans with (116 * 0.89 - 16); [lra |].
    apply lightness_of_gt; [lra |]. unfold luma. lra. }
  pose proof (edge_hypot_pos 2 0 1 t Hin Ht) as Hhy.
  unfold edge_triple in Hhy; simpl nth in Hhy; cbv zeta in Hhy. fold p1 in Hhy.
  (* the endpoint colour *)
  destruct sqrt_fifth_bounds as [Hs1 Hs2].
  set (l := 125 - 125 * sqrt 0.2).
  assert (Hl : 68 < l < 70) by (unfold l; lra).
  assert (Hc0 : get_colormap_entry 1 (p0 cp) (p2 cp) (q0 cp) (q1 cp) (q2 cp)
                  0 (1 / 2) = Some (luv_scale (l / LUV.l p1) p1)).
  { unfold cp; simpl. apply entry_below; [apply target_lightness_flat | lra | lra]. }
  set (c0 := luv_scale (l / LUV.l p1) p1) in *.
  assert (Hc0l : LUV.l c0 = l) by (unfold c0; luv_fields; field; lra).
  assert (Hsat : 0 < hypotf (LUV.u c0) (LUV.v c0) / Rmax (LUV.l c0) 1e-8).
  { apply Rdiv_lt_0_compat.
    - unfold c0; luv_fields. unfold hypotf.
      replace (l / LUV.l p1 * LUV.u p1 * (l / LUV.l p1 * LUV.u p1)
               + l / LUV.l p1 * LUV.v p1 * (l / LUV.l p1 * LUV.v p1))
        with ((l / LUV.l p1) * (l / LUV.l p1)
              * (LUV.u p1 * LUV.u p1 + LUV.v p1 * LUV.v p1)) by ring.
      apply sqrt_lt_R0.
      assert (0 < l / LUV.l p1) by (apply Rdiv_lt_0_compat; lra).
      apply Rmult_lt_0_compat; [apply Rmult_lt_0_compat; assumption |].
      rewrite <- hypotf_sqr. apply Rmult_lt_0_compat; assumption.
    - rewrite Hc0l, Rmax_floor; lra. }
  set (a := hypotf (LUV.u c0) (LUV.v c0) / Rmax (LUV.l c0) 1e-8) in *.
  (* the bound at the hue of the bright point *)
  assert (Hdom : hue_of_rgb 1 0 1 - 2 * PI <= pbh < hue_of_rgb 1 0 0 + 2 * PI).
  { apply hue_domain. destruct corner_hue_bounds as (_ & bY & _).
    fold pbh in bY. pose proof PI_RGT_0. lra. }
  destruct (Smax_pos ((LUV.l c0 + LUV.l c0) / 2) pbh Hdom) as (sm & Hsm & Hpos);
    [rewrite Hc0l; lra |].
  (* the two middle entries *)
  change 1%Z with (Z.quot 3 2) at 2.
  rewrite Diverging_middle_entry_aux by (try lia; reflexivity).
  unfold diverging_neutral_warm, diverging_neutral_stated.
  rewrite Hc0. cbn [bind ret]. change (3 <=? 9)%Z with true. cbv iota.
  rewrite !luv_saturation_total. cbn [bind ret].
  fold a. rewrite Hsm. cbn [bind ret]. unfold ret.
  replace (0 * ((a + a) / 2)) with 0 by ring.
  replace ((a + a) / 2) with a by lra.
  rewrite (Rmin_zero sm Hpos).
  pose proof (Rmin_pos sm a Hpos Hsat) as Hmin.
  set (cl := (LUV.l c0 + LUV.l c0) / 2) in *.
  assert (Hcl : 0 < cl) by (unfold cl; rewrite Hc0l; lra).
  intros H. injection H as Hu Hv.
  assert (Hk : 0 < cl * Rmin sm a) by (apply Rmult_lt_0_compat; assumption).
  assert (Hcos : cos pbh = 0).
  { apply Rmult_eq_reg_l with (cl * Rmin sm a); [| lra]. rewrite <- Hu. ring. }
  assert (Hsin : sin pbh = 0).
  { apply Rmult_eq_reg_l with (cl * Rmin sm a); [| lra]. rewrite <- Hv. ring. }
  pose proof (sin2_cos2 pbh) as H1. unfold Rsqr in H1.
  rewrite Hcos, Hsin in H1. lra.
Qed.

(** * Lightness along the profile *)

Lemma invB_spec (b0 b1 b2 v s : R) :
  invB b0 b1 b2 v = Some s ->
  let A := b0 - 2 * b1 + b2 in
  let D := b1 * b1 - b0 * b2 + A * v in
  A <> 0 /\
  exists r, 0 <= r /\ r * r = Rmax D 0 /\ s * A = b0 - b1 + r.
Proof.
  intros H A D. unfold invB in H. fold A in H. fold D in H.
  rewrite fmax_Rmax in H.
  assert (H0 : 0 <= Rmax D 0) by apply Rmax_r.
  rewrite sqrtf_nonneg in H by assumption. cbn [bind ret] in H.
  apply fdiv_inv in H. destruct H as [HA Hs].
  split; [exact HA |].
  exists (sqrt (Rmax D 0)).
  split; [apply sqrt_pos |]. split; [now apply sqrt_sqrt |].
  rewrite Hs. field. exact HA.
Qed.

Lemma invB_some (b0 b1 b2 v : R) :
  b0 - 2 * b1 + b2 <> 0 -> exists s, invB b0 b1 b2 v = Some s.
Proof.
  intros HA. unfold invB. rewrite fmax_Rmax.
  rewrite sqrtf_nonneg by apply Rmax_r. cbn [bind ret].
  rewrite fdiv_some by assumption. eexists; reflexivity.
Qed.

Lemma sqr_le (r x : R) : 0 <= r -> 0 <= x -> r * r <= x * x -> r <= x.
Proof. intros Hr Hx H. nra. Qed.

Lemma B_lightness (c0 c1 c2 : LUVColor) (s : R) :
  LUV.l (B c0 c1 c2 s)
  = LUV.l c0 + 2 * (LUV.l c1 - LUV.l c0) * s
    + (LUV.l c0 - 2 * LUV.l c1 + LUV.l c2) * (s * s).
Proof. unfold B. luv_fields. ring. Qed.

Lemma le_of_mult_pos (x y a : R) : 0 < a -> x * a <= y * a -> x <= y.
Proof. intros Ha H. apply Rmult_le_reg_r with a; assumption. Qed.


Lemma le_of_mult_neg (x y a : R) : a < 0 -> y * a <= x * a -> x <= y.
Proof.
  intros Ha H. apply Rmult_le_reg_r with (- a); [lra |].
  rewrite <- !Ropp_mult_distr_r. lra.
Qed.









Lemma target_lightness_some (t contrast brightness : R) :
  target_lightness t contrast brightness
  = Some (125 - 125 * Rpower 0.2 ((1 - contrast) * brightness + t * contrast)).
Proof. unfold target_lightness. rewrite powf_pos by lra. reflexivity. Qed.

Lemma Rpower_fifth_decreasing (e1 e2 : R) :
  e1 <= e2 -> Rpower 0.2 e2 <= Rpower 0.2 e1.
Proof.
  intros H. unfold Rpower.
  assert (Hln : ln 0.2 < 0).
  { rewrite <- ln_1. apply ln_increasing; lra. }
  destruct (Req_dec_T e1 e2) as [-> | Hne]; [lra |].
  apply Rlt_le, exp_increasing.
  assert (0 < (e2 - e1) * (- ln 0.2)) by (apply Rmult_lt_0_compat; lra).
  lra.
Qed.

Lemma target_lightness_mono (t1 t2 contrast brightness l1 l2 : R) :
  0 <= contrast -> t1 <= t2 ->
  target_lightness t1 contrast brightness = Some l1 ->
  target_lightness t2 contrast brightness = Some l2 ->
  l1 <= l2.
Proof.
  intros Hc Ht H1 H2. rewrite target_lightness_some in H1, H2.
  injection H1 as <-. injection H2 as <-.
  assert (Rpower 0.2 ((1 - contrast) * brightness + t2 * contrast)
          <= Rpower 0.2 ((1 - contrast) * brightness + t1 * contrast)).
  { apply Rpower_fifth_decreasing.
    assert (t1 * contrast <= t2 * contrast)
      by (apply Rmult_le_compat_r; assumption).
    lra. }
  lra.
Qed.

(** The lightnesses of the control points are in order. *)
Lemma color_points_order (hue saturation warmth : R) (pb : LUVColor)
    (pbh pbs : R) (cp : ColorPoints) :
  0 <= saturation <= 1 -> 0 <= warmth <= 1 ->
  bright_point_lch = Some (pb, pbh, pbs) ->
  get_color_points hue saturation warmth pb pbh pbs = Some cp ->
  LUV.l (p0 cp) <= LUV.l (q0 cp) <= LUV.l (q1 cp) /\
  LUV.l (q1 cp) <= LUV.l (q2 cp) <= LUV.l (p2 cp).
Proof.
  intros Hs Hw Hb H.
  rewrite bright_point_lch_some in Hb. injection Hb as <- _ _.
  unfold get_color_points in H.
  unfold lch_to_luv in H.
  destruct (most_saturated_in_srgb hue) as [c1 |] eqn:Hm; [| discriminate].
  cbn [bind ret] in H.
  destruct (mix_hue warmth hue pbh) as [p2h |]; [| discriminate].
  cbn [bind ret] in H.
  destruct (Smax _ p2h) as [sm |]; [| discriminate].
  cbn [bind ret] in H. unfold ret in H. injection H as <-.
  destruct (most_saturated_inv hue c1 Hm) as (i & j & k & t & Hin & Ht & E).
  pose proof (edge_luv_bounds i j k t Hin Ht) as [[Hlo Hup] _].
  cbv zeta in E, Hlo, Hup. rewrite <- E in Hlo, Hup.
  assert (Hy : LUV.l (luv_of_rgb 1 1 0) < 98).
  { pose proof (edge_luv_bounds 0 2 1 1) as Hb.
    unfold edge_triple in Hb; simpl in Hb.
    destruct Hb as [_ Hb]; [unfold sector_indices; simpl; tauto | lra |].
    exact Hb. }
  cbn [p0 p2 q0 q1 q2]. luv_fields.
  set (m := LUV.l c1) in *. set (y := LUV.l (luv_of_rgb 1 1 0)) in *.
  assert (Hsm : 0 <= saturation * m) by (apply Rmult_le_pos; lra).
  assert (Hwy : 0 <= warmth * (100 - y)) by (apply Rmult_le_pos; lra).
  assert (Hwy1 : 0 <= (1 - warmth) * (100 - y)) by (apply Rmult_le_pos; lra).
  change (lightness_of (luma 1 1 0)) with y.
  set (P := (1 - warmth) * 100 + warmth * y) in *.
  assert (HP : m <= P) by (unfold P; lra).
  assert (Hp : 0 <= (1 - saturation) * P) by (apply Rmult_le_pos; lra).
  assert (Hq : 0 <= saturation * (P - m)) by (apply Rmult_le_pos; lra).
  repeat split; lra.
Qed.




(** * Further properties of the engine *)

(** ** Round trips of the colour-space conversions *)

(** X1.  For every [u] and [v], [luv_to_lch] followed by [lch_to_luv]
    gives [u] and [v] back; the chroma it returns is not negative and the
    hue is in [0, 2 PI). *)
Theorem luv_lch_roundtrip (u v : R) :
  lch_to_luv (fst (luv_to_lch u v)) (snd (luv_to_lch u v)) = (u, v) /\
  0 <= fst (luv_to_lch u v) /\
  0 <= snd (luv_to_lch u v) < twopi.
Proof.
  change (snd (luv_to_lch u v)) with (hue_of u v).
  change (fst (luv_to_lch u v)) with (hypotf u v).
  split; [| split].
  - unfold lch_to_luv.
    destruct (Req_dec u 0) as [Hu | Hu];
      [destruct (Req_dec v 0) as [Hv | Hv] |].
    + subst. rewrite hypotf_zero. f_equal; ring.
    + destruct (cos_sin_hue_of u v (or_intror Hv)) as [Hc Hs].
      pose proof (hypotf_pos u v (or_intror Hv)).
      rewrite Hc, Hs. f_equal; field; lra.
    + destruct (cos_sin_hue_of u v (or_introl Hu)) as [Hc Hs].
      pose proof (hypotf_pos u v (or_introl Hu)).
      rewrite Hc, Hs. f_equal; field; lra.
  - unfold hypotf. apply sqrt_pos.
  - unfold twopi. apply hue_of_range.
Qed.

(** Two angles less than a turn apart with the same cosine and sine are
    equal. *)
Lemma angle_unique (a b : R) :
  - (2 * PI) < b - a < 2 * PI -> cos b = cos a -> sin b = sin a -> a = b.
Proof.
  intros Hd Hc Hs.
  assert (H1 : cos (b - a) = 1).
  { rewrite cos_minus, Hc, Hs. pose proof (sin2_cos2 a) as H.
    unfold Rsqr in H. lra. }
  assert (H2 : sin ((b - a) / 2) = 0).
  { replace (b - a) with (2 * ((b - a) / 2)) in H1 by lra.
    rewrite cos_2a_sin in H1.
    assert (H : sin ((b - a) / 2) * sin ((b - a) / 2) = 0) by lra.
    apply Rmult_integral in H. tauto. }
  destruct (Rtotal_order ((b - a) / 2) 0) as [Hn | [Hz | Hp]].
  - assert (H : 0 < sin (- ((b - a) / 2))) by (apply sin_gt_0; lra).
    rewrite sin_neg in H. lra.
  - lra.
  - assert (H : 0 < sin ((b - a) / 2)) by (apply sin_gt_0; lra). lra.
Qed.

Lemma hypotf_polar (c h : R) : 0 <= c -> hypotf (c * cos h) (c * sin h) = c.
Proof.
  intros Hc. unfold hypotf.
  replace (c * cos h * (c * cos h) + c * sin h * (c * sin h)) with (c * c).
  - now apply sqrt_square.
  - pose proof (sin2_cos2 h) as H. unfold Rsqr in H. nra.
Qed.

(** The hue of the colour of chroma [c > 0] at the hue [h]. *)
Lemma hue_of_polar (c h : R) :
  0 < c -> 0 <= h < 2 * PI -> hue_of (c * cos h) (c * sin h) = h.
Proof.
  intros Hc Hh.
  assert (Hnz : c * cos h <> 0 \/ c * sin h <> 0).
  { destruct (Req_dec (cos h) 0) as [H0 | H0].
    - right. pose proof (sin2_cos2 h) as H. unfold Rsqr in H.
      rewrite H0 in H. intros E. apply Rmult_integral in E.
      destruct E as [E | E]; [lra |]. rewrite E in H. lra.
    - left. intros E. apply Rmult_integral in E. lra. }
  destruct (cos_sin_hue_of _ _ Hnz) as [Hcos Hsin].
  rewrite hypotf_polar in Hcos, Hsin by lra.
  pose proof (hue_of_range (c * cos h) (c * sin h)) as Hr.
  symmetry. apply angle_unique.
  - lra.
  - rewrite Hcos. field. lra.
  - rewrite Hsin. field. lra.
Qed.

(** X2.  For a chroma [c > 0] and a hue [h] in [0, 2 PI),
    [lch_to_luv] followed by [luv_to_lch] gives [c] and [h] back. *)
Theorem lch_luv_roundtrip (c h : R) :
  0 < c -> 0 <= h < twopi ->
  luv_to_lch (fst (lch_to_luv c h)) (snd (lch_to_luv c h)) = (c, h).
Proof.
  intros Hc Hh. unfold lch_to_luv. cbn [fst snd].
  transitivity (hypotf (c * cos h) (c * sin h), hue_of (c * cos h) (c * sin h)).
  - reflexivity.
  - rewrite hypotf_polar by lra. rewrite hue_of_polar by assumption.
    reflexivity.
Qed.

Lemma lch_luv_roundtrip_witness :
  luv_to_lch (fst (lch_to_luv 1 0)) (snd (lch_to_luv 1 0)) = (1, 0).
Proof.
  apply lch_luv_roundtrip; [lra |].
  unfold twopi. pose proof PI_RGT_0. lra.
Defined.

(** X3.  For an XYZ colour with [y > 0] whose denominator
    [x + 15 y + 3 z] is not zero, [xyz_to_luv] returns a colour of positive
    lightness, and [luv_to_xyz] takes it back to [(x, y, z)]. *)
Theorem xyz_luv_roundtrip (x y z : R) :
  0 < y -> x + 15 * y + 3 * z <> 0 ->
  exists l u v,
    xyz_to_luv x y z = Some (l, u, v) /\ 0 < l /\
    luv_to_xyz l u v = Some (x, y, z).
Proof.
  intros Hy Hd.
  pose proof (lightness_of_pos y Hy) as Hl.
  pose proof (lightness_inverse y Hy) as Hinv.
  rewrite (xyz_to_luv_some x y z Hd).
  eexists _, _, _. split; [reflexivity |]. split; [exact Hl |].
  set (L := lightness_of y) in *.
  unfold luv_to_xyz.
  rewrite !fdiv_some by lra. cbn [bind ret].
  cbv zeta in Hinv. rewrite Hinv.
  replace (13 * L * (4 * x / (x + 15 * y + 3 * z) - d65_u_prime) / (13 * L)
           + d65_u_prime) with (4 * x / (x + 15 * y + 3 * z)) by (field; lra).
  replace (13 * L * (9 * y / (x + 15 * y + 3 * z) - d65_v_prime) / (13 * L)
           + d65_v_prime) with (9 * y / (x + 15 * y + 3 * z)) by (field; lra).
  assert (Hv : 4 * (9 * y / (x + 15 * y + 3 * z)) <> 0).
  { unfold Rdiv. intros E.
    assert (E' : y * / (x + 15 * y + 3 * z) = 0) by lra.
    apply Rmult_integral in E'. destruct E' as [E' | E']; [lra |].
    apply Rinv_neq_0_compat in Hd. contradiction. }
  rewrite !fdiv_some by exact Hv. cbn [bind ret].
  triple_eq; try reflexivity; field; lra.
Qed.

Lemma xyz_luv_roundtrip_witness :
  exists l u v,
    xyz_to_luv 1 1 1 = Some (l, u, v) /\ 0 < l /\
    luv_to_xyz l u v = Some (1, 1, 1).
Proof. apply xyz_luv_roundtrip; lra. Defined.

(** X4.  For a linear channel [x] in [0, 1] that is not in the
    window between 0.0031308 and 0.0031309, [rgb_to_srgb_helper] returns a
    value in [0, 1] that [srgb_to_rgb_helper] takes back to [x]. *)
Theorem srgb_encode_decode (x : R) :
  0 <= x <= 1 -> x <= 0.0031308 \/ 0.0031309 <= x ->
  exists s, rgb_to_srgb_helper x = Some s /\ 0 <= s <= 1 /\
            srgb_to_rgb_helper s = Some x.
Proof.
  intros Hx Hw.
  destruct (srgb_roundtrip x Hx) as (s & t & Hs & Ht & _ & E).
  destruct (rgb_to_srgb_helper_range x Hx) as (s' & Hs' & Hr).
  assert (s' = s) by congruence. subst s'.
  exists s. rewrite <- (E Hw) at 2. auto.
Qed.

Lemma srgb_encode_decode_witness :
  exists s, rgb_to_srgb_helper 1 = Some s /\ 0 <= s <= 1 /\
            srgb_to_rgb_helper s = Some 1.
Proof. apply srgb_encode_decode; lra. Defined.

(** A lower bound of [a ^ (12/5)] from a comparison of integer powers. *)
Lemma Rpower_power_ge (c a : R) :
  0 < c -> 0 < a -> c ^ 5 <= a ^ 12 -> c <= Rpower a 2.4.
Proof.
  intros Hc Ha H.
  assert (Hc5 : 0 < c ^ 5) by now apply pow_lt.
  pose proof (Rle_Rpower_l (c ^ 5) (a ^ 12) (/ 5) ltac:(lra) (conj Hc5 H))
    as Hm.
  rewrite <- !Rpower_pow in Hm by assumption.
  rewrite !Rpower_mult in Hm.
  replace (INR 5 * / 5) with 1 in Hm by (simpl; lra).
  replace (INR 12 * / 5) with 2.4 in Hm by (simpl; lra).
  now rewrite Rpower_1 in Hm.
Qed.

(** X5.  For an sRGB channel [s] in [0, 1] that is not in the
    window [0.040449936 < s <= 0.04045], [srgb_to_rgb_helper] returns a value
    in [0, 1] that [rgb_to_srgb_helper] takes back to [s]. *)
Theorem srgb_decode_encode (s : R) :
  0 <= s <= 1 -> s <= 0.040449936 \/ 0.04045 < s ->
  exists t, srgb_to_rgb_helper s = Some t /\ 0 <= t <= 1 /\
            rgb_to_srgb_helper t = Some s.
Proof.
  intros Hs Hw.
  destruct (srgb_to_rgb_helper_range s Hs) as (t & Ht & Hr).
  exists t. split; [exact Ht |]. split; [exact Hr |].
  unfold srgb_to_rgb_helper in Ht. unfold rgb_to_srgb_helper.
  destruct (fleb s 0.04045) eqn:E.
  - apply fleb_true in E. destruct Hw as [Hw | Hw]; [| lra].
    unfold ret in Ht. injection Ht as Ht. subst t.
    replace (fleb (s / 12.92) 0.0031308) with true
      by (symmetry; apply fleb_true; lra).
    unfold ret. f_equal. lra.
  - apply fleb_false in E. rewrite powf_pos in Ht by lra.
    injection Ht as Ht. subst t.
    set (a := (s + 0.055) / 1.055) in *.
    assert (Ha : 0.09545 / 1.055 <= a) by (unfold a; lra).
    assert (Hc : 0.003130805 <= Rpower a 2.4).
    { apply Rpower_power_ge; [lra | lra |].
      apply Rle_trans with ((0.09545 / 1.055) ^ 12); [lra |].
      apply pow_incr. lra. }
    replace (fleb _ 0.0031308) with false
      by (symmetry; apply fleb_false; lra).
    rewrite powf_pos by apply Rpower_pos. cbn [bind ret].
    rewrite Rpower_mult.
    replace (2.4 * (1 / 2.4)) with 1 by lra.
    rewrite Rpower_1 by lra. unfold ret, a. f_equal. lra.
Qed.

Lemma srgb_decode_encode_witness :
  exists t, srgb_to_rgb_helper 1 = Some t /\ 0 <= t <= 1 /\
            rgb_to_srgb_helper t = Some 1.
Proof. apply srgb_decode_encode; lra. Defined.

(** Clamping to [0, 1] brings a value no further from a point of [0, 1]. *)
Lemma clamp01_close (x' x e : R) :
  0 <= x <= 1 -> Rabs (x' - x) <= e -> Rabs (clamp01 x' - x) <= e.
Proof.
  intros Hx Hd.
  assert (Hd' : - e <= x' - x <= e).
  { unfold Rabs in Hd. destruct (Rcase_abs (x' - x)); lra. }
  apply Rabs_le. unfold clamp01, Rmin, Rmax.
  destruct (Rle_dec x' 0); destruct (Rle_dec _ 1); lra.
Qed.

(** X6.  For a linear RGB colour of the unit cube, [rgb_to_xyz]
    followed by [xyz_to_rgb] returns each channel within 2e-7 of the
    original. *)
Theorem rgb_xyz_roundtrip (r g b : R) :
  0 <= r <= 1 -> 0 <= g <= 1 -> 0 <= b <= 1 ->
  let '(x, y, z) := rgb_to_xyz r g b in
  let '(r', g', b') := xyz_to_rgb x y z in
  Rabs (r' - r) <= 2e-7 /\ Rabs (g' - g) <= 2e-7 /\ Rabs (b' - b) <= 2e-7.
Proof.
  intros Hr Hg Hb.
  pose proof (matrix_roundtrip r g b Hr Hg Hb) as Hm.
  destruct (rgb_to_xyz r g b) as [[x y] z].
  destruct Hm as (r' & g' & b' & Hm & Dr & Dg & Db).
  rewrite Hm.
  repeat split; apply clamp01_close; assumption.
Qed.

Lemma rgb_xyz_roundtrip_witness :
  let '(x, y, z) := rgb_to_xyz 1 0 0 in
  let '(r', g', b') := xyz_to_rgb x y z in
  Rabs (r' - 1) <= 2e-7 /\ Rabs (g' - 0) <= 2e-7 /\ Rabs (b' - 0) <= 2e-7.
Proof. apply (rgb_xyz_roundtrip 1 0 0); lra. Defined.

(** X7.  The static table [h[]] of the solver is defined and
    its six hues (red, yellow, green, cyan, blue, magenta) are strictly
    increasing, between 0 and 2 PI. *)
Theorem hue_table_increasing :
  exists h0 h1 h2 h3 h4 h5,
    hue_table = Some [h0; h1; h2; h3; h4; h5] /\
    0 < h0 /\ h0 < h1 /\ h1 < h2 /\ h2 < h3 /\ h3 < h4 /\ h4 < h5 /\
    h5 < twopi.
Proof.
  destruct corner_hue_bounds as (bR & _ & _ & _ & _ & bM).
  destruct corner_hue_order as (o1 & o2 & o3 & o4 & o5).
  eexists _, _, _, _, _, _. split; [apply hue_table_some |].
  unfold twopi. repeat split; lra.
Qed.

(** ** The hue of the solver's colour *)

(** The chromaticity of a colour, seen from the direction of a hue [h]: its
    component across and its component along that direction are the sine
    and the cosine of the difference of the hues, up to the same positive
    factor. *)
Lemma chroma_polar (r g b h : R) :
  0 <= r -> 0 <= g -> 0 <= b -> 0 < r + g + b ->
  chroma_du r g b <> 0 \/ chroma_dv r g b <> 0 ->
  exists kappa, 0 < kappa /\
    sin h * chroma_du r g b - cos h * chroma_dv r g b
      = kappa * sin (h - hue_of_rgb r g b) /\
    cos h * chroma_du r g b + sin h * chroma_dv r g b
      = kappa * cos (h - hue_of_rgb r g b).
Proof.
  intros Hr Hg Hb H Hc.
  pose proof (luv_of_rgb_l_pos r g b Hr Hg Hb H) as Hl. simpl in Hl.
  set (L := lightness_of (luma r g b)) in *.
  assert (Hnz : 13 * L * chroma_du r g b <> 0 \/ 13 * L * chroma_dv r g b <> 0).
  { destruct Hc as [Hc | Hc]; [left | right];
      apply Rmult_integral_contrapositive_currified; lra. }
  destruct (cos_sin_hue_of _ _ Hnz) as [Hcos Hsin].
  pose proof (hypotf_pos _ _ Hnz) as Hh.
  rewrite sin_minus, cos_minus.
  unfold hue_of_rgb, luv_of_rgb. simpl. fold L.
  rewrite Hcos, Hsin.
  set (hy := hypotf _ _) in *.
  exists (hy / (13 * L)). split; [apply Rdiv_lt_0_compat; lra |].
  split; field; lra.
Qed.

(** Along an edge of the cube the chromaticity, weighted by its
    denominator, is affine in the free channel: across the direction of
    [h] it is the solver's [q0 + t * q1] ... *)
Lemma edge_cross (i j k : nat) (t h : R) :
  In (i, j, k) sector_indices -> 0 <= t ->
  let e := edge_triple i j k t in
  (primary_S k + t * primary_S i)
  * (sin h * chroma_du (nth 0 e 0) (nth 1 e 0) (nth 2 e 0)
     - cos h * chroma_dv (nth 0 e 0) (nth 1 e 0) (nth 2 e 0))
  = solver_q h k + t * solver_q h i.
Proof.
  intros Hin Ht. simpl in Hin.
  destruct Hin as [E | [E | [E | [E | [E | [E | []]]]]]];
    inversion E; subst i j k;
    unfold edge_triple, solver_q, chroma_du, chroma_dv, rgb_to_xyz,
      primary_S, at2, M; simpl; field; lra.
Qed.

(** ... and along that direction it is the mean of its values at the two
    ends of the edge. *)
Lemma edge_dot (i j k : nat) (t h : R) :
  In (i, j, k) sector_indices -> 0 <= t ->
  let e := edge_triple i j k t in
  let e0 := edge_triple i j k 0 in
  let e1 := edge_triple i j k 1 in
  (primary_S k + t * primary_S i)
  * (cos h * chroma_du (nth 0 e 0) (nth 1 e 0) (nth 2 e 0)
     + sin h * chroma_dv (nth 0 e 0) (nth 1 e 0) (nth 2 e 0))
  = (1 - t) * primary_S k
    * (cos h * chroma_du (nth 0 e0 0) (nth 1 e0 0) (nth 2 e0 0)
       + sin h * chroma_dv (nth 0 e0 0) (nth 1 e0 0) (nth 2 e0 0))
    + t * (primary_S k + primary_S i)
      * (cos h * chroma_du (nth 0 e1 0) (nth 1 e1 0) (nth 2 e1 0)
         + sin h * chroma_dv (nth 0 e1 0) (nth 1 e1 0) (nth 2 e1 0)).
Proof.
  intros Hin Ht. simpl in Hin.
  destruct Hin as [E | [E | [E | [E | [E | [E | []]]]]]];
    inversion E; subst i j k;
    unfold edge_triple, chroma_du, chroma_dv, rgb_to_xyz,
      primary_S, at2, M; simpl; field; lra.
Qed.

Lemma sector_indices_bound (i j k : nat) :
  In (i, j, k) sector_indices -> (i < 3)%nat /\ (k < 3)%nat.
Proof.
  simpl. intros [E | [E | [E | [E | [E | [E | []]]]]]];
    inversion E; subst; lia.
Qed.

(** If the direction of [h] separates the two ends of the edge and points
    to the side of both of them, the solver's quotient is a point of the
    edge, and the chromaticity there has the direction of [h]. *)
Lemma solve_on_edge (i j k : nat) (h : R) :
  In (i, j, k) sector_indices ->
  let e0 := edge_triple i j k 0 in
  let e1 := edge_triple i j k 1 in
  let X0 := sin h * chroma_du (nth 0 e0 0) (nth 1 e0 0) (nth 2 e0 0)
            - cos h * chroma_dv (nth 0 e0 0) (nth 1 e0 0) (nth 2 e0 0) in
  let X1 := sin h * chroma_du (nth 0 e1 0) (nth 1 e1 0) (nth 2 e1 0)
            - cos h * chroma_dv (nth 0 e1 0) (nth 1 e1 0) (nth 2 e1 0) in
  let D0 := cos h * chroma_du (nth 0 e0 0) (nth 1 e0 0) (nth 2 e0 0)
            + sin h * chroma_dv (nth 0 e0 0) (nth 1 e0 0) (nth 2 e0 0) in
  let D1 := cos h * chroma_du (nth 0 e1 0) (nth 1 e1 0) (nth 2 e1 0)
            + sin h * chroma_dv (nth 0 e1 0) (nth 1 e1 0) (nth 2 e1 0) in
  (0 <= X0 /\ X1 < 0) \/ (X0 < 0 /\ 0 <= X1) -> 0 < D0 -> 0 < D1 ->
  solver_q h i <> 0 /\
  let q := - solver_q h k / solver_q h i in
  0 <= q <= 1 /\
  let e := edge_triple i j k q in
  sin h * chroma_du (nth 0 e 0) (nth 1 e 0) (nth 2 e 0)
  - cos h * chroma_dv (nth 0 e 0) (nth 1 e 0) (nth 2 e 0) = 0 /\
  0 < cos h * chroma_du (nth 0 e 0) (nth 1 e 0) (nth 2 e 0)
      + sin h * chroma_dv (nth 0 e 0) (nth 1 e 0) (nth 2 e 0).
Proof.
  intros Hin e0 e1 X0 X1 D0 D1 Hside HD0 HD1.
  destruct (sector_indices_bound i j k Hin) as [Hi Hk].
  pose proof (primary_S_pos i Hi) as HSi.
  pose proof (primary_S_pos k Hk) as HSk.
  pose proof (edge_cross i j k 0 h Hin ltac:(lra)) as E0.
  pose proof (edge_cross i j k 1 h Hin ltac:(lra)) as E1.
  cbv zeta in E0, E1. fold e0 in E0. fold e1 in E1.
  fold X0 in E0. fold X1 in E1.
  set (qk := solver_q h k) in *. set (qi := solver_q h i) in *.
  assert (Hq : (0 <= qk /\ qi < 0 /\ qk + qi < 0) \/
               (qk < 0 /\ 0 < qi /\ 0 <= qk + qi)).
  { destruct Hside as [[H0 H1] | [H0 H1]]; [left | right].
    - assert (0 <= primary_S k * X0) by (apply Rmult_le_pos; lra).
      assert (0 < (primary_S k + primary_S i) * - X1)
        by (apply Rmult_lt_0_compat; lra).
      lra.
    - assert (0 < primary_S k * - X0) by (apply Rmult_lt_0_compat; lra).
      assert (0 <= (primary_S k + primary_S i) * X1)
        by (apply Rmult_le_pos; lra).
      lra. }
  assert (Hqi : qi <> 0) by (destruct Hq as [Hq | Hq]; lra).
  split; [exact Hqi |].
  intros q.
  assert (Hr : 0 <= q <= 1).
  { unfold q. destruct Hq as [(a & b & c) | (a & b & c)].
    - replace (- qk / qi) with (qk / - qi) by (field; lra).
      split.
      + apply Rmult_le_pos; [lra |]. apply Rlt_le, Rinv_0_lt_compat. lra.
      + apply Rmult_le_reg_r with (- qi); [lra |].
        unfold Rdiv. rewrite Rmult_assoc, Rinv_l by lra. lra.
    - split.
      + apply Rmult_le_pos; [lra |]. apply Rlt_le, Rinv_0_lt_compat. lra.
      + apply Rmult_le_reg_r with qi; [lra |].
        unfold Rdiv. rewrite Rmult_assoc, Rinv_l by lra. lra. }
  split; [exact Hr |].
  intros e.
  pose proof (edge_cross i j k q h Hin ltac:(lra)) as Eq.
  pose proof (edge_dot i j k q h Hin ltac:(lra)) as Ed.
  cbv zeta in Eq, Ed. fold e in Eq, Ed. fold e0 e1 in Ed. fold D0 D1 in Ed.
  fold qk qi in Eq.
  assert (HS : 0 < primary_S k + q * primary_S i).
  { assert (0 <= q * primary_S i) by (apply Rmult_le_pos; lra). lra. }
  split.
  - replace (qk + q * qi) with 0 in Eq by (unfold q; field; lra).
    apply Rmult_integral in Eq. destruct Eq; lra.
  - apply Rmult_lt_reg_l with (primary_S k + q * primary_S i); [exact HS |].
    rewrite Rmult_0_r, Ed.
    assert (0 <= (1 - q) * primary_S k * D0).
    { apply Rmult_le_pos; [apply Rmult_le_pos |]; lra. }
    assert (0 <= q * (primary_S k + primary_S i) * D1).
    { apply Rmult_le_pos; [apply Rmult_le_pos |]; lra. }
    destruct (Rle_dec q (1 / 2)).
    + assert (0 < (1 - q) * primary_S k * D0).
      { apply Rmult_lt_0_compat; [apply Rmult_lt_0_compat |]; lra. }
      lra.
    + assert (0 < q * (primary_S k + primary_S i) * D1).
      { apply Rmult_lt_0_compat; [apply Rmult_lt_0_compat |]; lra. }
      lra.
Qed.

(** A colour whose chromaticity has the direction of [h] has the hue [h]. *)
Lemma hue_of_rgb_direction (r g b h : R) :
  0 <= r -> 0 <= g -> 0 <= b -> 0 < r + g + b -> 0 <= h < 2 * PI ->
  sin h * chroma_du r g b - cos h * chroma_dv r g b = 0 ->
  0 < cos h * chroma_du r g b + sin h * chroma_dv r g b ->
  hue_of_rgb r g b = h.
Proof.
  intros Hr Hg Hb H Hh HX HD.
  pose proof (luv_of_rgb_l_pos r g b Hr Hg Hb H) as Hl. simpl in Hl.
  unfold hue_of_rgb, luv_of_rgb. simpl.
  set (L := lightness_of (luma r g b)) in *.
  set (D := cos h * chroma_du r g b + sin h * chroma_dv r g b) in *.
  pose proof (sin2_cos2 h) as Hsc. unfold Rsqr in Hsc.
  assert (Eu : chroma_du r g b = D * cos h).
  { replace (chroma_du r g b)
      with ((sin h * sin h + cos h * cos h) * chroma_du r g b) at 1
      by (rewrite Hsc; ring).
    replace (D * cos h)
      with ((sin h * sin h + cos h * cos h) * chroma_du r g b
            - sin h * (sin h * chroma_du r g b - cos h * chroma_dv r g b))
      by (unfold D; ring).
    rewrite HX. ring. }
  assert (Ev : chroma_dv r g b = D * sin h).
  { replace (chroma_dv r g b)
      with ((sin h * sin h + cos h * cos h) * chroma_dv r g b) at 1
      by (rewrite Hsc; ring).
    replace (D * sin h)
      with ((sin h * sin h + cos h * cos h) * chroma_dv r g b
            + cos h * (sin h * chroma_du r g b - cos h * chroma_dv r g b))
      by (unfold D; ring).
    rewrite HX. ring. }
  rewrite Eu at 1. rewrite Ev at 1. rewrite <- !Rmult_assoc.
  apply hue_of_polar; [| exact Hh].
  apply Rmult_lt_0_compat; lra.
Qed.

(** The cosine of the difference of the hues of two colours is, up to a
    positive factor, the inner product of their chromaticities. *)
Lemma hue_cos_diff (r g b r' g' b' : R) :
  0 <= r -> 0 <= g -> 0 <= b -> 0 < r + g + b ->
  0 <= r' -> 0 <= g' -> 0 <= b' -> 0 < r' + g' + b' ->
  chroma_du r g b <> 0 \/ chroma_dv r g b <> 0 ->
  chroma_du r' g' b' <> 0 \/ chroma_dv r' g' b' <> 0 ->
  exists kappa, 0 < kappa /\
    cos (hue_of_rgb r' g' b' - hue_of_rgb r g b)
    = kappa * (chroma_du r' g' b' * chroma_du r g b
               + chroma_dv r' g' b' * chroma_dv r g b).
Proof.
  intros Hr Hg Hb H Hr' Hg' Hb' H' Hc Hc'.
  destruct (chroma_polar r g b (hue_of_rgb r' g' b') Hr Hg Hb H Hc)
    as (k1 & Hk1 & _ & E1).
  destruct (chroma_polar r' g' b' 0 Hr' Hg' Hb' H' Hc')
    as (k2 & Hk2 & E2 & E3).
  rewrite sin_0, cos_0 in E2, E3.
  replace (0 - hue_of_rgb r' g' b') with (- hue_of_rgb r' g' b') in E2, E3
    by ring.
  rewrite sin_neg in E2. rewrite cos_neg in E3.
  exists (/ (k1 * k2)). split.
  - apply Rinv_0_lt_compat. now apply Rmult_lt_0_compat.
  - apply Rmult_eq_reg_l with (k1 * k2); [| nra].
    rewrite <- Rmult_assoc, Rinv_r, Rmult_1_l by nra.
    rewrite Rmult_assoc, (Rmult_comm k2), <- Rmult_assoc, <- E1. nra.
Qed.

Lemma acute (w : R) : 0 < w < PI -> 0 < cos w -> w < PI / 2.
Proof.
  intros Hw Hc. destruct (Rlt_dec w (PI / 2)) as [| Hn]; [assumption |].
  assert (cos w <= 0) by (apply cos_le_0; lra). lra.
Qed.

(** Each sector is narrower than a quarter turn. *)
Lemma corner_hue_widths :
  hue_of_rgb 1 1 0 - hue_of_rgb 1 0 0 < PI / 2 /\
  hue_of_rgb 0 1 0 - hue_of_rgb 1 1 0 < PI / 2 /\
  hue_of_rgb 0 1 1 - hue_of_rgb 0 1 0 < PI / 2 /\
  hue_of_rgb 0 0 1 - hue_of_rgb 0 1 1 < PI / 2 /\
  hue_of_rgb 1 0 1 - hue_of_rgb 0 0 1 < PI / 2 /\
  hue_of_rgb 1 0 0 + 2 * PI - hue_of_rgb 1 0 1 < PI / 2.
Proof.
  destruct corner_hue_bounds as (bR & bY & bG & bC & bB & bM).
  destruct corner_hue_order as (o1 & o2 & o3 & o4 & o5).
  destruct corner_chroma_signs as
    ([R1 R2] & [Y1 Y2] & [G1 G2] & [C1 C2] & [B1 B2] & [M1 M2]).
  pose proof PI_RGT_0 as Hpi.
  assert (Hdot : forall r g b r' g' b',
            0 <= r -> 0 <= g -> 0 <= b -> 0 < r + g + b ->
            0 <= r' -> 0 <= g' -> 0 <= b' -> 0 < r' + g' + b' ->
            chroma_du r g b <> 0 -> chroma_du r' g' b' <> 0 ->
            0 < chroma_du r' g' b' * chroma_du r g b
                + chroma_dv r' g' b' * chroma_dv r g b ->
            0 < cos (hue_of_rgb r' g' b' - hue_of_rgb r g b)).
  { intros r g b r' g' b' ? ? ? ? ? ? ? ? Hc Hc' Hp.
    destruct (hue_cos_diff r g b r' g' b') as (kappa & Hk & E);
      try assumption; [now left | now left |].
    rewrite E. now apply Rmult_lt_0_compat. }
  repeat split.
  - lra.
  - apply acute; [lra |]. apply Hdot; try lra.
    unfold chroma_du, chroma_dv, rgb_to_xyz.
    rewrite d65_u_prime_val, d65_v_prime_val. lra.
  - apply acute; [lra |]. apply Hdot; try lra.
    unfold chroma_du, chroma_dv, rgb_to_xyz.
    rewrite d65_u_prime_val, d65_v_prime_val. lra.
  - lra.
  - apply acute; [lra |]. apply Hdot; try lra.
    unfold chroma_du, chroma_dv, rgb_to_xyz.
    rewrite d65_u_prime_val, d65_v_prime_val. lra.
  - apply acute; [lra |].
    replace (hue_of_rgb 1 0 0 + 2 * PI - hue_of_rgb 1 0 1)
      with (hue_of_rgb 1 0 0 - hue_of_rgb 1 0 1 + 2 * PI) by ring.
    destruct (cos_sin_shift (hue_of_rgb 1 0 0 - hue_of_rgb 1 0 1))
      as ([Hc _] & _).
    rewrite Hc. apply Hdot; try lra.
    unfold chroma_du, chroma_dv, rgb_to_xyz.
    rewrite d65_u_prime_val, d65_v_prime_val. lra.
Qed.

Lemma edge_point_ok (i j k : nat) (t : R) :
  In (i, j, k) sector_indices -> 0 <= t <= 1 ->
  let e := edge_triple i j k t in
  0 <= nth 0 e 0 /\ 0 <= nth 1 e 0 /\ 0 <= nth 2 e 0 /\
  0 < nth 0 e 0 + nth 1 e 0 + nth 2 e 0.
Proof.
  intros Hin Ht.
  apply (edge_cases i j k t
           (fun r g b => 0 <= r /\ 0 <= g /\ 0 <= b /\ 0 < r + g + b) Hin);
    lra.
Qed.

(** In a sector between the directions [a0] and [a1], which are the hues
    of the two ends of its edge up to whole turns, the solver's quotient is
    a point of the edge and the colour there has the hue asked for. *)
Lemma solve_sector (i j k : nat) (h a0 a1 : R) :
  In (i, j, k) sector_indices ->
  let e0 := edge_triple i j k 0 in
  let e1 := edge_triple i j k 1 in
  let th0 := hue_of_rgb (nth 0 e0 0) (nth 1 e0 0) (nth 2 e0 0) in
  let th1 := hue_of_rgb (nth 0 e1 0) (nth 1 e1 0) (nth 2 e1 0) in
  (th0 = a0 \/ th0 = a0 + 2 * PI \/ th0 + 2 * PI = a0) ->
  (th1 = a1 \/ th1 = a1 + 2 * PI \/ th1 + 2 * PI = a1) ->
  (a0 <= h < a1 \/ a1 <= h < a0) -> Rabs (a1 - a0) < PI / 2 ->
  0 <= h < 2 * PI ->
  solver_q h i <> 0 /\
  let q := - solver_q h k / solver_q h i in
  0 <= q <= 1 /\
  let e := edge_triple i j k q in
  hue_of_rgb (nth 0 e 0) (nth 1 e 0) (nth 2 e 0) = h.
Proof.
  intros Hin e0 e1 th0 th1 H0 H1 Hr Hw Hh.
  pose proof PI_RGT_0 as Hpi.
  destruct (edge_point_ok i j k 0 Hin ltac:(lra)) as (p1 & p2 & p3 & p4).
  destruct (edge_point_ok i j k 1 Hin ltac:(lra)) as (p5 & p6 & p7 & p8).
  pose proof (edge_chroma_nonzero i j k 0 Hin ltac:(lra)) as c0.
  pose proof (edge_chroma_nonzero i j k 1 Hin ltac:(lra)) as c1.
  cbv zeta in p1, p2, p3, p4, p5, p6, p7, p8, c0, c1.
  fold e0 in p1, p2, p3, p4, c0. fold e1 in p5, p6, p7, p8, c1.
  destruct (chroma_polar _ _ _ h p1 p2 p3 p4 c0) as (k0 & Hk0 & X0 & D0).
  destruct (chroma_polar _ _ _ h p5 p6 p7 p8 c1) as (k1 & Hk1 & X1 & D1).
  fold th0 in X0, D0. fold th1 in X1, D1.
  assert (S0 : sin (h - th0) = sin (h - a0) /\ cos (h - th0) = cos (h - a0)).
  { destruct H0 as [E | [E | E]].
    - now rewrite E.
    - rewrite E. replace (h - a0) with (h - (a0 + 2 * PI) + 2 * PI) by ring.
      destruct (cos_sin_shift (h - (a0 + 2 * PI))) as ([Hc Hs] & _).
      now rewrite Hc, Hs.
    - rewrite <- E.
      replace (h - th0) with (h - (th0 + 2 * PI) + 2 * PI) by ring.
      destruct (cos_sin_shift (h - (th0 + 2 * PI))) as ([Hc Hs] & _).
      now rewrite Hc, Hs. }
  assert (S1 : sin (h - th1) = sin (h - a1) /\ cos (h - th1) = cos (h - a1)).
  { destruct H1 as [E | [E | E]].
    - now rewrite E.
    - rewrite E. replace (h - a1) with (h - (a1 + 2 * PI) + 2 * PI) by ring.
      destruct (cos_sin_shift (h - (a1 + 2 * PI))) as ([Hc Hs] & _).
      now rewrite Hc, Hs.
    - rewrite <- E.
      replace (h - th1) with (h - (th1 + 2 * PI) + 2 * PI) by ring.
      destruct (cos_sin_shift (h - (th1 + 2 * PI))) as ([Hc Hs] & _).
      now rewrite Hc, Hs. }
  destruct S0 as [Ss0 Sc0]. destruct S1 as [Ss1 Sc1].
  rewrite Ss0 in X0. rewrite Sc0 in D0. rewrite Ss1 in X1. rewrite Sc1 in D1.
  assert (Hw' : - (PI / 2) < a1 - a0 < PI / 2).
  { unfold Rabs in Hw. destruct (Rcase_abs (a1 - a0)); lra. }
  assert (HD0 : 0 < cos (h - a0)) by (apply cos_gt_0; destruct Hr; lra).
  assert (HD1 : 0 < cos (h - a1)) by (apply cos_gt_0; destruct Hr; lra).
  assert (Hside : (0 <= sin (h - a0) /\ sin (h - a1) < 0) \/
                  (sin (h - a0) < 0 /\ 0 <= sin (h - a1))).
  { destruct Hr as [Hr | Hr]; [left | right]; split.
    - apply sin_ge_0; lra.
    - apply sin_lt_0_var; lra.
    - apply sin_lt_0_var; lra.
    - apply sin_ge_0; lra. }
  destruct (solve_on_edge i j k h Hin) as (Hq & Hq01 & HX & HD).
  - fold e0 e1. rewrite X0, X1.
    destruct Hside as [[a b] | [a b]]; [left | right]; split.
    + apply Rmult_le_pos; lra.
    + assert (0 < k1 * - sin (h - a1)) by (apply Rmult_lt_0_compat; lra). lra.
    + assert (0 < k0 * - sin (h - a0)) by (apply Rmult_lt_0_compat; lra). lra.
    + apply Rmult_le_pos; lra.
  - fold e0. rewrite D0. apply Rmult_lt_0_compat; lra.
  - fold e1. rewrite D1. apply Rmult_lt_0_compat; lra.
  - split; [exact Hq |]. intros q. split; [exact Hq01 |]. intros e.
    destruct (edge_point_ok i j k q Hin Hq01) as (p1' & p2' & p3' & p4').
    apply hue_of_rgb_direction; assumption.
Qed.

(** For a hue in [0, 2 PI) the solver's quotient [- q0 / q1] is defined and
    lies in [0, 1], and the point of the edge at that position has the hue
    asked for. *)
Lemma solver_on_edge (hue : R) (i j k : nat) :
  0 <= hue < 2 * PI ->
  sector corner_hues hue = (i, j, k) ->
  solver_q hue i <> 0 /\
  let q := - solver_q hue k / solver_q hue i in
  0 <= q <= 1 /\
  let e := edge_triple i j k q in
  hue_of_rgb (nth 0 e 0) (nth 1 e 0) (nth 2 e 0) = hue.
Proof.
  intros Hh Hs.
  destruct corner_hue_bounds as (bR & bY & bG & bC & bB & bM).
  destruct corner_hue_order as (o1 & o2 & o3 & o4 & o5).
  destruct corner_hue_widths as (w1 & w2 & w3 & w4 & w5 & w6).
  pose proof PI_RGT_0 as Hpi.
  assert (Hi : In (i, j, k) sector_indices)
    by (rewrite <- Hs; apply sector_In).
  unfold sector, corner_hues in Hs. simpl nth in Hs.
  destruct (fltb hue (hue_of_rgb 1 0 0)) eqn:E0.
  { apply fltb_true in E0. inversion Hs; subst i j k.
    apply (solve_sector 2 1 0 hue (hue_of_rgb 1 0 0)
             (hue_of_rgb 1 0 1 - 2 * PI) Hi);
      simpl; try lra.
    apply Rabs_def1; lra. }
  apply fltb_false in E0.
  destruct (fltb hue (hue_of_rgb 1 1 0)) eqn:E1.
  { apply fltb_true in E1. inversion Hs; subst i j k.
    apply (solve_sector 1 2 0 hue (hue_of_rgb 1 0 0) (hue_of_rgb 1 1 0) Hi);
      simpl; try lra; try tauto.
    apply Rabs_def1; lra. }
  apply fltb_false in E1.
  destruct (fltb hue (hue_of_rgb 0 1 0)) eqn:E2.
  { apply fltb_true in E2. inversion Hs; subst i j k.
    apply (solve_sector 0 2 1 hue (hue_of_rgb 0 1 0) (hue_of_rgb 1 1 0) Hi);
      simpl; try lra; try tauto.
    apply Rabs_def1; lra. }
  apply fltb_false in E2.
  destruct (fltb hue (hue_of_rgb 0 1 1)) eqn:E3.
  { apply fltb_true in E3. inversion Hs; subst i j k.
    apply (solve_sector 2 0 1 hue (hue_of_rgb 0 1 0) (hue_of_rgb 0 1 1) Hi);
      simpl; try lra; try tauto.
    apply Rabs_def1; lra. }
  apply fltb_false in E3.
  destruct (fltb hue (hue_of_rgb 0 0 1)) eqn:E4.
  { apply fltb_true in E4. inversion Hs; subst i j k.
    apply (solve_sector 1 0 2 hue (hue_of_rgb 0 0 1) (hue_of_rgb 0 1 1) Hi);
      simpl; try lra; try tauto.
    apply Rabs_def1; lra. }
  apply fltb_false in E4.
  destruct (fltb hue (hue_of_rgb 1 0 1)) eqn:E5.
  { apply fltb_true in E5. inversion Hs; subst i j k.
    apply (solve_sector 0 1 2 hue (hue_of_rgb 0 0 1) (hue_of_rgb 1 0 1) Hi);
      simpl; try lra; try tauto.
    apply Rabs_def1; lra. }
  apply fltb_false in E5.
  inversion Hs; subst i j k.
  apply (solve_sector 2 1 0 hue (hue_of_rgb 1 0 0 + 2 * PI)
           (hue_of_rgb 1 0 1) Hi);
    simpl; try lra; try tauto.
  apply Rabs_def1; lra.
Qed.

Lemma le_div (a b c : R) : 0 < c -> a * c <= b -> a <= b / c.
Proof.
  intros Hc H. apply Rmult_le_reg_r with c; [exact Hc |].
  unfold Rdiv. rewrite Rmult_assoc, Rinv_l by lra. lra.
Qed.

(** X8.  For a hue in [0, 2 PI), with [(i, j, k)] the branch that
    the solver takes: the divisor [q1] is not zero and the quotient
    [- q0 / q1] is in [0, 1], so that the [clamp] of line 267 leaves it
    unchanged. *)
Theorem solver_never_clamps (hue : R) (i j k : nat) :
  0 <= hue < 2 * PI ->
  sector corner_hues hue = (i, j, k) ->
  solver_q hue i <> 0 /\
  0 <= - solver_q hue k / solver_q hue i <= 1 /\
  clamp (- solver_q hue k / solver_q hue i) 0 1
    = - solver_q hue k / solver_q hue i.
Proof.
  intros Hh Hs.
  destruct (solver_on_edge hue i j k Hh Hs) as (Hq & Hr & _).
  split; [exact Hq |]. split; [exact Hr |].
  rewrite clamp_clamp01. now apply clamp01_id.
Qed.

Lemma solver_never_clamps_witness :
  solver_q PI 2 <> 0 /\
  0 <= - solver_q PI 1 / solver_q PI 2 <= 1 /\
  clamp (- solver_q PI 1 / solver_q PI 2) 0 1
    = - solver_q PI 1 / solver_q PI 2.
Proof.
  apply (solver_never_clamps PI 2 0 1).
  - pose proof PI_RGT_0. lra.
  - exact sector_at_pi.
Defined.

(** X9.  For a hue in [0, 2 PI) whose quotient [- q0 / q1] is not in
    the window between 0.0031308 and 0.0031309 (where taking a channel to
    sRGB and back is not exact), the solver returns a colour, and that colour
    has the hue asked for: [luv_to_lch] gives [hue] back. *)
Theorem solver_hue (hue : R) (i j k : nat) :
  0 <= hue < 2 * PI ->
  sector corner_hues hue = (i, j, k) ->
  (let q := - solver_q hue k / solver_q hue i in
   q <= 0.0031308 \/ 0.0031309 <= q) ->
  exists c,
    most_saturated_in_srgb hue = Some c /\
    snd (luv_to_lch (LUV.u c) (LUV.v c)) = hue.
Proof.
  intros Hh Hs Hw. cbv zeta in Hw.
  destruct (solver_on_edge hue i j k Hh Hs) as (Hq & Hr & E).
  destruct (most_saturated_eval hue i j k Hs Hq) as (t & _ & Ht & Em).
  cbv zeta in E, Ht, Em.
  rewrite (clamp01_id _ Hr) in Ht. rewrite (Ht Hw) in Em.
  eexists. split; [exact Em |]. exact E.
Qed.

Lemma solver_hue_witness :
  exists c,
    most_saturated_in_srgb PI = Some c /\
    snd (luv_to_lch (LUV.u c) (LUV.v c)) = PI.
Proof.
  apply (solver_hue PI 2 0 1).
  - pose proof PI_RGT_0. lra.
  - exact sector_at_pi.
  - cbv zeta. right.
    assert (E1 : solver_q PI 1 = 6.4368 - 28125 / 60053 * 11.4432).
    { unfold solver_q. rewrite sin_PI, cos_PI. unfold at2, M; simpl.
      rewrite d65_u_prime_val, d65_v_prime_val. lra. }
    assert (E2 : solver_q PI 2 = 0.6498 - 28125 / 60053 * 4.115).
    { unfold solver_q. rewrite sin_PI, cos_PI. unfold at2, M; simpl.
      rewrite d65_u_prime_val, d65_v_prime_val. lra. }
    rewrite E1, E2.
    replace (- (6.4368 - 28125 / 60053 * 11.4432)
             / (0.6498 - 28125 / 60053 * 4.115))
      with ((6.4368 - 28125 / 60053 * 11.4432)
            / (28125 / 60053 * 4.115 - 0.6498)) by (field; lra).
    apply le_div; lra.
Defined.

(** ** The solver's colour and the saturation bound *)

(** X10.  For a hue in [0, 2 PI) the lightness of the solver's
    colour is above 32 and at most the lightness of the bright point, which
    is below 98, and its chroma is positive. *)
Theorem solver_lightness_bounds (hue : R) :
  0 <= hue < 2 * PI ->
  exists c pb,
    most_saturated_in_srgb hue = Some c /\
    get_bright_point = Some pb /\
    32 < LUV.l c <= LUV.l pb /\ LUV.l pb < 98 /\
    0 < hypotf (LUV.u c) (LUV.v c).
Proof.
  intros Hh.
  destruct (most_saturated_total hue (hue_domain hue Hh))
    as (i & j & k & t & Hin & Ht & E).
  pose proof (edge_luv_bounds i j k t Hin Ht) as [Hl _].
  pose proof (edge_hypot_pos i j k t Hin Ht) as Hc.
  pose proof (edge_luv_bounds 1 2 0 1) as [_ Hy].
  { unfold sector_indices; simpl; tauto. }
  { lra. }
  cbv zeta in E, Hl, Hc. unfold edge_triple in Hy. simpl in Hy.
  eexists _, _. split; [exact E |]. split; [apply get_bright_point_some |].
  split; [exact Hl |]. split; [exact Hy | exact Hc].
Qed.

Lemma solver_lightness_bounds_witness :
  exists c pb,
    most_saturated_in_srgb 0 = Some c /\
    get_bright_point = Some pb /\
    32 < LUV.l c <= LUV.l pb /\ LUV.l pb < 98 /\
    0 < hypotf (LUV.u c) (LUV.v c).
Proof.
  apply solver_lightness_bounds. pose proof PI_RGT_0. lra.
Defined.

Lemma unit_ratio (a b : R) : 0 <= a <= b -> 0 < b -> 0 <= a / b <= 1.
Proof.
  intros Ha Hb. split.
  - apply Rmult_le_pos; [lra |]. apply Rlt_le, Rinv_0_lt_compat, Hb.
  - apply Rmult_le_reg_r with b; [exact Hb |].
    unfold Rdiv. rewrite Rmult_assoc, Rinv_l by lra. lra.
Qed.

Lemma Smax_profile_aux (h : R) :
  0 <= h < 2 * PI ->
  exists pmid smid,
    most_saturated_in_srgb h = Some pmid /\
    luv_saturation (LUV.l pmid) (LUV.u pmid) (LUV.v pmid) = Some smid /\
    0 < smid /\
    Smax 0 h = Some 0 /\
    Smax 100 h = Some 0 /\
    Smax (LUV.l pmid) h = Some smid /\
    forall l, 0 <= l <= 100 ->
      exists sm, Smax l h = Some sm /\ 0 <= sm <= smid.
Proof.
  intros Hh.
  destruct (most_saturated_total h (hue_domain h Hh))
    as (i & j & k & t & Hin & Ht & E).
  pose proof (edge_luv_bounds i j k t Hin Ht) as [[Hlo _] Hhi].
  pose proof (edge_hypot_pos i j k t Hin Ht) as Hc.
  cbv zeta in E, Hlo, Hhi, Hc.
  set (pmid := luv_of_rgb _ _ _) in *.
  set (hy := hypotf (LUV.u pmid) (LUV.v pmid)) in *.
  assert (Hs : 0 < hy / LUV.l pmid) by (apply Rdiv_lt_0_compat; lra).
  exists pmid, (hy / LUV.l pmid).
  split; [exact E |].
  split; [rewrite luv_saturation_total, Rmax_floor by lra; reflexivity |].
  split; [exact Hs |].
  split; [| split; [| split]].
  - rewrite (Smax_eval 0 h pmid E). fold hy.
    replace (fltb (LUV.l pmid) 0) with false
      by (symmetry; apply fltb_false; lra).
    f_equal. unfold Rdiv. ring.
  - rewrite (Smax_eval 100 h pmid E). fold hy.
    replace (fltb (LUV.l pmid) 100) with true
      by (symmetry; apply fltb_true; lra).
    f_equal. unfold Rdiv. ring.
  - rewrite (Smax_eval (LUV.l pmid) h pmid E). fold hy.
    replace (fltb (LUV.l pmid) (LUV.l pmid)) with false
      by (symmetry; apply fltb_false; lra).
    f_equal. field. lra.
  - intros l Hl. rewrite (Smax_eval l h pmid E). fold hy.
    eexists. split; [reflexivity |].
    destruct (fltb (LUV.l pmid) l) eqn:Ef.
    + apply fltb_true in Ef.
      pose proof (unit_ratio (100 - l) (100 - LUV.l pmid) ltac:(lra) ltac:(lra)).
      nra.
    + apply fltb_false in Ef.
      replace ((0 - l) / (0 - LUV.l pmid)) with (l / LUV.l pmid)
        by (field; lra).
      pose proof (unit_ratio l (LUV.l pmid) ltac:(lra) ltac:(lra)).
      nra.
Qed.

(** X11.  For a hue in [0, 2 PI), with [pmid] the solver's colour and
    [smid] its saturation: [Smax] is 0 at the lightnesses 0 and 100, it is
    [smid] at the lightness of [pmid], and for every lightness in [0, 100] it
    is defined and between 0 and [smid]. *)
Theorem Smax_profile (h : R) :
  0 <= h < 2 * PI ->
  exists pmid smid,
    most_saturated_in_srgb h = Some pmid /\
    luv_saturation (LUV.l pmid) (LUV.u pmid) (LUV.v pmid) = Some smid /\
    0 < smid /\
    Smax 0 h = Some 0 /\
    Smax 100 h = Some 0 /\
    Smax (LUV.l pmid) h = Some smid /\
    forall l, 0 <= l <= 100 ->
      exists sm, Smax l h = Some sm /\ 0 <= sm <= smid.
Proof. exact (Smax_profile_aux h). Qed.

Lemma Smax_profile_witness :
  exists pmid smid,
    most_saturated_in_srgb 0 = Some pmid /\
    luv_saturation (LUV.l pmid) (LUV.u pmid) (LUV.v pmid) = Some smid /\
    0 < smid /\
    Smax 0 0 = Some 0 /\
    Smax 100 0 = Some 0 /\
    Smax (LUV.l pmid) 0 = Some smid /\
    forall l, 0 <= l <= 100 ->
      exists sm, Smax l 0 = Some sm /\ 0 <= sm <= smid.
Proof.
  apply Smax_profile. pose proof PI_RGT_0. lra.
Defined.

(** ** Control points *)

Lemma truncZ_small (y : R) : -1 < y < 1 -> truncZ y = 0%Z.
Proof.
  intros Hy. unfold truncZ. destruct (Rlt_dec y 0).
  - rewrite (floorZ_unique (- y) 0); [reflexivity | simpl; lra].
  - apply floorZ_unique. simpl. lra.
Qed.

Lemma ratio_small (x p : R) : 0 < p -> - p < x < p -> -1 < x / p < 1.
Proof.
  intros Hp Hx. split.
  - apply Rmult_lt_reg_r with p; [exact Hp |].
    unfold Rdiv. rewrite Rmult_assoc, Rinv_l by lra. lra.
  - apply Rmult_lt_reg_r with p; [exact Hp |].
    unfold Rdiv. rewrite Rmult_assoc, Rinv_l by lra. lra.
Qed.

(** [fmod] by a turn leaves alone what is less than a turn from 0, on
    either side. *)
Lemma fmodf_twopi_small (x : R) :
  - twopi < x < twopi -> fmodf x twopi = Some x.
Proof.
  intros Hx. rewrite fmodf_twopi.
  rewrite truncZ_small by (apply ratio_small; [apply twopi_pos | exact Hx]).
  f_equal. simpl. ring.
Qed.

Lemma fmodf_twopi_second (x : R) :
  twopi <= x < 2 * twopi -> fmodf x twopi = Some (x - twopi).
Proof.
  intros Hx. rewrite fmodf_twopi. pose proof twopi_pos as Hp.
  assert (Hq : 1 <= x / twopi < 2).
  { split.
    - apply Rmult_le_reg_r with twopi; [exact Hp |].
      unfold Rdiv. rewrite Rmult_assoc, Rinv_l by lra. lra.
    - apply Rmult_lt_reg_r with twopi; [exact Hp |].
      unfold Rdiv. rewrite Rmult_assoc, Rinv_l by lra. lra. }
  rewrite truncZ_nonneg by lra.
  rewrite (floorZ_unique (x / twopi) 1) by (simpl; lra).
  f_equal. simpl. ring.
Qed.

Lemma between (alpha a b lo hi : R) :
  0 <= alpha <= 1 -> lo < a < hi -> lo < b < hi ->
  lo < a + alpha * (b - a) < hi.
Proof.
  intros Ha Hx Hy.
  assert (H1 : 0 <= alpha * (b - lo)) by (apply Rmult_le_pos; lra).
  assert (H2 : 0 <= (1 - alpha) * (a - lo)) by (apply Rmult_le_pos; lra).
  assert (H3 : 0 <= alpha * (hi - b)) by (apply Rmult_le_pos; lra).
  assert (H4 : 0 <= (1 - alpha) * (hi - a)) by (apply Rmult_le_pos; lra).
  destruct (Rle_dec alpha (1 / 2)).
  - assert (0 < (1 - alpha) * (a - lo)) by (apply Rmult_lt_0_compat; lra).
    assert (0 < (1 - alpha) * (hi - a)) by (apply Rmult_lt_0_compat; lra).
    lra.
  - assert (0 < alpha * (b - lo)) by (apply Rmult_lt_0_compat; lra).
    assert (0 < alpha * (hi - b)) by (apply Rmult_lt_0_compat; lra).
    lra.
Qed.

Lemma mix_hue_eval (alpha h0 h1 : R) :
  0 <= alpha <= 1 -> 0 <= h0 < twopi -> 0 <= h1 < twopi ->
  mix_hue alpha h0 h1 =
    Some (h0 + alpha * (if fltb (h1 - h0) pi then h1 - h0
                        else h1 - twopi - h0)).
Proof.
  intros Ha H0 H1. pose proof PI_RGT_0 as Hpi.
  unfold mix_hue, pi in *. unfold twopi in H0, H1.
  destruct (fltb (h1 - h0) PI) eqn:E.
  - apply fltb_true in E.
    rewrite fmodf_twopi_small by (unfold twopi; lra). cbn [bind ret].
    replace (PI + h1 - h0 - PI) with (h1 - h0) by ring.
    apply fmodf_twopi_small. unfold twopi. apply between; lra.
  - apply fltb_false in E.
    rewrite fmodf_twopi_second by (unfold twopi; lra). cbn [bind ret].
    replace (PI + h1 - h0 - twopi - PI) with (h1 - twopi - h0) by ring.
    apply fmodf_twopi_small. unfold twopi. apply between; lra.
Qed.

(** X12.  For [alpha] in [0, 1] and two hues in [0, 2 PI):
    when [h1 - h0 < PI], also when it is below [- PI], [mix_hue] is the
    plain interpolation [h0 + alpha (h1 - h0)]; when [h1 - h0 >= PI] it is
    [h0 + alpha (h1 - h0 - 2 PI)], which is not brought back into [0, 2 PI)
    when it is negative. *)
Theorem mix_hue_interpolates (alpha h0 h1 : R) :
  0 <= alpha <= 1 -> 0 <= h0 < twopi -> 0 <= h1 < twopi ->
  (h1 - h0 < pi -> mix_hue alpha h0 h1 = Some (h0 + alpha * (h1 - h0))) /\
  (pi <= h1 - h0 ->
   mix_hue alpha h0 h1 = Some (h0 + alpha * (h1 - h0 - twopi))).
Proof.
  intros Ha H0 H1. rewrite (mix_hue_eval alpha h0 h1 Ha H0 H1).
  split; intros H.
  - replace (fltb (h1 - h0) pi) with true
      by (symmetry; now apply fltb_true).
    reflexivity.
  - replace (fltb (h1 - h0) pi) with false
      by (symmetry; now apply fltb_false).
    f_equal. ring.
Qed.

Lemma mix_hue_interpolates_witness :
  (2 - 1 < pi -> mix_hue (1 / 2) 1 2 = Some (1 + 1 / 2 * (2 - 1))) /\
  (pi <= 2 - 1 ->
   mix_hue (1 / 2) 1 2 = Some (1 + 1 / 2 * (2 - 1 - twopi))).
Proof.
  pose proof PI2_3_2 as Hpi.
  apply mix_hue_interpolates; unfold twopi; lra.
Defined.

Lemma get_color_points_total_aux (hue saturation warmth : R) :
  0 <= hue < 2 * PI -> 0 <= warmth <= 1 ->
  exists pb pbh pbs cp,
    bright_point_lch = Some (pb, pbh, pbs) /\
    get_color_points hue saturation warmth pb pbh pbs = Some cp /\
    p0 cp = LUV.mk 0 0 0 /\
    most_saturated_in_srgb hue = Some (p1 cp) /\
    LUV.l (p2 cp) = (1 - warmth) * 100 + warmth * LUV.l pb /\
    (0 <= saturation <= 1 ->
     LUV.l (p0 cp) <= LUV.l (q0 cp) <= LUV.l (q1 cp) /\
     LUV.l (q1 cp) <= LUV.l (q2 cp) <= LUV.l (p2 cp)).
Proof.
  intros Hh Hw. pose proof PI_RGT_0 as Hpi.
  destruct corner_hue_bounds as (_ & bY & _).
  destruct (most_saturated_total hue (hue_domain hue Hh))
    as (i & j & k & t & Hin & Ht & E).
  cbv zeta in E. set (c1 := luv_of_rgb _ _ _) in E.
  assert (Hmix : mix_hue warmth hue (hue_of_rgb 1 1 0)
                 = Some (hue + warmth * (hue_of_rgb 1 1 0 - hue))).
  { rewrite mix_hue_eval by (unfold twopi; lra).
    replace (fltb (hue_of_rgb 1 1 0 - hue) pi) with true
      by (symmetry; apply fltb_true; unfold pi; lra).
    reflexivity. }
  assert (Hr : 0 <= hue + warmth * (hue_of_rgb 1 1 0 - hue) < 2 * PI).
  { assert (H : -1 < hue + warmth * (hue_of_rgb 1 1 0 - hue) < 2 * PI)
      by (apply between; lra).
    split; [| lra].
    assert (0 <= (1 - warmth) * hue) by (apply Rmult_le_pos; lra).
    assert (0 <= warmth * hue_of_rgb 1 1 0) by (apply Rmult_le_pos; lra).
    lra. }
  destruct (Smax_total ((1 - warmth) * 100 + warmth * LUV.l (luv_of_rgb 1 1 0))
              _ (hue_domain _ Hr)) as (sm & Hsm).
  assert (Hcp : exists cp,
            get_color_points hue saturation warmth (luv_of_rgb 1 1 0)
              (hue_of_rgb 1 1 0)
              (hypotf (LUV.u (luv_of_rgb 1 1 0)) (LUV.v (luv_of_rgb 1 1 0))
               / Rmax (LUV.l (luv_of_rgb 1 1 0)) 1e-8) = Some cp /\
            p0 cp = LUV.mk 0 0 0 /\ p1 cp = c1 /\
            LUV.l (p2 cp)
              = (1 - warmth) * 100 + warmth * LUV.l (luv_of_rgb 1 1 0)).
  { unfold get_color_points, lch_to_luv.
    rewrite E. cbn [bind ret]. rewrite Hmix. cbn [bind ret].
    rewrite Hsm. cbn [bind ret].
    eexists. split; [reflexivity |]. cbn [p0 p1 p2 LUV.l].
    split; [| split; reflexivity].
    apply luv_eq; simpl; ring. }
  destruct Hcp as (cp & Hcp & H0 & H1 & H2).
  eexists (luv_of_rgb 1 1 0), (hue_of_rgb 1 1 0), _, cp.
  split; [apply bright_point_lch_some |].
  split; [exact Hcp |]. split; [exact H0 |].
  split; [rewrite H1; exact E |]. split; [exact H2 |].
  intros Hs.
  exact (color_points_order hue saturation warmth _ _ _ cp Hs Hw
           bright_point_lch_some Hcp).
Qed.

(** X13.  For a hue in [0, 2 PI) and a warmth in [0, 1] (and
    any saturation), with the bright point as the generators compute it,
    [get_color_points] returns: [p0] is black, [p1] is the solver's colour,
    the lightness of [p2] is [(1 - warmth) 100 + warmth l(pb)]; for a
    saturation in [0, 1] the lightnesses of [p0, q0, q1, q2, p2] are in
    order. *)
Theorem get_color_points_total (hue saturation warmth : R) :
  0 <= hue < 2 * PI -> 0 <= warmth <= 1 ->
  exists pb pbh pbs cp,
    bright_point_lch = Some (pb, pbh, pbs) /\
    get_color_points hue saturation warmth pb pbh pbs = Some cp /\
    p0 cp = LUV.mk 0 0 0 /\
    most_saturated_in_srgb hue = Some (p1 cp) /\
    LUV.l (p2 cp) = (1 - warmth) * 100 + warmth * LUV.l pb /\
    (0 <= saturation <= 1 ->
     LUV.l (p0 cp) <= LUV.l (q0 cp) <= LUV.l (q1 cp) /\
     LUV.l (q1 cp) <= LUV.l (q2 cp) <= LUV.l (p2 cp)).
Proof. apply get_color_points_total_aux. Qed.

Lemma get_color_points_total_witness :
  exists pb pbh pbs cp,
    bright_point_lch = Some (pb, pbh, pbs) /\
    get_color_points 0 1 1 pb pbh pbs = Some cp /\
    p0 cp = LUV.mk 0 0 0 /\
    most_saturated_in_srgb 0 = Some (p1 cp) /\
    LUV.l (p2 cp) = (1 - 1) * 100 + 1 * LUV.l pb /\
    (0 <= 1 <= 1 ->
     LUV.l (p0 cp) <= LUV.l (q0 cp) <= LUV.l (q1 cp) /\
     LUV.l (q1 cp) <= LUV.l (q2 cp) <= LUV.l (p2 cp)).
Proof.
  pose proof PI_RGT_0 as Hpi.
  apply (get_color_points_total 0 1 1); lra.
Defined.

(** ** The curve and its inverse *)

(** X14.  [invB] faults exactly when [b0 - 2 b1 + b2 = 0], that
    is when the three control values are equally spaced: it then divides by
    zero. *)
Theorem invB_fault_iff (b0 b1 b2 v : R) :
  invB b0 b1 b2 v = None <-> b0 - 2 * b1 + b2 = 0.
Proof.
  unfold invB.
  assert (Hm : 0 <= fmax (b1 * b1 - b0 * b2 + (b0 - 2 * b1 + b2) * v) 0).
  { rewrite fmax_Rmax. apply Rmax_r. }
  rewrite (sqrtf_nonneg _ Hm). cbn [bind ret].
  split.
  - intros H. destruct (Req_dec_T (b0 - 2 * b1 + b2) 0) as [E | E];
      [exact E |]. rewrite fdiv_some in H by exact E. discriminate.
  - intros E. rewrite E. apply fdiv_zero.
Qed.

(** X15.  When [invB] returns a parameter [t] for the lightnesses of
    three control colours and a value [v]: if the discriminant
    [b1^2 - b0 b2 + (b0 - 2 b1 + b2) v] is not negative, the Bezier colour
    [B] at [t] has the lightness [v]; if it is not positive, [t] is the
    parameter [(b0 - b1) / (b0 - 2 b1 + b2)] of the extremum. *)
Theorem invB_inverts_B (c0 c1 c2 : LUVColor) (v t : R) :
  invB (LUV.l c0) (LUV.l c1) (LUV.l c2) v = Some t ->
  let A := LUV.l c0 - 2 * LUV.l c1 + LUV.l c2 in
  let D := LUV.l c1 * LUV.l c1 - LUV.l c0 * LUV.l c2 + A * v in
  (0 <= D -> LUV.l (B c0 c1 c2 t) = v) /\
  (D <= 0 -> t = (LUV.l c0 - LUV.l c1) / A).
Proof.
  intros H A D.
  destruct (invB_spec _ _ _ _ _ H) as (HA & r & Hr & Hrr & Ht).
  fold A in HA, Hrr, Ht. fold D in Hrr.
  split; intros HD.
  - rewrite B_lightness. fold A.
    rewrite Rmax_left in Hrr by exact HD.
    apply Rmult_eq_reg_l with A; [| exact HA].
    set (b0 := LUV.l c0) in *. set (b1 := LUV.l c1) in *.
    set (b2 := LUV.l c2) in *.
    replace (A * (b0 + 2 * (b1 - b0) * t + A * (t * t)))
      with (A * b0 + 2 * (b1 - b0) * (t * A) + (t * A) * (t * A)) by ring.
    rewrite Ht.
    replace (A * b0 + 2 * (b1 - b0) * (b0 - b1 + r)
             + (b0 - b1 + r) * (b0 - b1 + r))
      with (A * b0 - (b0 - b1) * (b0 - b1) + r * r) by ring.
    rewrite Hrr. unfold D, A. ring.
  - rewrite Rmax_right in Hrr by exact HD.
    assert (r = 0) by nra. subst r.
    apply Rmult_eq_reg_r with A; [| exact HA].
    rewrite Ht. field. exact HA.
Qed.

Lemma invB_inverts_B_witness :
  let A := LUV.l (LUV.mk 0 0 0) - 2 * LUV.l (LUV.mk 50 0 0)
           + LUV.l (LUV.mk 80 0 0) in
  let D := LUV.l (LUV.mk 50 0 0) * LUV.l (LUV.mk 50 0 0)
           - LUV.l (LUV.mk 0 0 0) * LUV.l (LUV.mk 80 0 0) + A * 80 in
  (0 <= D -> LUV.l (B (LUV.mk 0 0 0) (LUV.mk 50 0 0) (LUV.mk 80 0 0) 1) = 80) /\
  (D <= 0 -> 1 = (LUV.l (LUV.mk 0 0 0) - LUV.l (LUV.mk 50 0 0)) / A).
Proof.
  apply (invB_inverts_B (LUV.mk 0 0 0) (LUV.mk 50 0 0) (LUV.mk 80 0 0) 80 1).
  unfold invB. simpl.
  replace (50 * 50 - 0 * 80 + (0 - 2 * 50 + 80) * 80) with (30 * 30) by lra.
  rewrite fmax_nonneg by lra. rewrite sqrtf_nonneg by lra.
  rewrite sqrt_square by lra. cbn [bind ret].
  rewrite fdiv_some by lra. f_equal. lra.
Defined.

(** ** Conversion to bytes *)

Lemma uchar_of_float_range (x : R) (k : Z) :
  uchar_of_float x = Some k -> (0 <= k <= 255)%Z.
Proof.
  unfold uchar_of_float. intros H.
  destruct ((0 <=? truncZ x) && (truncZ x <=? 255))%Z eqn:E; [| discriminate].
  injection H as <-. apply andb_prop in E. destruct E as [E1 E2].
  apply Z.leb_le in E1, E2. lia.
Qed.

(** The conversion to bytes returns unless [luv_to_xyz] divides by zero. *)
Lemma convert_defined (c : LUVColor) :
  LUV.l c <> 0 -> LUV.v c / (13 * LUV.l c) + d65_v_prime <> 0 ->
  exists bytes, convert_colormap_entry c = Some bytes.
Proof.
  intros El Ev.
  assert (Hx : exists x y z,
            luv_to_xyz (LUV.l c) (LUV.u c) (LUV.v c) = Some (x, y, z)).
  { unfold luv_to_xyz. rewrite !fdiv_some by lra. cbn [bind ret].
    rewrite !fdiv_some by lra. cbn [bind ret].
    eexists _, _, _. reflexivity. }
  destruct Hx as (x & y & z & Hx).
  exact (convert_after_xyz c x y z Hx).
Qed.

(** X16.  [convert_colormap_entry] faults exactly when
    [luv_to_xyz] divides by zero: when the lightness is 0, or when
    [v / (13 l) + d65_v_prime] is 0; otherwise it returns three bytes, each
    in [0, 255]. *)
Theorem convert_colormap_entry_domain (c : LUVColor) :
  (convert_colormap_entry c = None <->
   LUV.l c = 0 \/ LUV.v c / (13 * LUV.l c) + d65_v_prime = 0) /\
  (forall c0 c1 c2,
     convert_colormap_entry c = Some (c0, c1, c2) ->
     (0 <= c0 <= 255)%Z /\ (0 <= c1 <= 255)%Z /\ (0 <= c2 <= 255)%Z).
Proof.
  split; [split |].
  - intros H.
    destruct (Req_dec_T (LUV.l c) 0) as [El | El]; [now left | right].
    destruct (Req_dec_T (LUV.v c / (13 * LUV.l c) + d65_v_prime) 0)
      as [Ev | Ev]; [exact Ev | exfalso].
    destruct (convert_defined c El Ev) as (bytes & Hb). congruence.
  - intros [El | Ev]; [now apply convert_dark |].
    destruct (Req_dec_T (LUV.l c) 0) as [El | El]; [now apply convert_dark |].
    unfold convert_colormap_entry, luv_to_xyz.
    rewrite !fdiv_some by lra. cbn [bind ret].
    rewrite Ev, Rmult_0_r, fdiv_zero. reflexivity.
  - intros c0 c1 c2 H. unfold convert_colormap_entry in H.
    destruct (luv_to_xyz _ _ _) as [[[x y] z] |]; [| discriminate].
    cbn [bind ret] in H.
    destruct (xyz_to_rgb x y z) as [[r g] b].
    destruct (rgb_to_srgb r g b) as [[[sr sg] sb] |]; [| discriminate].
    cbn [bind ret] in H.
    destruct (uchar_of_float (roundf (sr * 255))) as [k0 |] eqn:E0;
      [| discriminate].
    destruct (uchar_of_float (roundf (sg * 255))) as [k1 |] eqn:E1;
      [| discriminate].
    destruct (uchar_of_float (roundf (sb * 255))) as [k2 |] eqn:E2;
      [| discriminate].
    cbn [bind ret] in H. injection H as <- <- <-.
    repeat split; eapply uchar_of_float_range; eassumption.
Qed.

(** ** CubeHelix: bounds and gray ramp *)

Lemma filter_length_le {A : Type} (p : A -> bool) (xs : list A) :
  (length (filter p xs) <= length xs)%nat.
Proof.
  induction xs as [| x xs IH]; [simpl; lia |].
  simpl. destruct (p x); simpl; lia.
Qed.

Lemma clamped_bytes_range (rgb : R * R * R) :
  let '(c0, c1, c2) := clamped_bytes rgb in
  (0 <= c0 <= 255)%Z /\ (0 <= c1 <= 255)%Z /\ (0 <= c2 <= 255)%Z.
Proof.
  destruct rgb as [[r g] b]. unfold clamped_bytes.
  repeat split; apply byte_of_range, clamp01_range.
Qed.

(** X17.  For [n >= 2] and [gamma >= 0], CubeHelix returns
    [n] entries, every byte in [0, 255], and a count between 0 and [n]. *)
Theorem CubeHelix_output_bounds (n : Z) (hue rot saturation gamma : R) :
  (2 <= n)%Z -> 0 <= gamma ->
  exists clippings colormap,
    CubeHelix n hue rot saturation gamma = Some (clippings, colormap) /\
    length colormap = Z.to_nat n /\
    (0 <= clippings <= n)%Z /\
    Forall (fun '(c0, c1, c2) =>
              (0 <= c0 <= 255)%Z /\ (0 <= c1 <= 255)%Z /\ (0 <= c2 <= 255)%Z)
           colormap.
Proof.
  intros Hn Hg.
  destruct (CubeHelix_clip_count_aux n hue rot saturation gamma Hn Hg)
    as (chans & Hc & Hl & E).
  eexists _, _. split; [exact E |].
  split; [now rewrite length_map |]. split.
  - pose proof (filter_length_le needs_clamping chans). lia.
  - apply Forall_forall. intros x Hx. apply in_map_iff in Hx.
    destruct Hx as (rgb & <- & _). apply clamped_bytes_range.
Qed.

Lemma CubeHelix_output_bounds_witness :
  exists clippings colormap,
    CubeHelix 2 0 0 1 1 = Some (clippings, colormap) /\
    length colormap = Z.to_nat 2 /\
    (0 <= clippings <= 2)%Z /\
    Forall (fun '(c0, c1, c2) =>
              (0 <= c0 <= 255)%Z /\ (0 <= c1 <= 255)%Z /\ (0 <= c2 <= 255)%Z)
           colormap.
Proof. apply CubeHelix_output_bounds; [lia | lra]. Defined.

Lemma unit_fraction (n i : Z) :
  (2 <= n <= 16777216)%Z -> (0 <= i < n)%Z ->
  0 <= float_of_int i / (float_of_int n - 1) <= 1.
Proof.
  intros Hn [H0 H1]. rewrite Helix_quotient_exact by lia.
  destruct Hn as [Hn _].
  assert (Hi : (i <= n - 1)%Z) by lia.
  apply IZR_le in Hn, H0, Hi. rewrite minus_IZR in Hi.
  apply unit_ratio; lra.
Qed.

Lemma mapM_ext_in {A C : Type} (f g : A -> option C) (xs : list A) :
  (forall x, In x xs -> f x = g x) -> mapM f xs = mapM g xs.
Proof.
  induction xs as [| x xs IH]; intros H; [reflexivity |].
  simpl. rewrite (H x (or_introl eq_refl)).
  rewrite IH; [reflexivity |]. intros y Hy. apply H. now right.
Qed.

(** X18.  For [n >= 2], [gamma >= 0] and a saturation of 0: every entry of
    CubeHelix is a gray, its three bytes equal; the result is the same
    whatever the hue and the rotations; and up to [n = 2^24] no colour is
    counted as clipped. *)
Theorem CubeHelix_gray_ramp (n : Z) (hue rot gamma : R) :
  (2 <= n)%Z -> 0 <= gamma ->
  exists clippings colormap,
    CubeHelix n hue rot 0 gamma = Some (clippings, colormap) /\
    length colormap = Z.to_nat n /\
    (forall c, In c colormap ->
       exists g, (0 <= g <= 255)%Z /\ c = (g, g, g)) /\
    (forall hue' rot',
       CubeHelix n hue' rot' 0 gamma = Some (clippings, colormap)) /\
    ((n <= 16777216)%Z -> clippings = 0%Z).
Proof.
  intros Hn Hg.
  destruct (CubeHelix_clip_count_aux n hue rot 0 gamma Hn Hg)
    as (chans & Hc & Hl & E).
  assert (Hall : forall rgb, In rgb chans ->
            exists g, 0 <= g /\ ((n <= 16777216)%Z -> g <= 1) /\
                      rgb = (g, g, g)).
  { intros rgb Hin.
    destruct (mapM_In _ _ _ Hc rgb Hin) as (i & Hi & Ei).
    apply zrange_In in Hi. rewrite Z2Nat.id in Hi by lia.
    destruct (Helix_channels_gray n gamma i Hn ltac:(lia) Hg)
      as (g & H0 & H1 & Eg).
    exists g. split; [exact H0 |]. split.
    - intros Hn24. apply H1. apply unit_fraction; lia.
    - rewrite Eg in Ei. congruence. }
  eexists _, _. split; [exact E |].
  split; [now rewrite length_map |]. split; [| split].
  - intros c Hin. apply in_map_iff in Hin.
    destruct Hin as (rgb & <- & Hin).
    destruct (Hall rgb Hin) as (g & _ & _ & ->).
    exists (byte_of (clamp01 g)).
    split; [apply byte_of_range, clamp01_range | reflexivity].
  - intros hue' rot'.
    destruct (CubeHelix_clip_count_aux n hue' rot' 0 gamma Hn Hg)
      as (chans' & Hc' & _ & E').
    rewrite (mapM_ext_in _ (Helix.channels n hue rot 0 gamma)) in Hc'.
    + rewrite Hc in Hc'. injection Hc' as <-. exact E'.
    + intros i Hi. apply zrange_In in Hi. rewrite Z2Nat.id in Hi by lia.
      destruct (Helix_channels_gray n gamma i Hn ltac:(lia) Hg)
        as (g & _ & _ & Eg).
      now rewrite !Eg.
  - intros Hn24.
    rewrite filter_none; [reflexivity |].
    intros rgb Hin.
    destruct (Hall rgb Hin) as (g & H0 & H1 & ->).
    specialize (H1 Hn24).
    unfold needs_clamping, outside01.
    replace (fltb g 0) with false by (symmetry; apply fltb_false; lra).
    replace (fltb 1 g) with false by (symmetry; apply fltb_false; lra).
    reflexivity.
Qed.

Lemma CubeHelix_gray_ramp_witness :
  exists clippings colormap,
    CubeHelix 2 0 0 0 1 = Some (clippings, colormap) /\
    length colormap = Z.to_nat 2 /\
    (forall c, In c colormap ->
       exists g, (0 <= g <= 255)%Z /\ c = (g, g, g)) /\
    (forall hue' rot',
       CubeHelix 2 hue' rot' 0 1 = Some (clippings, colormap)) /\
    ((2 <= 16777216)%Z -> clippings = 0%Z).
Proof. apply (CubeHelix_gray_ramp 2 0 0 1); [lia | lra]. Defined.

(** ** One entry *)

(** X19.  With [n = 1], whatever the other parameters:
    BrewerSequential, BrewerQualitative and CubeHelix fault (each divides 0
    by [n - 1 = 0]), while the only entry of BrewerDiverging is the neutral
    colour, computed without that division. *)
Theorem single_entry_maps (hue divergence rot contrast saturation brightness
    warmth gamma : R) :
  BrewerSequential 1 hue contrast saturation brightness warmth = None /\
  BrewerQualitative 1 hue divergence contrast saturation brightness = None /\
  CubeHelix 1 hue rot saturation gamma = None /\
  forall cp0 cp1 pbh,
    Diverging.color 1 cp0 cp1 contrast brightness warmth pbh 0
    = Diverging.neutral 1 cp0 cp1 contrast brightness warmth pbh.
Proof.
  assert (Hz : forall x, fdiv x (IZR 1 - 1) = None).
  { intros x. replace (IZR 1 - 1) with 0 by lra. apply fdiv_zero. }
  split; [| split; [| split]].
  - unfold BrewerSequential.
    destruct bright_point_lch as [[[pb pbh] pbs] |]; [| reflexivity].
    cbn [bind]. destruct (get_color_points _ _ _ _ _ _) as [cp |];
      [| reflexivity].
    cbn [bind]. simpl. unfold write_entry, Sequential.color.
    now rewrite Hz.
  - unfold BrewerQualitative.
    destruct Qualitative.yellow as [[yl yh] |]; [| reflexivity].
    cbn [bind]. destruct Qualitative.red_saturation as [rs |];
      [| reflexivity].
    cbn [bind]. simpl. unfold write_entry, Qualitative.color,
      Qualitative.lightness_hue.
    now rewrite Hz.
  - unfold CubeHelix. simpl. unfold Helix.entry, Helix.channels.
    rewrite (float_of_int_exact 0), (float_of_int_exact 1) by lia.
    now rewrite Hz.
  - intros cp0 cp1 pbh. reflexivity.
Qed.

(** ** Hue distance and the lightness of qualitative maps *)

Lemma HueDiff_distance_aux (h0 h1 : R) :
  0 <= h0 < twopi -> 0 <= h1 < twopi ->
  HueDiff h0 h1 = HueDiff h1 h0 /\
  0 <= HueDiff h0 h1 <= pi /\
  (HueDiff h0 h1 = 0 <-> h0 = h1).
Proof.
  intros H0 H1. pose proof PI_RGT_0 as Hpi.
  unfold HueDiff, twopi, pi in *.
  rewrite (Rabs_minus_sym h0 h1).
  split; [reflexivity |].
  assert (Ha : 0 <= Rabs (h1 - h0) < 2 * PI).
  { split; [apply Rabs_pos |]. apply Rabs_def1; lra. }
  destruct (fltb (Rabs (h1 - h0)) PI) eqn:E.
  - apply fltb_true in E. split; [lra |]. split.
    + intros Hz. unfold Rabs in Hz. destruct (Rcase_abs (h1 - h0)); lra.
    + intros ->. replace (h1 - h1) with 0 by ring. apply Rabs_R0.
  - apply fltb_false in E. split; [lra |]. split.
    + intros Hz. lra.
    + intros ->. replace (h1 - h1) with 0 in E by ring.
      rewrite Rabs_R0 in E. lra.
Qed.

(** X20.  For two hues in [0, 2 PI), [HueDiff] is symmetric, is
    between 0 and PI, and is 0 exactly when the two hues are equal. *)
Theorem HueDiff_distance (h0 h1 : R) :
  0 <= h0 < twopi -> 0 <= h1 < twopi ->
  HueDiff h0 h1 = HueDiff h1 h0 /\
  0 <= HueDiff h0 h1 <= pi /\
  (HueDiff h0 h1 = 0 <-> h0 = h1).
Proof. exact (HueDiff_distance_aux h0 h1). Qed.

Lemma HueDiff_distance_witness :
  HueDiff 0 1 = HueDiff 1 0 /\
  0 <= HueDiff 0 1 <= pi /\
  (HueDiff 0 1 = 0 <-> 0 = 1).
Proof.
  pose proof PI2_3_2 as Hpi.
  apply HueDiff_distance; unfold twopi; lra.
Defined.

Lemma Qualitative_lightness_range_aux (n : Z)
    (hue divergence contrast brightness : R) (i : Z) :
  (2 <= n)%Z -> (0 <= i)%Z -> 0 <= hue -> 0 <= divergence ->
  0 <= contrast <= 1 -> 0 <= brightness ->
  exists yl yh cl ch,
    Qualitative.yellow = Some (yl, yh) /\
    Qualitative.lightness_hue n hue divergence contrast brightness yl yh i
      = Some (cl, ch) /\
    0 <= ch < twopi /\
    cl = brightness * yl * (1 - contrast * (HueDiff ch yh / pi)) /\
    (1 - contrast) * (brightness * yl) <= cl <= brightness * yl.
Proof.
  intros Hn Hi Hh Hd Hc Hb. pose proof PI_RGT_0 as Hpi.
  destruct corner_hue_bounds as (_ & bY & _).
  destruct (Qualitative_lightness_hue_some n hue divergence contrast brightness
              (LUV.l (luv_of_rgb 1 1 0)) (hue_of_rgb 1 1 0) i Hn)
    as (cl & ch & Hlh & Hrange).
  specialize (Hrange Hh Hd Hi).
  exists (LUV.l (luv_of_rgb 1 1 0)), (hue_of_rgb 1 1 0), cl, ch.
  split; [apply Qualitative_yellow_some |].
  split; [exact Hlh |]. split; [exact Hrange |].
  assert (Hyl : 0 < LUV.l (luv_of_rgb 1 1 0))
    by (apply luv_of_rgb_l_pos; lra).
  set (yl := LUV.l (luv_of_rgb 1 1 0)) in *.
  set (yh := hue_of_rgb 1 1 0) in *.
  destruct (HueDiff_distance_aux ch yh) as (_ & Hr & _);
    [exact Hrange | unfold twopi; lra |].
  assert (Ha : 0 <= HueDiff ch yh / pi <= 1)
    by (apply unit_ratio; unfold pi in *; lra).
  assert (Ecl : cl = brightness * yl * (1 - contrast * (HueDiff ch yh / pi))).
  { unfold Qualitative.lightness_hue in Hlh.
    destruct (fdiv (IZR i) (IZR n - 1)) as [t |]; [| discriminate].
    cbn [bind] in Hlh.
    destruct (fmodf _ twopi) as [ch' |]; [| discriminate].
    cbn [bind ret] in Hlh. injection Hlh as <- <-. ring. }
  split; [exact Ecl |].
  set (a := HueDiff ch yh / pi) in *.
  assert (0 <= brightness * yl) by (apply Rmult_le_pos; lra).
  assert (H1 : 0 <= contrast * a) by (apply Rmult_le_pos; lra).
  assert (H2 : 0 <= contrast * (1 - a)) by (apply Rmult_le_pos; lra).
  assert (H3 : 0 <= brightness * yl * (contrast * a))
    by (apply Rmult_le_pos; lra).
  assert (H4 : 0 <= brightness * yl * (contrast * (1 - a)))
    by (apply Rmult_le_pos; lra).
  rewrite Ecl. split; lra.
Qed.

(** X21.  For [n >= 2], an index [i >= 0], a hue and a
    divergence that are not negative, a contrast in [0, 1] and a brightness
    that is not negative: the hue [ch] of entry [i] is in [0, 2 PI), and its
    lightness is [brightness yl (1 - contrast HueDiff(ch, yh) / PI)], between
    [(1 - contrast) brightness yl] and [brightness yl], with [yl] and [yh]
    the lightness and hue of yellow. *)
Theorem Qualitative_lightness_range (n : Z)
    (hue divergence contrast brightness : R) (i : Z) :
  (2 <= n)%Z -> (0 <= i)%Z -> 0 <= hue -> 0 <= divergence ->
  0 <= contrast <= 1 -> 0 <= brightness ->
  exists yl yh cl ch,
    Qualitative.yellow = Some (yl, yh) /\
    Qualitative.lightness_hue n hue divergence contrast brightness yl yh i
      = Some (cl, ch) /\
    0 <= ch < twopi /\
    cl = brightness * yl * (1 - contrast * (HueDiff ch yh / pi)) /\
    (1 - contrast) * (brightness * yl) <= cl <= brightness * yl.
Proof. apply Qualitative_lightness_range_aux. Qed.

Lemma Qualitative_lightness_range_witness :
  exists yl yh cl ch,
    Qualitative.yellow = Some (yl, yh) /\
    Qualitative.lightness_hue 2 0 1 1 1 yl yh 1 = Some (cl, ch) /\
    0 <= ch < twopi /\
    cl = 1 * yl * (1 - 1 * (HueDiff ch yh / pi)) /\
    (1 - 1) * (1 * yl) <= cl <= 1 * yl.
Proof. apply (Qualitative_lightness_range 2 0 1 1 1 1); (lia || lra). Defined.

(** ** Symmetry of diverging maps *)

Lemma Diverging_neutral_sym (n : Z) (cp0 cp1 : ColorPoints)
    (contrast brightness warmth pbh : R) :
  Diverging.neutral n cp1 cp0 contrast brightness warmth pbh
  = Diverging.neutral n cp0 cp1 contrast brightness warmth pbh.
Proof.
  unfold Diverging.neutral.
  destruct (get_colormap_entry 1 (p0 cp0) _ _ _ _ _ _) as [c0 |];
    destruct (get_colormap_entry 1 (p0 cp1) _ _ _ _ _ _) as [c1 |];
    cbn [bind ret]; try reflexivity.
  destruct (n <=? 9)%Z.
  - rewrite !luv_saturation_total. cbn [bind ret].
    replace (0.5 * (LUV.l c1 + LUV.l c0)) with (0.5 * (LUV.l c0 + LUV.l c1))
      by ring.
    destruct (Smax _ pbh) as [sm |]; [| reflexivity]. cbn [bind ret].
    replace (hypotf (LUV.u c1) (LUV.v c1) / Rmax (LUV.l c1) 1e-8
             + hypotf (LUV.u c0) (LUV.v c0) / Rmax (LUV.l c0) 1e-8)
      with (hypotf (LUV.u c0) (LUV.v c0) / Rmax (LUV.l c0) 1e-8
            + hypotf (LUV.u c1) (LUV.v c1) / Rmax (LUV.l c1) 1e-8) by ring.
    reflexivity.
  - unfold ret. f_equal. apply luv_eq; luv_fields; ring.
Qed.

Lemma quot2_bounds (n : Z) :
  (0 <= n)%Z -> (2 * Z.quot n 2 <= n < 2 * Z.quot n 2 + 2)%Z /\
                (Z.rem n 2 = n - 2 * Z.quot n 2)%Z.
Proof.
  intros Hn.
  pose proof (Z.quot_rem' n 2) as E.
  pose proof (Z.rem_bound_pos n 2 Hn ltac:(lia)) as Hb.
  lia.
Qed.

Lemma Diverging_mirror_aux (n : Z) (cp0 cp1 : ColorPoints)
    (contrast brightness warmth pbh : R) (i : Z) :
  (2 <= n)%Z -> (0 <= i < n)%Z ->
  Diverging.color n cp0 cp1 contrast brightness warmth pbh (n - 1 - i)
  = Diverging.color n cp1 cp0 contrast brightness warmth pbh i.
Proof.
  intros Hn Hi.
  destruct (quot2_bounds n ltac:(lia)) as [Hq Hr].
  unfold Diverging.color.
  set (m := Z.quot n 2) in *.
  assert (Et : forall j, fdiv (IZR j) (IZR n - 1) = Some (IZR j / (IZR n - 1)))
    by (intros j; now apply Helix_fract).
  assert (Hd : IZR n - 1 <> 0) by (apply IZR_le in Hn; lra).
  destruct (Z.rem n 2 =? 1)%Z eqn:Eodd.
  - apply Z.eqb_eq in Eodd.
    destruct (i =? m)%Z eqn:Em.
    + apply Z.eqb_eq in Em.
      replace (n - 1 - i =? m)%Z with true by (symmetry; apply Z.eqb_eq; lia).
      simpl. apply Diverging_neutral_sym.
    + apply Z.eqb_neq in Em.
      replace (n - 1 - i =? m)%Z with false by (symmetry; apply Z.eqb_neq; lia).
      simpl. rewrite !Et. cbn [bind ret].
      destruct (i <? m)%Z eqn:El.
      * apply Z.ltb_lt in El.
        replace (n - 1 - i <? m)%Z with false
          by (symmetry; apply Z.ltb_ge; lia).
        replace (2 * (1 - IZR (n - 1 - i) / (IZR n - 1)))
          with (2 * (IZR i / (IZR n - 1)))
          by (rewrite !minus_IZR; field; exact Hd).
        reflexivity.
      * apply Z.ltb_ge in El.
        replace (n - 1 - i <? m)%Z with true
          by (symmetry; apply Z.ltb_lt; lia).
        replace (2 * (IZR (n - 1 - i) / (IZR n - 1)))
          with (2 * (1 - IZR i / (IZR n - 1)))
          by (rewrite !minus_IZR; field; exact Hd).
        reflexivity.
  - apply Z.eqb_neq in Eodd. simpl. rewrite !Et. cbn [bind ret].
    destruct (i <? m)%Z eqn:El.
    + apply Z.ltb_lt in El.
      replace (n - 1 - i <? m)%Z with false
        by (symmetry; apply Z.ltb_ge; lia).
      replace (2 * (1 - IZR (n - 1 - i) / (IZR n - 1)))
        with (2 * (IZR i / (IZR n - 1)))
        by (rewrite !minus_IZR; field; exact Hd).
      reflexivity.
    + apply Z.ltb_ge in El.
      replace (n - 1 - i <? m)%Z with true
        by (symmetry; apply Z.ltb_lt; lia).
      replace (2 * (IZR (n - 1 - i) / (IZR n - 1)))
        with (2 * (1 - IZR i / (IZR n - 1)))
        by (rewrite !minus_IZR; field; exact Hd).
      reflexivity.
Qed.

(** X22.  For [n >= 2] and [i] in [0, n): entry [n - 1 - i] of a
    diverging map is entry [i] of the map with the two sides exchanged (the
    same colour, or a fault in both). *)
Theorem Diverging_mirror (n : Z) (cp0 cp1 : ColorPoints)
    (contrast brightness warmth pbh : R) (i : Z) :
  (2 <= n)%Z -> (0 <= i < n)%Z ->
  Diverging.color n cp0 cp1 contrast brightness warmth pbh (n - 1 - i)
  = Diverging.color n cp1 cp0 contrast brightness warmth pbh i.
Proof. apply Diverging_mirror_aux. Qed.

Lemma Diverging_mirror_witness :
  Diverging.color 3
    (mkPoints (LUV.mk 0 0 0) (LUV.mk 50 0 0) (LUV.mk 100 0 0)
       (LUV.mk 50 0 0) (LUV.mk 50 0 0) (LUV.mk 50 0 0))
    (mkPoints (LUV.mk 0 0 0) (LUV.mk 60 0 0) (LUV.mk 100 0 0)
       (LUV.mk 60 0 0) (LUV.mk 60 0 0) (LUV.mk 60 0 0))
    1 1 1 0 (3 - 1 - 0)
  = Diverging.color 3
      (mkPoints (LUV.mk 0 0 0) (LUV.mk 60 0 0) (LUV.mk 100 0 0)
         (LUV.mk 60 0 0) (LUV.mk 60 0 0) (LUV.mk 60 0 0))
      (mkPoints (LUV.mk 0 0 0) (LUV.mk 50 0 0) (LUV.mk 100 0 0)
         (LUV.mk 50 0 0) (LUV.mk 50 0 0) (LUV.mk 50 0 0))
      1 1 1 0 0.
Proof. apply Diverging_mirror; lia. Defined.

(** ** The loops of the Brewer generators *)

(** The loop of a generator converts the colours of the indices in turn
    and faults at the first index whose colour or conversion faults. *)
Lemma write_loop_spec (color : Z -> option LUVColor) (count : nat) (i : Z)
    (colormap : list srgb8) :
  for_loop (write_entry color) i count colormap =
  (ys <- mapM (fun j => c <- color j ;; convert_colormap_entry c)
              (zrange i count) ;;
   ret (colormap ++ ys)).
Proof.
  revert i colormap. induction count as [| count IH]; intros i colormap.
  - simpl. unfold ret. now rewrite app_nil_r.
  - simpl. unfold write_entry at 1.
    destruct (color i) as [c |]; [| reflexivity]. cbn [bind].
    destruct (convert_colormap_entry c) as [b |]; [| reflexivity].
    cbn [bind ret]. rewrite IH.
    destruct (mapM _ (zrange (i + 1) count)) as [ys |]; [| reflexivity].
    cbn [bind ret]. unfold ret. now rewrite <- app_assoc.
Qed.

Lemma mapM_fault {A C : Type} (f : A -> option C) (xs : list A) (x : A) :
  In x xs -> f x = None -> mapM f xs = None.
Proof.
  intros Hin Hx. induction xs as [| y xs IH]; [destruct Hin |].
  simpl. destruct Hin as [-> | Hin].
  - now rewrite Hx.
  - destruct (f y); [| reflexivity]. cbn [bind]. now rewrite (IH Hin).
Qed.

Lemma write_loop_fault (color : Z -> option LUVColor) (n k : Z) :
  (0 <= k < n)%Z ->
  (c <- color k ;; convert_colormap_entry c) = None ->
  for_loop (write_entry color) 0%Z (Z.to_nat n) [] = None.
Proof.
  intros Hk Hf. rewrite write_loop_spec.
  rewrite (mapM_fault _ _ k); [reflexivity | | exact Hf].
  apply zrange_In. lia.
Qed.

(** ** Full contrast *)

(** At position 0 with contrast 1 the lightness asked for is 0, and the
    colour found, if there is one, has lightness 0. *)
Lemma entry_dark (p0 p2 q0 q1 q2 c : LUVColor) (brightness : R) :
  LUV.l p0 = 0 -> 0 <= LUV.l q0 -> 0 <= LUV.l q1 ->
  get_colormap_entry 0 p0 p2 q0 q1 q2 1 brightness = Some c ->
  LUV.l c = 0.
Proof.
  intros H0 Hq0 Hq1 H. unfold get_colormap_entry in H.
  rewrite target_lightness_dark in H. cbn [bind ret] in H.
  replace (fleb 0 (LUV.l q1)) with true in H
    by (symmetry; now apply fleb_true).
  unfold invB in H. rewrite H0 in H.
  replace (LUV.l q0 * LUV.l q0 - 0 * LUV.l q1
           + (0 - 2 * LUV.l q0 + LUV.l q1) * 0)
    with (LUV.l q0 * LUV.l q0) in H by ring.
  rewrite fmax_nonneg in H by (apply Rmult_le_pos; assumption).
  rewrite sqrtf_nonneg in H by (apply Rmult_le_pos; assumption).
  rewrite sqrt_square in H by assumption. cbn [bind ret] in H.
  destruct (fdiv _ _) as [s |] eqn:Es; [| discriminate].
  apply fdiv_inv in Es. destruct Es as [HA Es].
  assert (Hs0 : s = 0) by (rewrite Es; unfold Rdiv; ring).
  clear Es. subst s.
  cbn [bind ret] in H.
  replace (fleb (0.5 * 0) 0.5) with true in H
    by (symmetry; apply fleb_true; lra).
  cbv iota in H. injection H as <-. rewrite B_lightness, H0. ring.
Qed.

Lemma entry_dark_fault (p0 p2 q0 q1 q2 : LUVColor) (brightness : R) :
  LUV.l p0 = 0 -> 0 <= LUV.l q0 -> 0 <= LUV.l q1 ->
  (c <- get_colormap_entry 0 p0 p2 q0 q1 q2 1 brightness ;;
   convert_colormap_entry c) = None.
Proof.
  intros H0 Hq0 Hq1.
  destruct (get_colormap_entry _ _ _ _ _ _ _ _) as [c |] eqn:E;
    [| reflexivity].
  cbn [bind]. apply convert_dark.
  apply (entry_dark p0 p2 q0 q1 q2 c brightness); assumption.
Qed.

Lemma color_points_dark_end (hue saturation warmth : R) (pb : LUVColor)
    (pbh pbs : R) (cp : ColorPoints) :
  0 <= saturation <= 1 -> 0 <= warmth <= 1 ->
  bright_point_lch = Some (pb, pbh, pbs) ->
  get_color_points hue saturation warmth pb pbh pbs = Some cp ->
  LUV.l (p0 cp) = 0 /\ 0 <= LUV.l (q0 cp) /\ 0 <= LUV.l (q1 cp).
Proof.
  intros Hs Hw Hb Hcp.
  destruct (color_points_order hue saturation warmth pb pbh pbs cp
              Hs Hw Hb Hcp) as [[H1 H2] _].
  assert (H0 : LUV.l (p0 cp) = 0).
  { unfold get_color_points, lch_to_luv in Hcp.
    destruct (most_saturated_in_srgb hue); [| discriminate].
    cbn [bind] in Hcp. destruct (mix_hue _ _ _); [| discriminate].
    cbn [bind] in Hcp. destruct (Smax _ _); [| discriminate].
    cbn [bind ret] in Hcp. injection Hcp as <-. reflexivity. }
  lra.
Qed.

(** X23.  With a contrast of 1, for [n >= 2] and a saturation
    and a warmth in [0, 1], whatever the hue, the divergence and the
    brightness: BrewerSequential and BrewerDiverging fault.  The entry at
    the dark end asks for the lightness 0 and is black, for which
    [luv_to_xyz] divides 0 by [13 * 0]. *)
Theorem full_contrast_faults (n : Z) (hue divergence saturation brightness
    warmth : R) :
  (2 <= n)%Z -> 0 <= saturation <= 1 -> 0 <= warmth <= 1 ->
  BrewerSequential n hue 1 saturation brightness warmth = None /\
  BrewerDiverging n hue divergence 1 saturation brightness warmth = None.
Proof.
  intros Hn Hs Hw. split.
  - unfold BrewerSequential.
    destruct bright_point_lch as [[[pb pbh] pbs] |] eqn:Eb; [| reflexivity].
    cbn [bind].
    destruct (get_color_points _ _ _ _ _ _) as [cp |] eqn:Ecp;
      [| reflexivity].
    cbn [bind].
    destruct (color_points_dark_end _ _ _ _ _ _ _ Hs Hw Eb Ecp)
      as (H0 & H1 & H2).
    apply (write_loop_fault _ n (n - 1)); [lia |].
    unfold Sequential.color. rewrite Helix_fract by assumption.
    cbn [bind ret].
    replace (IZR (n - 1 - (n - 1)) / (IZR n - 1)) with 0
      by (replace (n - 1 - (n - 1))%Z with 0%Z by lia; unfold Rdiv; ring).
    now apply entry_dark_fault.
  - unfold BrewerDiverging. cbv zeta.
    set (hue1 := if fleb twopi (hue + divergence) then _ else _).
    destruct bright_point_lch as [[[pb pbh] pbs] |] eqn:Eb; [| reflexivity].
    cbn [bind].
    destruct (get_color_points hue _ _ _ _ _) as [cp0 |] eqn:Ecp0;
      [| reflexivity].
    cbn [bind].
    destruct (get_color_points hue1 _ _ _ _ _) as [cp1 |] eqn:Ecp1;
      [| reflexivity].
    cbn [bind].
    destruct (color_points_dark_end _ _ _ _ _ _ _ Hs Hw Eb Ecp0)
      as (H0 & H1 & H2).
    apply (write_loop_fault _ n 0); [lia |].
    destruct (quot2_bounds n ltac:(lia)) as [Hq _].
    unfold Diverging.color.
    replace (0 =? Z.quot n 2)%Z with false
      by (symmetry; apply Z.eqb_neq; lia).
    rewrite andb_false_r. rewrite Helix_fract by assumption.
    cbn [bind ret].
    replace (0 <? Z.quot n 2)%Z with true by (symmetry; apply Z.ltb_lt; lia).
    replace (2 * (IZR 0 / (IZR n - 1))) with 0 by (unfold Rdiv; ring).
    now apply entry_dark_fault.
Qed.

Lemma full_contrast_faults_witness :
  BrewerSequential 2 0 1 1 1 0 = None /\
  BrewerDiverging 2 0 1 1 1 1 0 = None.
Proof. apply (full_contrast_faults 2 0 1 1 1 0); (lia || lra). Defined.

(** ** The bright end *)






(** ** Lightness of gamut colours *)

Lemma lightness_of_white : lightness_of 100 = 100.
Proof.
  rewrite lightness_of_high by lra.
  replace (100 / 100) with 1 by lra.
  unfold cbrtf. destruct (Rlt_dec 0 1); [| lra].
  rewrite Rpower_one. lra.
Qed.

(** X26.  For a linear RGB colour of the unit cube that is not
    black, [rgb_to_xyz] followed by [xyz_to_luv] returns a lightness in
    (0, 100]; for white it is 100. *)
Theorem rgb_lightness_range (r g b : R) :
  0 <= r <= 1 -> 0 <= g <= 1 -> 0 <= b <= 1 -> 0 < r + g + b ->
  let '(x, y, z) := rgb_to_xyz r g b in
  exists l u v,
    xyz_to_luv x y z = Some (l, u, v) /\ 0 < l <= 100 /\
    (r = 1 -> g = 1 -> b = 1 -> l = 100).
Proof.
  intros Hr Hg Hb H.
  pose proof (rgb_to_luv_some r g b ltac:(lra) ltac:(lra) ltac:(lra) H) as E.
  pose proof (luv_of_rgb_l_pos r g b ltac:(lra) ltac:(lra) ltac:(lra) H) as Hl.
  pose proof (luma_pos r g b ltac:(lra) ltac:(lra) ltac:(lra) H) as Hy.
  unfold rgb_to_luv in E.
  destruct (rgb_to_xyz r g b) as [[x y] z].
  destruct (xyz_to_luv x y z) as [[[l u] v] |]; [| discriminate].
  cbn [bind ret] in E. injection E as E.
  exists l, u, v. split; [reflexivity |].
  assert (El : l = lightness_of (luma r g b)).
  { change l with (LUV.l (LUV.mk l u v)). now rewrite E. }
  split; [split |].
  - rewrite El. exact Hl.
  - rewrite El, <- lightness_of_white.
    apply lightness_of_mono; [exact Hy | unfold luma; lra].
  - intros -> -> ->. rewrite El, <- lightness_of_white.
    f_equal. unfold luma. lra.
Qed.

Lemma rgb_lightness_range_witness :
  let '(x, y, z) := rgb_to_xyz 1 1 1 in
  exists l u v,
    xyz_to_luv x y z = Some (l, u, v) /\ 0 < l <= 100 /\
    (1 = 1 -> 1 = 1 -> 1 = 1 -> l = 100).
Proof. apply (rgb_lightness_range 1 1 1); lra. Defined.

(** ** The qualitative generator returns *)

(** The saturation of red is below 3.9. *)
Lemma red_saturation_bound :
  exists rs, Qualitative.red_saturation = Some rs /\ 0 <= rs <= 3.9.
Proof.
  rewrite Qualitative_red_saturation_some, luv_saturation_total.
  eexists. split; [reflexivity |].
  pose proof (luv_of_rgb_l_pos 1 0 0 ltac:(lra) ltac:(lra) ltac:(lra)
                ltac:(lra)) as Hl.
  set (c := luv_of_rgb 1 0 0) in *.
  assert (Hh : hypotf (LUV.u c) (LUV.v c) <= 3.9 * LUV.l c).
  { apply sqr_le.
    - unfold hypotf. apply sqrt_pos.
    - lra.
    - rewrite hypotf_sqr. unfold c, luv_of_rgb. cbn [LUV.l LUV.u LUV.v].
      set (L := lightness_of (luma 1 0 0)).
      assert (Hd : chroma_du 1 0 0 * chroma_du 1 0 0
                   + chroma_dv 1 0 0 * chroma_dv 1 0 0 <= 0.09).
      { unfold chroma_du, chroma_dv, rgb_to_xyz.
        rewrite d65_u_prime_val, d65_v_prime_val. lra. }
      assert (0 <= L * L) by (apply Rle_0_sqr).
      nra. }
  assert (Hm : 1e-8 <= LUV.l c).
  { unfold c, luv_of_rgb. cbn [LUV.l].
    apply Rle_trans with (116 * 0.21 - 16); [lra |].
    apply Rlt_le, lightness_of_gt; [lra | unfold luma; lra]. }
  rewrite Rmax_floor by exact Hm.
  split.
  - apply Rmult_le_pos; [unfold hypotf; apply sqrt_pos |].
    apply Rlt_le, Rinv_0_lt_compat, Hl.
  - apply Rmult_le_reg_r with (LUV.l c); [exact Hl |].
    unfold Rdiv. rewrite Rmult_assoc, Rinv_l by lra. lra.
Qed.

Lemma Qualitative_entry_total (n : Z)
    (hue divergence contrast saturation brightness : R) (rs : R) (i : Z) :
  (2 <= n)%Z -> (0 <= i)%Z -> 0 <= hue -> 0 <= divergence ->
  0 <= contrast < 1 -> 0 <= saturation <= 1 -> 0 < brightness <= 1 ->
  0 <= rs <= 3.9 ->
  exists bytes,
    (c <- Qualitative.color n hue divergence contrast saturation brightness
            (LUV.l (luv_of_rgb 1 1 0)) (hue_of_rgb 1 1 0) rs i ;;
     convert_colormap_entry c) = Some bytes.
Proof.
  intros Hn Hi Hh Hd Hc Hs Hb Hrs.
  destruct (Qualitative_lightness_range_aux n hue divergence contrast
              brightness i Hn Hi Hh Hd ltac:(lra) ltac:(lra))
    as (yl & yh & cl & ch & Hy & Hlh & Hch & Ecl & Hcl).
  rewrite Qualitative_yellow_some in Hy. injection Hy as <- <-.
  pose proof (edge_luv_bounds 1 2 0 1) as [[Hy1 _] Hy2];
    [unfold sector_indices; simpl; tauto | lra |].
  unfold edge_triple in Hy1, Hy2. simpl in Hy1, Hy2.
  change (lightness_of (luma 1 1 0)) with (LUV.l (luv_of_rgb 1 1 0)) in *.
  set (yl := LUV.l (luv_of_rgb 1 1 0)) in *.
  assert (Hby : 0 < brightness * yl) by (apply Rmult_lt_0_compat; lra).
  assert (Hby2 : brightness * yl <= yl) by nra.
  assert (Hcl0 : 0 < cl).
  { assert (0 < (1 - contrast) * (brightness * yl))
      by (apply Rmult_lt_0_compat; lra).
    lra. }
  unfold twopi in Hch.
  destruct (Smax_profile_aux ch Hch) as (pm & smid & _ & _ & _ & _ & _ & _ & HS).
  destruct (HS cl ltac:(lra)) as (sm & Hsm & Hsm0).
  unfold Qualitative.color. rewrite Hlh. cbn [bind ret].
  rewrite Hsm. cbn [bind ret]. unfold lch_to_luv, lch_chroma.
  rewrite fmin_Rmin.
  set (cs := Rmin sm (saturation * rs)).
  assert (Hcs : 0 <= cs <= 3.9).
  { assert (0 <= saturation * rs) by (apply Rmult_le_pos; lra).
    assert (saturation * rs <= 3.9) by nra.
    unfold cs, Rmin. destruct (Rle_dec sm (saturation * rs)); lra. }
  apply convert_defined; cbn [LUV.l LUV.u LUV.v].
  - lra.
  - replace (cs * cl * sin ch / (13 * cl)) with (cs * sin ch / 13)
      by (field; lra).
    rewrite d65_v_prime_val.
    pose proof (SIN_bound ch) as [Hs1 Hs2].
    assert (- 3.9 <= cs * sin ch) by nra.
    lra.
Qed.

(** X27.  For [n >= 2], a hue and a divergence that are not
    negative, a contrast in [0, 1), a saturation in [0, 1] and a brightness
    in (0, 1], BrewerQualitative returns, and returns [n] entries. *)
Theorem BrewerQualitative_total (n : Z)
    (hue divergence contrast saturation brightness : R) :
  (2 <= n)%Z -> 0 <= hue -> 0 <= divergence ->
  0 <= contrast < 1 -> 0 <= saturation <= 1 -> 0 < brightness <= 1 ->
  exists colormap,
    BrewerQualitative n hue divergence contrast saturation brightness
      = Some colormap /\
    length colormap = Z.to_nat n.
Proof.
  intros Hn Hh Hd Hc Hs Hb.
  destruct red_saturation_bound as (rs & Hrs & Hr).
  unfold BrewerQualitative.
  rewrite Qualitative_yellow_some, Hrs. cbn [bind ret].
  rewrite write_loop_spec.
  destruct (mapM_total
              (fun j =>
                 c <- Qualitative.color n hue divergence contrast saturation
                        brightness (LUV.l (luv_of_rgb 1 1 0))
                        (hue_of_rgb 1 1 0) rs j ;;
                 convert_colormap_entry c)
              (zrange 0 (Z.to_nat n))) as (ys & Hys).
  { intros j Hj. apply zrange_In in Hj.
    apply Qualitative_entry_total; (assumption || lia). }
  rewrite Hys. cbn [bind ret app].
  exists ys. split; [reflexivity |].
  rewrite (mapM_length _ _ _ Hys). apply zrange_length.
Qed.

Lemma BrewerQualitative_total_witness :
  exists colormap,
    BrewerQualitative 2 0 1 (1 / 2) 1 1 = Some colormap /\
    length colormap = Z.to_nat 2.
Proof. apply BrewerQualitative_total; (lia || lra). Defined.

(** ** The sequential generator returns *)

(** On a curve whose control lightnesses are in order, a lightness between
    the first and the last is reached at a parameter in [0, 1]. *)
Lemma invB_in_range (b0 b1 b2 v : R) :
  b0 <= b1 <= b2 -> b0 - 2 * b1 + b2 <> 0 -> b0 <= v <= b2 ->
  exists s, invB b0 b1 b2 v = Some s /\ 0 <= s <= 1 /\
            b0 + 2 * (b1 - b0) * s + (b0 - 2 * b1 + b2) * (s * s) = v.
Proof.
  intros Hb HA Hv.
  destruct (invB_some b0 b1 b2 v HA) as (s & Hs).
  exists s. split; [exact Hs |].
  destruct (invB_spec _ _ _ _ _ Hs) as (_ & r & Hr & Hrr & Ht).
  cbv zeta in Hrr, Ht.
  set (A := b0 - 2 * b1 + b2) in *.
  set (D := b1 * b1 - b0 * b2 + A * v) in *.
  assert (E1 : D = (b1 - b0) * (b1 - b0) + A * (v - b0))
    by (unfold D, A; ring).
  assert (E2 : D = (b2 - b1) * (b2 - b1) - A * (b2 - v))
    by (unfold D, A; ring).
  assert (Hsq1 : 0 <= (b1 - b0) * (b1 - b0)) by (apply Rle_0_sqr).
  assert (Hsq2 : 0 <= (b2 - b1) * (b2 - b1)) by (apply Rle_0_sqr).
  destruct (Rtotal_order A 0) as [Hn | [Hz | Hp]]; [| contradiction |].
  - (* concave *)
    assert (H1 : 0 <= - A * (b2 - v)) by (apply Rmult_le_pos; lra).
    assert (H2 : 0 <= - A * (v - b0)) by (apply Rmult_le_pos; lra).
    assert (HD : 0 <= D) by lra.
    rewrite Rmax_left in Hrr by exact HD.
    assert (Hlo : b2 - b1 <= r) by (apply sqr_le; lra).
    assert (Hhi : r <= b1 - b0) by (apply sqr_le; lra).
    split; [split |].
    + apply le_of_mult_neg with A; [exact Hn |]. lra.
    + apply le_of_mult_neg with A; [exact Hn |]. unfold A in *. lra.
    + apply Rmult_eq_reg_l with A; [| exact HA].
      replace (A * (b0 + 2 * (b1 - b0) * s + A * (s * s)))
        with (A * b0 + 2 * (b1 - b0) * (s * A) + (s * A) * (s * A)) by ring.
      rewrite Ht.
      replace (A * b0 + 2 * (b1 - b0) * (b0 - b1 + r)
               + (b0 - b1 + r) * (b0 - b1 + r))
        with (A * b0 - (b0 - b1) * (b0 - b1) + r * r) by ring.
      rewrite Hrr. unfold D, A. ring.
  - (* convex *)
    assert (H1 : 0 <= A * (b2 - v)) by (apply Rmult_le_pos; lra).
    assert (H2 : 0 <= A * (v - b0)) by (apply Rmult_le_pos; lra).
    assert (HD : 0 <= D) by lra.
    rewrite Rmax_left in Hrr by exact HD.
    assert (Hlo : b1 - b0 <= r) by (apply sqr_le; lra).
    assert (Hhi : r <= b2 - b1) by (apply sqr_le; lra).
    split; [split |].
    + apply le_of_mult_pos with A; [exact Hp |]. lra.
    + apply le_of_mult_pos with A; [exact Hp |]. unfold A in *. lra.
    + apply Rmult_eq_reg_l with A; [| exact HA].
      replace (A * (b0 + 2 * (b1 - b0) * s + A * (s * s)))
        with (A * b0 + 2 * (b1 - b0) * (s * A) + (s * A) * (s * A)) by ring.
      rewrite Ht.
      replace (A * b0 + 2 * (b1 - b0) * (b0 - b1 + r)
               + (b0 - b1 + r) * (b0 - b1 + r))
        with (A * b0 - (b0 - b1) * (b0 - b1) + r * r) by ring.
      rewrite Hrr. unfold D, A. ring.
Qed.

(** With control lightnesses in order and a target lightness between the
    first and the last, the entry is a point of one of the two curves, at
    a parameter in [0, 1], and has the target lightness. *)
Lemma entry_in_range (t contrast brightness l : R)
    (p0 p2 q0 q1 q2 : LUVColor) :
  LUV.l p0 <= LUV.l q0 <= LUV.l q1 ->
  LUV.l q1 <= LUV.l q2 <= LUV.l p2 ->
  LUV.l p0 - 2 * LUV.l q0 + LUV.l q1 <> 0 ->
  LUV.l q1 - 2 * LUV.l q2 + LUV.l p2 <> 0 ->
  target_lightness t contrast brightness = Some l ->
  LUV.l p0 <= l <= LUV.l p2 ->
  exists s, 0 <= s <= 1 /\
    (get_colormap_entry t p0 p2 q0 q1 q2 contrast brightness
       = Some (B p0 q0 q1 s) /\ LUV.l (B p0 q0 q1 s) = l
     \/
     get_colormap_entry t p0 p2 q0 q1 q2 contrast brightness
       = Some (B q1 q2 p2 s) /\ LUV.l (B q1 q2 p2 s) = l).
Proof.
  intros H1 H2 HA HA' Ht Hl.
  unfold get_colormap_entry. rewrite Ht. cbn [bind ret].
  destruct (fleb l (LUV.l q1)) eqn:E.
  - apply fleb_true in E.
    destruct (invB_in_range _ _ _ l H1 HA ltac:(lra)) as (s & Hs & Hr & Hv).
    rewrite Hs. cbn [bind ret]. exists s. split; [exact Hr |]. left.
    replace (fleb (0.5 * s) 0.5) with true
      by (symmetry; apply fleb_true; lra).
    replace (2 * (0.5 * s)) with s by lra.
    split; [reflexivity |]. rewrite B_lightness. exact Hv.
  - apply fleb_false in E.
    destruct (invB_in_range _ _ _ l H2 HA' ltac:(lra)) as (s & Hs & Hr & Hv).
    rewrite Hs. cbn [bind ret]. exists s. split; [exact Hr |]. right.
    assert (Hs0 : s <> 0).
    { intros ->.
      replace (LUV.l q1 + 2 * (LUV.l q2 - LUV.l q1) * 0
               + (LUV.l q1 - 2 * LUV.l q2 + LUV.l p2) * (0 * 0))
        with (LUV.l q1) in Hv by ring.
      lra. }
    replace (fleb (0.5 * s + 0.5) 0.5) with false
      by (symmetry; apply fleb_false; lra).
    replace (2 * (0.5 * s + 0.5 - 0.5)) with s by lra.
    split; [reflexivity |]. rewrite B_lightness. exact Hv.
Qed.

(** The saturation bound is not negative for a lightness in [0, 100]. *)
Lemma Smax_nonneg (l h sm : R) :
  Smax l h = Some sm -> 0 <= l <= 100 -> 0 <= sm.
Proof.
  intros H Hl.
  destruct (most_saturated_in_srgb h) as [pmid |] eqn:Em.
  2:{ unfold Smax in H. rewrite Em in H. discriminate. }
  rewrite (Smax_eval l h pmid Em) in H. injection H as <-.
  destruct (most_saturated_inv h pmid Em) as (i & j & k & t & Hin & Ht & E).
  pose proof (edge_luv_bounds i j k t Hin Ht) as [[Hlo _] Hhi].
  cbv zeta in E, Hlo, Hhi. rewrite <- E in Hlo, Hhi.
  assert (Hh : 0 <= hypotf (LUV.u pmid) (LUV.v pmid) / LUV.l pmid).
  { apply Rmult_le_pos; [unfold hypotf; apply sqrt_pos |].
    apply Rlt_le, Rinv_0_lt_compat. lra. }
  apply Rmult_le_pos; [| exact Hh].
  destruct (fltb (LUV.l pmid) l) eqn:Ef.
  - apply fltb_true in Ef. apply unit_ratio; lra.
  - apply fltb_false in Ef.
    replace ((0 - l) / (0 - LUV.l pmid)) with (l / LUV.l pmid)
      by (field; lra).
    apply unit_ratio; lra.
Qed.

(** The saturation of the bright point is below 2. *)
Lemma bright_saturation_bound :
  0 <= hypotf (LUV.u (luv_of_rgb 1 1 0)) (LUV.v (luv_of_rgb 1 1 0))
       / Rmax (LUV.l (luv_of_rgb 1 1 0)) 1e-8 <= 2.
Proof.
  pose proof (luv_of_rgb_l_pos 1 1 0 ltac:(lra) ltac:(lra) ltac:(lra)
                ltac:(lra)) as Hl.
  set (c := luv_of_rgb 1 1 0) in *.
  assert (Hh : hypotf (LUV.u c) (LUV.v c) <= 2 * LUV.l c).
  { apply sqr_le.
    - unfold hypotf. apply sqrt_pos.
    - lra.
    - rewrite hypotf_sqr. unfold c, luv_of_rgb. cbn [LUV.l LUV.u LUV.v].
      set (L := lightness_of (luma 1 1 0)).
      assert (Hd : chroma_du 1 1 0 * chroma_du 1 1 0
                   + chroma_dv 1 1 0 * chroma_dv 1 1 0 <= 0.02).
      { unfold chroma_du, chroma_dv, rgb_to_xyz.
        rewrite d65_u_prime_val, d65_v_prime_val. lra. }
      assert (0 <= L * L) by (apply Rle_0_sqr).
      nra. }
  assert (Hm : 1e-8 <= LUV.l c).
  { unfold c, luv_of_rgb. cbn [LUV.l].
    apply Rle_trans with (116 * 0.21 - 16); [lra |].
    apply Rlt_le, lightness_of_gt; [lra | unfold luma; lra]. }
  rewrite Rmax_floor by exact Hm.
  split.
  - apply Rmult_le_pos; [unfold hypotf; apply sqrt_pos |].
    apply Rlt_le, Rinv_0_lt_compat, Hl.
  - apply Rmult_le_reg_r with (LUV.l c); [exact Hl |].
    unfold Rdiv. rewrite Rmult_assoc, Rinv_l by lra. lra.
Qed.

(** ** Colours that [luv_to_xyz] accepts

    The colours [x] with [l <= v + 13 l d65_v_prime]: when [l > 0] the
    chromaticity [v'] that [luv_to_xyz] divides by is at least [1 / 13].
    Sums and multiples by a factor that is not negative keep the
    property. *)

Lemma visible_add (a b : LUVColor) :
  LUV.l a <= LUV.v a + 13 * LUV.l a * d65_v_prime ->
  LUV.l b <= LUV.v b + 13 * LUV.l b * d65_v_prime ->
  LUV.l (luv_add a b)
  <= LUV.v (luv_add a b) + 13 * LUV.l (luv_add a b) * d65_v_prime.
Proof. luv_fields. lra. Qed.

Lemma visible_scale (k : R) (a : LUVColor) :
  0 <= k ->
  LUV.l a <= LUV.v a + 13 * LUV.l a * d65_v_prime ->
  LUV.l (luv_scale k a)
  <= LUV.v (luv_scale k a) + 13 * LUV.l (luv_scale k a) * d65_v_prime.
Proof.
  intros Hk H. luv_fields.
  assert (0 <= k * (LUV.v a + 13 * LUV.l a * d65_v_prime - LUV.l a))
    by (apply Rmult_le_pos; lra).
  lra.
Qed.

Lemma visible_B (x0 x1 x2 : LUVColor) (s : R) :
  0 <= s <= 1 ->
  LUV.l x0 <= LUV.v x0 + 13 * LUV.l x0 * d65_v_prime ->
  LUV.l x1 <= LUV.v x1 + 13 * LUV.l x1 * d65_v_prime ->
  LUV.l x2 <= LUV.v x2 + 13 * LUV.l x2 * d65_v_prime ->
  LUV.l (B x0 x1 x2 s)
  <= LUV.v (B x0 x1 x2 s) + 13 * LUV.l (B x0 x1 x2 s) * d65_v_prime.
Proof.
  intros Hs H0 H1 H2. unfold B. cbv zeta.
  apply visible_add; [apply visible_add |]; apply visible_scale;
    try assumption.
  - apply Rmult_le_pos; lra.
  - apply Rmult_le_pos; [apply Rmult_le_pos |]; lra.
  - apply Rmult_le_pos; lra.
Qed.

Lemma visible_rgb (r g b : R) :
  0 <= r -> 0 <= g -> 0 <= b -> 0 < r + g + b ->
  LUV.l (luv_of_rgb r g b)
  <= LUV.v (luv_of_rgb r g b) + 13 * LUV.l (luv_of_rgb r g b) * d65_v_prime.
Proof.
  intros Hr Hg Hb H.
  pose proof (luv_of_rgb_l_pos r g b Hr Hg Hb H) as Hl.
  pose proof (rgb_denominator_pos r g b Hr Hg Hb H) as Hd.
  unfold luv_of_rgb in *. cbn [LUV.l LUV.u LUV.v] in *.
  set (L := lightness_of (luma r g b)) in *.
  unfold chroma_dv. unfold rgb_to_xyz in *.
  set (x := (0.4124 * r + 0.3576 * g + 0.1805 * b) * 100) in *.
  set (y := (0.2126 * r + 0.7152 * g + 0.0722 * b) * 100) in *.
  set (z := (0.0193 * r + 0.1192 * g + 0.9505 * b) * 100) in *.
  replace (13 * L * (9 * y / (x + 15 * y + 3 * z) - d65_v_prime)
           + 13 * L * d65_v_prime)
    with (L * (117 * y / (x + 15 * y + 3 * z))) by (field; lra).
  assert (Hq : 1 <= 117 * y / (x + 15 * y + 3 * z)).
  { apply le_div; [exact Hd |]. unfold x, y, z. lra. }
  nra.
Qed.

Lemma visible_converts (c : LUVColor) :
  0 < LUV.l c ->
  LUV.l c <= LUV.v c + 13 * LUV.l c * d65_v_prime ->
  exists bytes, convert_colormap_entry c = Some bytes.
Proof.
  intros Hl Hv. apply convert_defined; [lra |].
  replace (LUV.v c / (13 * LUV.l c) + d65_v_prime)
    with ((LUV.v c + 13 * LUV.l c * d65_v_prime) / (13 * LUV.l c))
    by (field; lra).
  assert (0 < (LUV.v c + 13 * LUV.l c * d65_v_prime) / (13 * LUV.l c))
    by (apply Rdiv_lt_0_compat; lra).
  lra.
Qed.

(** The control points are colours that [luv_to_xyz] accepts. *)
Lemma color_points_visible (hue saturation warmth : R) (pb : LUVColor)
    (pbh pbs : R) (cp : ColorPoints) :
  0 <= saturation <= 1 -> 0 <= warmth <= 1 ->
  bright_point_lch = Some (pb, pbh, pbs) ->
  get_color_points hue saturation warmth pb pbh pbs = Some cp ->
  LUV.l (p0 cp) = 0 /\
  (forall x, x = p0 cp \/ x = q0 cp \/ x = q1 cp \/ x = q2 cp \/ x = p2 cp ->
             LUV.l x <= LUV.v x + 13 * LUV.l x * d65_v_prime).
Proof.
  intros Hs Hw Hb H.
  rewrite bright_point_lch_some in Hb. injection Hb as <- <- <-.
  pose proof bright_saturation_bound as Hpbs.
  set (pbs := hypotf _ _ / Rmax _ _) in *.
  unfold get_color_points in H. unfold lch_to_luv in H.
  destruct (most_saturated_in_srgb hue) as [c1 |] eqn:Hm; [| discriminate].
  cbn [bind ret] in H.
  destruct (mix_hue warmth hue _) as [p2h |]; [| discriminate].
  cbn [bind ret] in H.
  destruct (Smax _ p2h) as [sm |] eqn:Hsm; [| discriminate].
  cbn [bind ret] in H. unfold ret in H. injection H as <-.
  cbn [p0 p1 p2 q0 q1 q2].
  change (lightness_of (luma 1 1 0)) with (LUV.l (luv_of_rgb 1 1 0)).
  destruct (most_saturated_inv hue c1 Hm) as (i & j & k & t & Hin & Ht & E).
  destruct (edge_point_ok i j k t Hin Ht) as (e1 & e2 & e3 & e4).
  cbv zeta in E, e1, e2, e3, e4.
  assert (V1 : LUV.l c1 <= LUV.v c1 + 13 * LUV.l c1 * d65_v_prime)
    by (rewrite E; now apply visible_rgb).
  assert (Hy : 32 < LUV.l (luv_of_rgb 1 1 0) < 98).
  { pose proof (edge_luv_bounds 1 2 0 1) as [[Hy1 _] Hy2];
      [unfold sector_indices; simpl; tauto | lra |].
    unfold edge_triple in Hy1, Hy2. simpl in Hy1, Hy2.
    change (lightness_of (luma 1 1 0)) with (LUV.l (luv_of_rgb 1 1 0)) in *.
    lra. }
  set (yl := LUV.l (luv_of_rgb 1 1 0)) in *.
  set (p2l := (1 - warmth) * 100 + warmth * yl) in *.
  assert (Hp2l : 0 <= p2l <= 100).
  { assert (0 <= (1 - warmth) * 100) by (apply Rmult_le_pos; lra).
    assert (0 <= warmth * yl) by (apply Rmult_le_pos; lra).
    assert (0 <= warmth * (100 - yl)) by (apply Rmult_le_pos; lra).
    unfold p2l. lra. }
  pose proof (Smax_nonneg _ _ _ Hsm Hp2l) as Hsm0.
  set (P0 := LUV.mk 0 (0 * cos hue) (0 * sin hue)).
  set (P2 := LUV.mk p2l _ _).
  assert (V0 : LUV.l P0 <= LUV.v P0 + 13 * LUV.l P0 * d65_v_prime)
    by (unfold P0; cbn [LUV.l LUV.v]; lra).
  assert (V2 : LUV.l P2 <= LUV.v P2 + 13 * LUV.l P2 * d65_v_prime).
  { unfold P2. cbn [LUV.l LUV.v]. unfold lch_chroma. rewrite fmin_Rmin.
    set (cs := Rmin sm (warmth * saturation * pbs)).
    assert (Hcs : 0 <= cs <= 2).
    { assert (0 <= warmth * saturation) by (apply Rmult_le_pos; lra).
      assert (warmth * saturation <= 1) by nra.
      assert (0 <= warmth * saturation * pbs) by (apply Rmult_le_pos; lra).
      assert (warmth * saturation * pbs <= 2) by nra.
      unfold cs, Rmin. destruct (Rle_dec sm _); lra. }
    pose proof (SIN_bound p2h) as [Hs1 Hs2].
    assert (Hcsin : - 2 <= cs * sin p2h) by nra.
    rewrite d65_v_prime_val.
    assert (0 <= p2l * (cs * sin p2h + 2)) by (apply Rmult_le_pos; lra).
    lra. }
  assert (Vq0 : forall a b : LUVColor,
            LUV.l a <= LUV.v a + 13 * LUV.l a * d65_v_prime ->
            LUV.l b <= LUV.v b + 13 * LUV.l b * d65_v_prime ->
            LUV.l (luv_add (luv_scale (1 - saturation) a) (luv_scale saturation b))
            <= LUV.v (luv_add (luv_scale (1 - saturation) a)
                              (luv_scale saturation b))
               + 13 * LUV.l (luv_add (luv_scale (1 - saturation) a)
                                     (luv_scale saturation b)) * d65_v_prime).
  { intros a b Ha Hb'. apply visible_add; apply visible_scale;
      (assumption || lra). }
  split; [reflexivity |].
  intros x [-> | [-> | [-> | [-> | ->]]]].
  - exact V0.
  - now apply Vq0.
  - apply visible_scale; [lra |]. apply visible_add; now apply Vq0.
  - now apply Vq0.
  - exact V2.
Qed.

Lemma target_lightness_pos (t contrast brightness l : R) :
  0 <= contrast < 1 -> 0 < brightness -> 0 <= t ->
  target_lightness t contrast brightness = Some l -> 0 < l.
Proof.
  intros Hc Hb Ht H.
  rewrite target_lightness_some in H. injection H as <-.
  set (e := (1 - contrast) * brightness + t * contrast).
  assert (He : 0 < e).
  { assert (0 < (1 - contrast) * brightness)
      by (apply Rmult_lt_0_compat; lra).
    assert (0 <= t * contrast) by (apply Rmult_le_pos; lra).
    unfold e. lra. }
  assert (Rpower 0.2 e < 1).
  { rewrite <- (Rpower_O 0.2) by lra.
    unfold Rpower. apply exp_increasing.
    assert (ln 0.2 < 0).
    { rewrite <- ln_1. apply ln_increasing; lra. }
    nra. }
  lra.
Qed.

(** An entry of a profile whose control points are in order and accepted
    by [luv_to_xyz] is converted, when the lightness asked for is positive
    and at most that of the last control point. *)
Lemma profile_entry_converts (t contrast brightness l : R)
    (cp : ColorPoints) :
  LUV.l (p0 cp) = 0 ->
  LUV.l (p0 cp) <= LUV.l (q0 cp) <= LUV.l (q1 cp) ->
  LUV.l (q1 cp) <= LUV.l (q2 cp) <= LUV.l (p2 cp) ->
  (forall x, x = p0 cp \/ x = q0 cp \/ x = q1 cp \/ x = q2 cp \/ x = p2 cp ->
             LUV.l x <= LUV.v x + 13 * LUV.l x * d65_v_prime) ->
  LUV.l (p0 cp) - 2 * LUV.l (q0 cp) + LUV.l (q1 cp) <> 0 ->
  LUV.l (q1 cp) - 2 * LUV.l (q2 cp) + LUV.l (p2 cp) <> 0 ->
  target_lightness t contrast brightness = Some l ->
  0 < l <= LUV.l (p2 cp) ->
  exists c bytes,
    get_colormap_entry t (p0 cp) (p2 cp) (q0 cp) (q1 cp) (q2 cp)
      contrast brightness = Some c /\
    LUV.l c = l /\
    LUV.l c <= LUV.v c + 13 * LUV.l c * d65_v_prime /\
    convert_colormap_entry c = Some bytes.
Proof.
  intros H0 H1 H2 HV HA HA' Ht Hl.
  destruct (entry_in_range t contrast brightness l _ _ _ _ _ H1 H2 HA HA' Ht
              ltac:(lra)) as (s & Hs & [[E El] | [E El]]).
  - assert (V : LUV.l (B (p0 cp) (q0 cp) (q1 cp) s)
                <= LUV.v (B (p0 cp) (q0 cp) (q1 cp) s)
                   + 13 * LUV.l (B (p0 cp) (q0 cp) (q1 cp) s) * d65_v_prime)
      by (apply visible_B; [exact Hs | | |]; apply HV; tauto).
    assert (Hpos : 0 < LUV.l (B (p0 cp) (q0 cp) (q1 cp) s)) by lra.
    destruct (visible_converts _ Hpos V) as (bytes & Hb).
    eexists _, bytes. split; [exact E |]. split; [exact El |].
    split; [exact V | exact Hb].
  - assert (V : LUV.l (B (q1 cp) (q2 cp) (p2 cp) s)
                <= LUV.v (B (q1 cp) (q2 cp) (p2 cp) s)
                   + 13 * LUV.l (B (q1 cp) (q2 cp) (p2 cp) s) * d65_v_prime)
      by (apply visible_B; [exact Hs | | |]; apply HV; tauto).
    assert (Hpos : 0 < LUV.l (B (q1 cp) (q2 cp) (p2 cp) s)) by lra.
    destruct (visible_converts _ Hpos V) as (bytes & Hb).
    eexists _, bytes. split; [exact E |]. split; [exact El |].
    split; [exact V | exact Hb].
Qed.

(** The lightnesses of the control points. *)
Lemma color_points_lightness (hue saturation warmth : R) (pb : LUVColor)
    (pbh pbs : R) (cp : ColorPoints) :
  bright_point_lch = Some (pb, pbh, pbs) ->
  get_color_points hue saturation warmth pb pbh pbs = Some cp ->
  exists m,
    32 < m <= LUV.l pb /\ LUV.l pb < 98 /\
    LUV.l (p0 cp) = 0 /\
    LUV.l (p2 cp) = (1 - warmth) * 100 + warmth * LUV.l pb /\
    LUV.l (q0 cp) = saturation * m /\
    LUV.l (q2 cp) = (1 - saturation) * LUV.l (p2 cp) + saturation * m /\
    LUV.l (q1 cp) = 0.5 * (LUV.l (q0 cp) + LUV.l (q2 cp)).
Proof.
  intros Hb H.
  rewrite bright_point_lch_some in Hb. injection Hb as <- _ _.
  unfold get_color_points in H. unfold lch_to_luv in H.
  destruct (most_saturated_in_srgb hue) as [c1 |] eqn:Hm; [| discriminate].
  cbn [bind ret] in H.
  destruct (mix_hue warmth hue pbh) as [p2h |]; [| discriminate].
  cbn [bind ret] in H.
  destruct (Smax _ p2h) as [sm |]; [| discriminate].
  cbn [bind ret] in H. unfold ret in H. injection H as <-.
  destruct (most_saturated_inv hue c1 Hm) as (i & j & k & t & Hin & Ht & E).
  pose proof (edge_luv_bounds i j k t Hin Ht) as [[Hlo Hup] _].
  cbv zeta in E, Hlo, Hup. rewrite <- E in Hlo, Hup.
  assert (Hy : LUV.l (luv_of_rgb 1 1 0) < 98).
  { pose proof (edge_luv_bounds 1 2 0 1) as [_ Hy2];
      [unfold sector_indices; simpl; tauto | lra |].
    unfold edge_triple in Hy2. simpl in Hy2. exact Hy2. }
  exists (LUV.l c1).
  split; [split; assumption |]. split; [exact Hy |].
  cbn [p0 p2 q0 q1 q2]. luv_fields.
  repeat split; ring.
Qed.

(** X28.  For [n >= 2], a hue in [0, 2 PI), a contrast in
    [0, 1), a saturation and a warmth in [0, 1] and a positive brightness:
    the control points are defined, and BrewerSequential returns [n] entries
    whenever the lightness [top] asked for at position 1 is at most that of
    [p2] and neither curve has equally spaced control lightnesses.  The
    first condition holds for a warmth of 0 and a brightness of at most 1;
    the second for a saturation of 0, and for a saturation of 1 with a
    warmth below 1. *)
Theorem BrewerSequential_total (n : Z)
    (hue contrast saturation brightness warmth : R) :
  (2 <= n)%Z -> 0 <= hue < 2 * PI -> 0 <= contrast < 1 ->
  0 <= saturation <= 1 -> 0 < brightness -> 0 <= warmth <= 1 ->
  exists pb pbh pbs cp top,
    bright_point_lch = Some (pb, pbh, pbs) /\
    get_color_points hue saturation warmth pb pbh pbs = Some cp /\
    target_lightness 1 contrast brightness = Some top /\
    (warmth = 0 -> brightness <= 1 -> top <= LUV.l (p2 cp)) /\
    (saturation = 0 \/ (saturation = 1 /\ warmth < 1) ->
     LUV.l (p0 cp) - 2 * LUV.l (q0 cp) + LUV.l (q1 cp) <> 0 /\
     LUV.l (q1 cp) - 2 * LUV.l (q2 cp) + LUV.l (p2 cp) <> 0) /\
    (top <= LUV.l (p2 cp) ->
     LUV.l (p0 cp) - 2 * LUV.l (q0 cp) + LUV.l (q1 cp) <> 0 ->
     LUV.l (q1 cp) - 2 * LUV.l (q2 cp) + LUV.l (p2 cp) <> 0 ->
     exists colormap,
       BrewerSequential n hue contrast saturation brightness warmth
         = Some colormap /\
       length colormap = Z.to_nat n).
Proof.
  intros Hn Hh Hc Hs Hb Hw.
  destruct (get_color_points_total_aux hue saturation warmth Hh Hw)
    as (pb & pbh & pbs & cp & Ebp & Ecp & _ & _ & Ep2 & Hord).
  destruct (Hord Hs) as [O1 O2].
  destruct (color_points_visible _ _ _ _ _ _ _ Hs Hw Ebp Ecp) as [H0 HV].
  exists pb, pbh, pbs, cp, (125 - 125 * Rpower 0.2 ((1 - contrast) * brightness
                                                   + 1 * contrast)).
  split; [exact Ebp |]. split; [exact Ecp |].
  split; [apply target_lightness_some |]. split; [| split].
  - intros -> Hb1. rewrite Ep2.
    assert (He : (1 - contrast) * brightness + 1 * contrast <= 1).
    { assert (0 <= (1 - contrast) * (1 - brightness))
        by (apply Rmult_le_pos; lra).
      lra. }
    pose proof (Rpower_fifth_decreasing _ _ He) as Hp.
    rewrite Rpower_1 in Hp by lra. lra.
  - destruct (color_points_lightness _ _ _ _ _ _ _ Ebp Ecp)
      as (m & Hm & Hy & L0 & L2 & Lq0 & Lq2 & Lq1).
    rewrite Lq1, Lq2, Lq0, L2, L0.
    assert (Hwy : 0 <= warmth * LUV.l pb) by (apply Rmult_le_pos; lra).
    assert (Hwy2 : 0 <= (1 - warmth) * (100 - LUV.l pb))
      by (apply Rmult_le_pos; lra).
    intros [-> | [-> Hw1]].
    + split; lra.
    + assert (0 < (1 - warmth) * (100 - LUV.l pb))
        by (apply Rmult_lt_0_compat; lra).
      split; lra.
  - intros Htop HA HA'.
    unfold BrewerSequential. rewrite Ebp. cbn [bind]. rewrite Ecp. cbn [bind].
    rewrite write_loop_spec.
    destruct (mapM_total
                (fun j => c <- Sequential.color n cp contrast brightness j ;;
                          convert_colormap_entry c)
                (zrange 0 (Z.to_nat n))) as (ys & Hys).
    { intros i Hi. apply zrange_In in Hi. rewrite Z2Nat.id in Hi by lia.
      unfold Sequential.color. rewrite Helix_fract by assumption.
      cbn [bind ret].
      set (t := IZR (n - 1 - i) / (IZR n - 1)).
      assert (Ht : 0 <= t <= 1).
      { unfold t. apply unit_ratio.
        - rewrite !minus_IZR. destruct Hi as [Hi1 Hi2].
          assert (Hi3 : (i <= n - 1)%Z) by lia.
          apply IZR_le in Hi1, Hi3. rewrite minus_IZR in Hi3. simpl in *. lra.
        - apply IZR_le in Hn. lra. }
      pose proof (target_lightness_some t contrast brightness) as Etl.
      set (l := 125 - 125 * Rpower 0.2 _) in Etl.
      assert (Hl0 : 0 < l)
        by (apply (target_lightness_pos t contrast brightness); (lra || assumption)).
      assert (Hl1 : l <= LUV.l (p2 cp)).
      { apply Rle_trans with
          (125 - 125 * Rpower 0.2 ((1 - contrast) * brightness + 1 * contrast));
          [| exact Htop].
        apply (target_lightness_mono t 1 contrast brightness);
          [lra | lra | exact Etl | apply target_lightness_some]. }
      destruct (profile_entry_converts t contrast brightness l cp H0 O1 O2 HV
                  HA HA' Etl ltac:(lra)) as (c & bytes & Ec & _ & _ & Eb).
      exists bytes. rewrite Ec. cbn [bind]. exact Eb. }
    rewrite Hys. cbn [bind ret app].
    exists ys. split; [reflexivity |].
    rewrite (mapM_length _ _ _ Hys). apply zrange_length.
Qed.

Lemma BrewerSequential_total_witness :
  exists pb pbh pbs cp top,
    bright_point_lch = Some (pb, pbh, pbs) /\
    get_color_points 0 1 0 pb pbh pbs = Some cp /\
    target_lightness 1 (1 / 2) 1 = Some top /\
    (0 = 0 -> 1 <= 1 -> top <= LUV.l (p2 cp)) /\
    (1 = 0 \/ (1 = 1 /\ 0 < 1) ->
     LUV.l (p0 cp) - 2 * LUV.l (q0 cp) + LUV.l (q1 cp) <> 0 /\
     LUV.l (q1 cp) - 2 * LUV.l (q2 cp) + LUV.l (p2 cp) <> 0) /\
    (top <= LUV.l (p2 cp) ->
     LUV.l (p0 cp) - 2 * LUV.l (q0 cp) + LUV.l (q1 cp) <> 0 ->
     LUV.l (q1 cp) - 2 * LUV.l (q2 cp) + LUV.l (p2 cp) <> 0 ->
     exists colormap,
       BrewerSequential 2 0 (1 / 2) 1 1 0 = Some colormap /\
       length colormap = Z.to_nat 2).
Proof.
  pose proof PI_RGT_0 as Hpi.
  apply (BrewerSequential_total 2 0 (1 / 2) 1 1 0); (lia || lra).
Defined.

(** ** The diverging generator returns *)

Lemma saturation_nonneg (l u v : R) : 0 <= hypotf u v / Rmax l 1e-8.
Proof.
  apply Rmult_le_pos; [unfold hypotf; apply sqrt_pos |].
  apply Rlt_le, Rinv_0_lt_compat.
  apply Rlt_le_trans with 1e-8; [lra | apply Rmax_r].
Qed.

(** The neutral colour in the middle is converted when the two endpoint
    colours have the lightness asked for at position 1. *)
Lemma neutral_converts (n : Z) (cp0 cp1 : ColorPoints)
    (contrast brightness warmth : R) (c0 c1 : LUVColor) (top : R) :
  0 <= warmth -> 0 < top <= 100 ->
  get_colormap_entry 1 (p0 cp0) (p2 cp0) (q0 cp0) (q1 cp0) (q2 cp0)
    contrast brightness = Some c0 ->
  get_colormap_entry 1 (p0 cp1) (p2 cp1) (q0 cp1) (q1 cp1) (q2 cp1)
    contrast brightness = Some c1 ->
  LUV.l c0 = top -> LUV.l c1 = top ->
  LUV.l c0 <= LUV.v c0 + 13 * LUV.l c0 * d65_v_prime ->
  LUV.l c1 <= LUV.v c1 + 13 * LUV.l c1 * d65_v_prime ->
  exists bytes,
    (c <- Diverging.neutral n cp0 cp1 contrast brightness warmth
            (hue_of_rgb 1 1 0) ;;
     convert_colormap_entry c) = Some bytes.
Proof.
  intros Hw Htop E0 E1 L0 L1 V0 V1.
  destruct corner_hue_bounds as (_ & bY & _).
  pose proof PI_RGT_0 as Hpi.
  unfold Diverging.neutral. rewrite E0, E1. cbn [bind ret].
  destruct (n <=? 9)%Z.
  - rewrite !luv_saturation_total. cbn [bind ret].
    set (cl := 0.5 * (LUV.l c0 + LUV.l c1)).
    assert (Ecl : cl = top) by (unfold cl; lra).
    destruct (Smax_total cl (hue_of_rgb 1 1 0)) as (sm & Hsm).
    { apply hue_domain. lra. }
    rewrite Hsm. cbn [bind ret].
    pose proof (Smax_nonneg _ _ _ Hsm ltac:(lra)) as Hsm0.
    unfold lch_to_luv, lch_chroma. rewrite fmin_Rmin.
    set (sn := 0.5 * (_ + _) * warmth).
    assert (Hsn : 0 <= sn).
    { unfold sn.
      pose proof (saturation_nonneg (LUV.l c0) (LUV.u c0) (LUV.v c0)).
      pose proof (saturation_nonneg (LUV.l c1) (LUV.u c1) (LUV.v c1)).
      apply Rmult_le_pos; lra. }
    assert (Hcs : 0 <= Rmin sm sn)
      by (unfold Rmin; destruct (Rle_dec sm sn); lra).
    apply visible_converts; cbn [LUV.l LUV.v]; [lra |].
    assert (0 < sin (hue_of_rgb 1 1 0)) by (apply sin_gt_0; lra).
    assert (0 <= Rmin sm sn * cl * sin (hue_of_rgb 1 1 0)).
    { apply Rmult_le_pos; [apply Rmult_le_pos |]; lra. }
    rewrite d65_v_prime_val. lra.
  - apply visible_converts.
    + luv_fields. lra.
    + apply visible_scale; [lra |]. now apply visible_add.
Qed.

(** X29.  For [n >= 2], a hue and a divergence in [0, 2 PI), a
    contrast in [0, 1), a saturation and a warmth in [0, 1] and a positive
    brightness: the second hue [hue1] is in [0, 2 PI), the control points of
    both sides are defined, and BrewerDiverging returns [n] entries whenever
    the lightness [top] asked for at position 1 is at most that of [p2] and
    none of the four curves has equally spaced control lightnesses. *)
Theorem BrewerDiverging_total (n : Z)
    (hue divergence contrast saturation brightness warmth : R) :
  (2 <= n)%Z -> 0 <= hue < 2 * PI -> 0 <= divergence < 2 * PI ->
  0 <= contrast < 1 -> 0 <= saturation <= 1 -> 0 < brightness ->
  0 <= warmth <= 1 ->
  exists pb pbh pbs hue1 cp0 cp1 top,
    bright_point_lch = Some (pb, pbh, pbs) /\
    hue1 = (if fleb twopi (hue + divergence) then hue + divergence - twopi
            else hue + divergence) /\
    0 <= hue1 < 2 * PI /\
    get_color_points hue saturation warmth pb pbh pbs = Some cp0 /\
    get_color_points hue1 saturation warmth pb pbh pbs = Some cp1 /\
    target_lightness 1 contrast brightness = Some top /\
    LUV.l (p2 cp0) = LUV.l (p2 cp1) /\
    (top <= LUV.l (p2 cp0) ->
     LUV.l (p0 cp0) - 2 * LUV.l (q0 cp0) + LUV.l (q1 cp0) <> 0 ->
     LUV.l (q1 cp0) - 2 * LUV.l (q2 cp0) + LUV.l (p2 cp0) <> 0 ->
     LUV.l (p0 cp1) - 2 * LUV.l (q0 cp1) + LUV.l (q1 cp1) <> 0 ->
     LUV.l (q1 cp1) - 2 * LUV.l (q2 cp1) + LUV.l (p2 cp1) <> 0 ->
     exists colormap,
       BrewerDiverging n hue divergence contrast saturation brightness warmth
         = Some colormap /\
       length colormap = Z.to_nat n).
Proof.
  intros Hn Hh Hd Hc Hs Hb Hw. pose proof PI_RGT_0 as Hpi.
  set (hue1 := if fleb twopi (hue + divergence) then hue + divergence - twopi
               else hue + divergence).
  assert (Hh1 : 0 <= hue1 < 2 * PI).
  { unfold hue1. destruct (fleb twopi (hue + divergence)) eqn:E.
    - apply fleb_true in E. unfold twopi in *. lra.
    - apply fleb_false in E. unfold twopi in *. lra. }
  destruct (get_color_points_total_aux hue saturation warmth Hh Hw)
    as (pb & pbh & pbs & cp0 & Ebp & Ecp0 & _ & _ & Ep20 & Hord0).
  destruct (get_color_points_total_aux hue1 saturation warmth Hh1 Hw)
    as (pb' & pbh' & pbs' & cp1 & Ebp' & Ecp1 & _ & _ & Ep21 & Hord1).
  rewrite Ebp in Ebp'. injection Ebp' as <- <- <-.
  destruct (Hord0 Hs) as [O01 O02]. destruct (Hord1 Hs) as [O11 O12].
  destruct (color_points_visible _ _ _ _ _ _ _ Hs Hw Ebp Ecp0) as [H00 HV0].
  destruct (color_points_visible _ _ _ _ _ _ _ Hs Hw Ebp Ecp1) as [H10 HV1].
  assert (Epbh : pbh = hue_of_rgb 1 1 0).
  { pose proof bright_point_lch_some as Eb'. rewrite Ebp in Eb'.
    now injection Eb'. }
  assert (Hp2 : LUV.l (p2 cp0) <= 100).
  { destruct (color_points_lightness _ _ _ _ _ _ _ Ebp Ecp0)
      as (m & Hm & Hy & _ & L2 & _).
    rewrite L2.
    assert (0 <= warmth * (100 - LUV.l pb)) by (apply Rmult_le_pos; lra).
    lra. }
  exists pb, pbh, pbs, hue1, cp0, cp1,
    (125 - 125 * Rpower 0.2 ((1 - contrast) * brightness + 1 * contrast)).
  split; [exact Ebp |]. split; [reflexivity |]. split; [exact Hh1 |].
  split; [exact Ecp0 |]. split; [exact Ecp1 |].
  split; [apply target_lightness_some |].
  split; [now rewrite Ep20, Ep21 |].
  intros Htop HA0 HA0' HA1 HA1'.
  set (top := 125 - 125 * Rpower 0.2 _) in *.
  pose proof (target_lightness_some 1 contrast brightness) as Etop.
  fold top in Etop.
  assert (Htop0 : 0 < top)
    by (apply (target_lightness_pos 1 contrast brightness); (lra || assumption)).
  assert (Htop1 : top <= LUV.l (p2 cp1)) by (rewrite Ep21, <- Ep20; exact Htop).
  (* an entry of either side, at a position in [0, 1] *)
  assert (Hside : forall cp tt,
            LUV.l (p0 cp) = 0 ->
            LUV.l (p0 cp) <= LUV.l (q0 cp) <= LUV.l (q1 cp) ->
            LUV.l (q1 cp) <= LUV.l (q2 cp) <= LUV.l (p2 cp) ->
            (forall x, x = p0 cp \/ x = q0 cp \/ x = q1 cp \/ x = q2 cp
                       \/ x = p2 cp ->
                       LUV.l x <= LUV.v x + 13 * LUV.l x * d65_v_prime) ->
            LUV.l (p0 cp) - 2 * LUV.l (q0 cp) + LUV.l (q1 cp) <> 0 ->
            LUV.l (q1 cp) - 2 * LUV.l (q2 cp) + LUV.l (p2 cp) <> 0 ->
            top <= LUV.l (p2 cp) -> 0 <= tt <= 1 ->
            exists bytes,
              (c <- get_colormap_entry tt (p0 cp) (p2 cp) (q0 cp) (q1 cp)
                      (q2 cp) contrast brightness ;;
               convert_colormap_entry c) = Some bytes).
  { intros cp tt H0 O1 O2 HV HA HA' Ht2 Htt.
    pose proof (target_lightness_some tt contrast brightness) as Etl.
    set (l := 125 - 125 * Rpower 0.2 _) in Etl.
    assert (Hl0 : 0 < l)
      by (apply (target_lightness_pos tt contrast brightness);
          (lra || assumption)).
    assert (Hl1 : l <= top).
    { apply (target_lightness_mono tt 1 contrast brightness);
        [lra | lra | exact Etl | exact Etop]. }
    destruct (profile_entry_converts tt contrast brightness l cp H0 O1 O2 HV
                HA HA' Etl ltac:(lra)) as (c & bytes & Ec & _ & _ & Eb).
    exists bytes. rewrite Ec. cbn [bind]. exact Eb. }
  unfold BrewerDiverging. cbv zeta. fold hue1.
  rewrite Ebp. cbn [bind]. rewrite Ecp0. cbn [bind]. rewrite Ecp1. cbn [bind].
  rewrite write_loop_spec.
  destruct (mapM_total
              (fun j => c <- Diverging.color n cp0 cp1 contrast brightness
                              warmth pbh j ;;
                        convert_colormap_entry c)
              (zrange 0 (Z.to_nat n))) as (ys & Hys).
  { intros i Hi. apply zrange_In in Hi. rewrite Z2Nat.id in Hi by lia.
    destruct (quot2_bounds n ltac:(lia)) as [Hq Hr].
    assert (Hn1 : 0 < IZR n - 1) by (apply IZR_le in Hn; lra).
    unfold Diverging.color.
    destruct ((Z.rem n 2 =? 1) && (i =? Z.quot n 2))%Z eqn:Emid.
    - (* the neutral colour *)
      destruct (profile_entry_converts 1 contrast brightness top cp0 H00 O01
                  O02 HV0 HA0 HA0' Etop ltac:(lra))
        as (c0 & _ & Ec0 & L0 & V0 & _).
      destruct (profile_entry_converts 1 contrast brightness top cp1 H10 O11
                  O12 HV1 HA1 HA1' Etop ltac:(lra))
        as (c1 & _ & Ec1 & L1 & V1 & _).
      rewrite Epbh.
      apply (neutral_converts n cp0 cp1 contrast brightness warmth c0 c1 top);
        (assumption || lra).
    - rewrite Helix_fract by assumption. cbn [bind ret].
      apply andb_false_iff in Emid.
      destruct (i <? Z.quot n 2)%Z eqn:El.
      + apply Z.ltb_lt in El.
        apply Hside; try assumption.
        assert (H2i : (2 * i <= n - 1)%Z) by lia.
        destruct Hi as [Hi0 _]. apply IZR_le in Hi0, H2i.
        rewrite mult_IZR, minus_IZR in H2i.
        replace (2 * (IZR i / (IZR n - 1))) with (2 * IZR i / (IZR n - 1))
          by (field; lra).
        apply unit_ratio; simpl in *; lra.
      + apply Z.ltb_ge in El.
        apply Hside; try assumption.
        assert (H2i : (n - 1 <= 2 * i)%Z).
        { destruct Emid as [E | E].
          - apply Z.eqb_neq in E. lia.
          - apply Z.eqb_neq in E. lia. }
        assert (Hi1 : (i <= n - 1)%Z) by lia.
        apply IZR_le in Hi1, H2i.
        rewrite mult_IZR, minus_IZR in H2i. rewrite minus_IZR in Hi1.
        replace (2 * (1 - IZR i / (IZR n - 1)))
          with (2 * (IZR n - 1 - IZR i) / (IZR n - 1)) by (field; lra).
        apply unit_ratio; simpl in *; lra. }
  rewrite Hys. cbn [bind ret app].
  exists ys. split; [reflexivity |].
  rewrite (mapM_length _ _ _ Hys). apply zrange_length.
Qed.

Lemma BrewerDiverging_total_witness :
  exists pb pbh pbs hue1 cp0 cp1 top,
    bright_point_lch = Some (pb, pbh, pbs) /\
    hue1 = (if fleb twopi (0 + 1) then 0 + 1 - twopi else 0 + 1) /\
    0 <= hue1 < 2 * PI /\
    get_color_points 0 1 0 pb pbh pbs = Some cp0 /\
    get_color_points hue1 1 0 pb pbh pbs = Some cp1 /\
    target_lightness 1 (1 / 2) 1 = Some top /\
    LUV.l (p2 cp0) = LUV.l (p2 cp1) /\
    (top <= LUV.l (p2 cp0) ->
     LUV.l (p0 cp0) - 2 * LUV.l (q0 cp0) + LUV.l (q1 cp0) <> 0 ->
     LUV.l (q1 cp0) - 2 * LUV.l (q2 cp0) + LUV.l (p2 cp0) <> 0 ->
     LUV.l (p0 cp1) - 2 * LUV.l (q0 cp1) + LUV.l (q1 cp1) <> 0 ->
     LUV.l (q1 cp1) - 2 * LUV.l (q2 cp1) + LUV.l (p2 cp1) <> 0 ->
     exists colormap,
       BrewerDiverging 3 0 1 (1 / 2) 1 1 0 = Some colormap /\
       length colormap = Z.to_nat 3).
Proof.
  pose proof PI2_3_2 as Hpi.
  apply (BrewerDiverging_total 3 0 1 (1 / 2) 1 1 0); (lia || lra).
Defined.

(** * Lightness along the entries of a sequential map *)








(** * Where the solver wraps

    A hue at or above the hue of magenta, and a hue below the hue of red, take
    the solver's last branch, which a whole turn does not leave.  A hue
    strictly between takes one of the five other branches, whose edge of the
    cube is not the edge from red to magenta: the two colours differ. *)

(** The LUV colour determines the linear RGB triple it comes from. *)
Lemma luv_of_rgb_injective (r g b r' g' b' : R) :
  0 <= r -> 0 <= g -> 0 <= b -> 0 < r + g + b ->
  0 <= r' -> 0 <= g' -> 0 <= b' -> 0 < r' + g' + b' ->
  luv_of_rgb r g b = luv_of_rgb r' g' b' ->
  r = r' /\ g = g' /\ b = b'.
Proof.
  intros Hr Hg Hb H Hr' Hg' Hb' H' E.
  unfold luv_of_rgb in E. injection E as El Eu Ev.
  pose proof (luma_pos r g b Hr Hg Hb H) as Hy.
  pose proof (luma_pos r' g' b' Hr' Hg' Hb' H') as Hy'.
  pose proof (lightness_of_pos _ Hy) as HL.
  assert (Ey : luma r g b = luma r' g' b').
  { rewrite <- (lightness_inverse _ Hy), <- (lightness_inverse _ Hy').
    now rewrite El. }
  rewrite <- El in Eu, Ev.
  assert (Edu : chroma_du r g b = chroma_du r' g' b').
  { apply Rmult_eq_reg_l with (13 * lightness_of (luma r g b)); lra. }
  assert (Edv : chroma_dv r g b = chroma_dv r' g' b').
  { apply Rmult_eq_reg_l with (13 * lightness_of (luma r g b)); lra. }
  pose proof (rgb_denominator_pos r g b Hr Hg Hb H) as HS.
  pose proof (rgb_denominator_pos r' g' b' Hr' Hg' Hb' H') as HS'.
  unfold chroma_du, chroma_dv, luma, rgb_to_xyz in *.
  set (x := (0.4124 * r + 0.3576 * g + 0.1805 * b) * 100) in *.
  set (y := (0.2126 * r + 0.7152 * g + 0.0722 * b) * 100) in *.
  set (z := (0.0193 * r + 0.1192 * g + 0.9505 * b) * 100) in *.
  set (x' := (0.4124 * r' + 0.3576 * g' + 0.1805 * b') * 100) in *.
  set (y' := (0.2126 * r' + 0.7152 * g' + 0.0722 * b') * 100) in *.
  set (z' := (0.0193 * r' + 0.1192 * g' + 0.9505 * b') * 100) in *.
  set (S := x + 15 * y + 3 * z) in *. set (S' := x' + 15 * y' + 3 * z') in *.
  assert (ES : S = S').
  { assert (E1 : 9 * y / S = 9 * y' / S') by lra.
    rewrite <- Ey in E1.
    assert (E2 : 9 * y * S' = 9 * y * S).
    { apply (f_equal (fun w => w * S * S')) in E1.
      replace (9 * y / S * S * S') with (9 * y * S') in E1 by (field; lra).
      replace (9 * y / S' * S * S') with (9 * y * S) in E1 by (field; lra).
      exact E1. }
    apply Rmult_eq_reg_l with (9 * y); lra. }
  assert (Ex : x = x').
  { assert (E1 : 4 * x / S = 4 * x' / S') by lra.
    rewrite <- ES in E1.
    apply (f_equal (fun w => w * S)) in E1.
    replace (4 * x / S * S) with (4 * x) in E1 by (field; lra).
    replace (4 * x' / S * S) with (4 * x') in E1 by (field; lra).
    lra. }
  assert (Ez : z = z') by (unfold S, S' in ES; lra).
  unfold x, y, z, x', y', z' in Ex, Ey, Ez.
  repeat split; lra.
Qed.

(** Strictly between 0 and 1 the way to sRGB and back stays strictly
    between 0 and 1, inside the window of [srgb_roundtrip] too. *)
Lemma srgb_roundtrip_inner (x s t : R) :
  0 < x < 1 ->
  rgb_to_srgb_helper x = Some s -> srgb_to_rgb_helper s = Some t ->
  0 < t < 1.
Proof.
  intros Hx Hs Ht.
  destruct (srgb_roundtrip x ltac:(lra)) as (s' & t' & Hs' & Ht' & Hr & Hw).
  rewrite Hs in Hs'. injection Hs' as <-.
  rewrite Ht in Ht'. injection Ht' as <-.
  destruct (Rle_dec x 0.0031308) as [Hlo | Hlo]; [rewrite Hw; lra |].
  destruct (Rle_dec 0.0031309 x) as [Hhi | Hhi]; [rewrite Hw; lra |].
  unfold rgb_to_srgb_helper in Hs.
  replace (fleb x 0.0031308) with false in Hs
    by (symmetry; apply fleb_false; lra).
  rewrite powf_pos in Hs by lra. cbn [bind ret] in Hs. injection Hs as <-.
  assert (Hp : 0.09 <= Rpower x (1 / 2.4)).
  { apply Rpower_root_ge; [lra | lra |].
    apply Rle_trans with (0.0031308 ^ 5); [lra |].
    apply pow_incr. lra. }
  pose proof (Rpower_le_1 x (1 / 2.4) ltac:(lra) ltac:(lra)) as Hp1.
  unfold srgb_to_rgb_helper in Ht.
  destruct (fleb _ 0.04045) eqn:E.
  - apply fleb_true in E. unfold ret in Ht. injection Ht as <-. lra.
  - replace ((1.055 * Rpower x (1 / 2.4) - 0.055 + 0.055) / 1.055)
      with (Rpower x (1 / 2.4)) in Ht by (field; lra).
    rewrite powf_pos in Ht by apply Rpower_pos.
    rewrite Rpower_mult in Ht.
    replace (1 / 2.4 * 2.4) with 1 in Ht by lra.
    rewrite Rpower_1 in Ht by lra. injection Ht as <-. lra.
Qed.

(** [most_saturated_eval], with the ends of the edge: the colour is at an
    end of the edge only when the clamped quotient is. *)
Lemma most_saturated_eval_inner (hue : R) (i j k : nat) :
  sector corner_hues hue = (i, j, k) ->
  solver_q hue i <> 0 ->
  let q := clamp01 (- solver_q hue k / solver_q hue i) in
  exists t,
    0 <= t <= 1 /\ (0 < q -> 0 < t) /\ (q < 1 -> t < 1) /\
    let e := edge_triple i j k t in
    most_saturated_in_srgb hue
      = Some (luv_of_rgb (nth 0 e 0) (nth 1 e 0) (nth 2 e 0)).
Proof.
  intros Hs Hq q.
  pose proof (sector_In corner_hues hue) as Hin. rewrite Hs in Hin.
  pose proof (clamp01_range (- solver_q hue k / solver_q hue i)) as Hc.
  fold q in Hc.
  destruct (srgb_roundtrip _ Hc) as (s & t & Hs1 & Hs2 & Hs3 & Hs4).
  exists t. split; [exact Hs3 |]. split; [| split].
  - intros H0. destruct (Rlt_dec q 1) as [H1 | H1].
    + apply (srgb_roundtrip_inner q s t); [lra | exact Hs1 | exact Hs2].
    + rewrite Hs4; lra.
  - intros H1. destruct (Rlt_dec 0 q) as [H0 | H0].
    + apply (srgb_roundtrip_inner q s t); [lra | exact Hs1 | exact Hs2].
    + rewrite Hs4; lra.
  - unfold most_saturated_in_srgb, boundary_srgb.
    rewrite hue_table_some. cbn [bind ret]. rewrite Hs.
    fold (solver_q hue k). fold (solver_q hue i).
    rewrite fdiv_some by assumption. cbn [bind ret].
    rewrite clamp_clamp01. fold q. rewrite Hs1. cbn [bind ret].
    pose proof (rgb_to_luv_some) as Hl. unfold rgb_to_luv in Hl.
    unfold edge_triple.
    simpl in Hin.
    destruct Hin as [E | [E | [E | [E | [E | [E | []]]]]]];
      inversion E; subst i j k; simpl;
      unfold srgb_to_rgb;
      rewrite ?srgb_to_rgb_helper_0, ?srgb_to_rgb_helper_1, ?Hs2;
      cbn [bind ret]; apply Hl; lra.
Qed.

(** The solver faults when its divisor [q1] is 0. *)
Lemma most_saturated_fault (hue : R) (i j k : nat) :
  sector corner_hues hue = (i, j, k) ->
  solver_q hue i = 0 ->
  most_saturated_in_srgb hue = None.
Proof.
  intros Hs Hz. unfold most_saturated_in_srgb, boundary_srgb.
  rewrite hue_table_some. cbn [bind ret]. rewrite Hs.
  fold (solver_q hue k). fold (solver_q hue i).
  rewrite Hz, fdiv_zero. reflexivity.
Qed.

(** Between the hue of red and the hue of magenta the solver does not take
    its outer branch. *)
Lemma sector_inner (hue : R) :
  nth 0 corner_hues 0 <= hue < nth 5 corner_hues 0 ->
  sector corner_hues hue <> (2, 1, 0)%nat.
Proof.
  intros [H0 H5].
  unfold sector, corner_hues in *. simpl nth in *.
  replace (fltb hue (hue_of_rgb 1 0 0)) with false
    by (symmetry; apply fltb_false; lra).
  replace (fltb hue (hue_of_rgb 1 0 1)) with true
    by (symmetry; apply fltb_true; lra).
  repeat match goal with
         | |- context [fltb ?a ?b] => destruct (fltb a b)
         end; discriminate.
Qed.

(** Strictly between the hues of red and magenta the solver's colour is on
    one of the five edges from red over yellow, green, cyan and blue to
    magenta and not at red or magenta, while a turn later it is on the
    edge between red and magenta, or nothing. *)
Lemma hue_wrap_fails (hue : R) :
  nth 0 corner_hues 0 < hue < nth 5 corner_hues 0 ->
  most_saturated_in_srgb (hue + twopi) <> most_saturated_in_srgb hue.
Proof.
  intros [H0 H5].
  destruct corner_hue_bounds as (bR & _ & _ & _ & _ & bM).
  assert (Hh : 0 <= hue < 2 * PI) by (simpl in H0, H5; lra).
  destruct (sector corner_hues hue) as [[i j] k] eqn:Hs.
  pose proof (sector_inner hue ltac:(lra)) as Hne. rewrite Hs in Hne.
  destruct (solver_on_edge hue i j k Hh Hs) as (Hq1 & Hq & Hhue).
  cbv zeta in Hq, Hhue.
  destruct (most_saturated_eval_inner hue i j k Hs Hq1)
    as (t & Ht & Hpos & Hlt & E).
  rewrite clamp01_id in Hpos, Hlt by exact Hq.
  cbv zeta in E.
  assert (Hs2 : sector corner_hues (hue + twopi) = (2, 1, 0)%nat).
  { apply sector_last. simpl in *. unfold twopi. lra. }
  destruct (Req_dec_T (solver_q (hue + twopi) 2) 0) as [Hz | Hnz].
  { rewrite (most_saturated_fault _ _ _ _ Hs2 Hz), E. discriminate. }
  destruct (most_saturated_eval _ _ _ _ Hs2 Hnz) as (t' & Ht' & _ & E').
  cbv zeta in E'. rewrite E, E'. intros Heq.
  apply (f_equal (fun o => match o with Some c => c | None => LUV.mk 0 0 0 end))
    in Heq.
  pose proof (sector_In corner_hues hue) as Hin. rewrite Hs in Hin.
  pose proof (edge_point_ok i j k t Hin Ht) as (P0 & P1 & P2 & P3).
  pose proof (edge_point_ok 2 1 0 t' ltac:(simpl; tauto) Ht')
    as (P0' & P1' & P2' & P3').
  cbv zeta in P0, P1, P2, P3, P0', P1', P2', P3'.
  apply luv_of_rgb_injective in Heq; try assumption.
  destruct Heq as (Er & Eg & Eb).
  unfold edge_triple in *. simpl in Hin.
  destruct Hin as [X | [X | [X | [X | [X | [X | []]]]]]];
    inversion X; subst i j k; simpl in *; try lra.
  - now apply Hne.
  - (* from red to yellow: green is not 0 *)
    assert (Hq0 : 0 < - solver_q hue 0 / solver_q hue 1).
    { destruct Hq as [[Hq | Hq] _]; [exact Hq | exfalso].
      rewrite <- Hq in Hhue. lra. }
    specialize (Hpos Hq0). lra.
  - (* from blue to magenta: red is not 1 *)
    assert (Hq0 : - solver_q hue 2 / solver_q hue 0 < 1).
    { destruct Hq as [_ [Hq | Hq]]; [exact Hq | exfalso].
      rewrite Hq in Hhue. lra. }
    specialize (Hlt Hq0). lra.
Qed.

(** The solver's coefficients depend on the hue through its sine and
    cosine only. *)
Lemma solver_q_period (hue : R) (k c : nat) :
  solver_q (hue + INR k * twopi) c = solver_q hue c.
Proof.
  unfold solver_q.
  replace (hue + INR k * twopi) with (hue + 2 * INR k * PI)
    by (unfold twopi; ring).
  now rewrite sin_period, cos_period.
Qed.

(** At the hue of red, and any number of turns later, the solver returns
    red. *)
Lemma solver_at_red (k : nat) :
  most_saturated_in_srgb (hue_of_rgb 1 0 0 + INR k * twopi)
  = Some (luv_of_rgb 1 0 0).
Proof.
  destruct corner_hue_bounds as (bR & bY & _ & _ & _ & bM).
  destruct corner_hue_order as (o1 & _).
  destruct corner_chroma_signs as ([R1 R2] & _).
  destruct sector_cross_signs as ([_ s1b] & _).
  pose proof PI_RGT_0 as Hpi.
  set (h := hue_of_rgb 1 0 0) in *.
  assert (Hq0 : solver_q h 0 = 0).
  { rewrite solver_q_unfold by lia.
    destruct (hue_cross 1 0 0 (primary_du 0) (primary_dv 0))
      as (kappa & _ & E); try lra.
    fold h in E. rewrite E.
    unfold chroma_du, chroma_dv, rgb_to_xyz, primary_du, primary_dv,
      primary_S, at2, M; simpl.
    field. lra. }
  assert (Hq2 : solver_q h 2 <> 0).
  { rewrite solver_q_unfold by lia.
    apply Rmult_integral_contrapositive_currified.
    - pose proof (primary_S_pos 2 ltac:(lia)). lra.
    - assert (0 < sin h * primary_du 2 - cos h * primary_dv 2); [| lra].
      apply corner_side_pos; auto; lra. }
  assert (Hfin : forall i j, 
            sector corner_hues (h + INR k * twopi) = (i, j, 0)%nat ->
            solver_q h i <> 0 ->
            edge_triple i j 0 0 = [1; 0; 0] ->
            most_saturated_in_srgb (h + INR k * twopi)
            = Some (luv_of_rgb 1 0 0)).
  { intros i j Hs Hq1 He.
    assert (Hq1' : solver_q (h + INR k * twopi) i <> 0)
      by now rewrite solver_q_period.
    destruct (most_saturated_eval _ i j 0%nat Hs Hq1') as (t & _ & Ht & E).
    rewrite !solver_q_period, Hq0 in Ht.
    replace (- 0 / solver_q h i) with 0 in Ht by (unfold Rdiv; ring).
    rewrite clamp01_id in Ht by lra.
    rewrite Ht in E by lra. cbv zeta in E. rewrite He in E. exact E. }
  destruct k as [| k].
  - apply (Hfin 1%nat 2%nat).
    + simpl INR. rewrite Rmult_0_l, Rplus_0_r.
      unfold sector, corner_hues. simpl nth. fold h.
      replace (fltb h h) with false by (symmetry; apply fltb_false; lra).
      replace (fltb h (hue_of_rgb 1 1 0)) with true
        by (symmetry; apply fltb_true; lra).
      reflexivity.
    + apply (solver_q1_nonzero h 1 2 0); [fold h; lra |].
      unfold sector, corner_hues. simpl nth. fold h.
      replace (fltb h h) with false by (symmetry; apply fltb_false; lra).
      replace (fltb h (hue_of_rgb 1 1 0)) with true
        by (symmetry; apply fltb_true; lra).
      reflexivity.
    + reflexivity.
  - apply (Hfin 2%nat 1%nat); [| exact Hq2 | reflexivity].
    apply sector_last. simpl nth.
    assert (H1 : 1 <= INR (S k))
      by (rewrite S_INR; pose proof (pos_INR k); lra).
    assert (H2 : 0 <= (INR (S k) - 1) * twopi)
      by (apply Rmult_le_pos; unfold twopi; lra).
    unfold twopi in *. lra.
Qed.

(** C2, amended.  For a hue not more than a turn below the hue of magenta:
    the solver returns the same a turn later if and only if the hue is at
    most the hue of red or at least the hue of magenta (among the hues of
    [0, 2 PI): from 0 to red's, and from magenta's up to 2 PI).  For these
    hues it returns the same after any number of turns.  It returns a colour
    when the hue is less than a turn above the hue of red. *)
Theorem hue_wrap_iff (hue : R) :
  nth 5 corner_hues 0 - twopi <= hue ->
  (most_saturated_in_srgb (hue + twopi) = most_saturated_in_srgb hue <->
   hue <= nth 0 corner_hues 0 \/ nth 5 corner_hues 0 <= hue) /\
  (hue <= nth 0 corner_hues 0 \/ nth 5 corner_hues 0 <= hue ->
   forall k : nat,
     most_saturated_in_srgb (hue + INR k * twopi)
     = most_saturated_in_srgb hue) /\
  (hue < nth 0 corner_hues 0 + twopi ->
   exists c, most_saturated_in_srgb hue = Some c).
Proof.
  intros Hlo.
  assert (Hp : 0 < twopi) by (unfold twopi; pose proof PI_RGT_0; lra).
  assert (Hk : hue <= nth 0 corner_hues 0 \/ nth 5 corner_hues 0 <= hue ->
            forall k : nat,
              most_saturated_in_srgb (hue + INR k * twopi)
              = most_saturated_in_srgb hue).
  { intros Hout k.
    destruct (Req_dec_T hue (nth 0 corner_hues 0)) as [-> | Hne].
    { simpl nth. rewrite solver_at_red.
      pose proof (solver_at_red 0) as H0. simpl INR in H0.
      rewrite Rmult_0_l, Rplus_0_r in H0. now rewrite H0. }
    assert (Hs : sector corner_hues hue = (2, 1, 0)%nat).
    { destruct Hout; [apply sector_first; lra | now apply sector_last]. }
    apply solver_ext.
    - replace (hue + INR k * twopi) with (hue + 2 * INR k * PI)
        by (unfold twopi; ring).
      apply sin_period.
    - replace (hue + INR k * twopi) with (hue + 2 * INR k * PI)
        by (unfold twopi; ring).
      apply cos_period.
    - rewrite Hs. destruct k as [| k].
      + simpl. now rewrite Rmult_0_l, Rplus_0_r.
      + apply sector_last.
        assert (H1 : 1 <= INR (S k))
          by (rewrite S_INR; pose proof (pos_INR k); lra).
        assert (H2 : 0 <= (INR (S k) - 1) * twopi)
          by (apply Rmult_le_pos; lra).
        lra. }
  split; [| split].
  - split.
    + intros Heq.
      destruct (Rle_dec hue (nth 0 corner_hues 0)); [now left |].
      destruct (Rle_dec (nth 5 corner_hues 0) hue); [now right |].
      exfalso. apply (hue_wrap_fails hue); [lra | exact Heq].
    + intros Hout. specialize (Hk Hout 1%nat). simpl in Hk.
      now rewrite Rmult_1_l in Hk.
  - exact Hk.
  - intros Hup.
    assert (Hdom : hue_of_rgb 1 0 1 - 2 * PI <= hue
                   < hue_of_rgb 1 0 0 + 2 * PI).
    { simpl in Hlo, Hup. unfold twopi in Hlo, Hup. lra. }
    destruct (most_saturated_total hue Hdom) as (i & j & k & t & _ & _ & E).
    eexists. exact E.
Qed.

Lemma hue_wrap_iff_witness :
  (most_saturated_in_srgb (nth 5 corner_hues 0 + twopi)
   = most_saturated_in_srgb (nth 5 corner_hues 0) <->
   nth 5 corner_hues 0 <= nth 0 corner_hues 0
   \/ nth 5 corner_hues 0 <= nth 5 corner_hues 0) /\
  (forall k : nat,
     most_saturated_in_srgb (nth 5 corner_hues 0 + INR k * twopi)
     = most_saturated_in_srgb (nth 5 corner_hues 0)) /\
  exists c, most_saturated_in_srgb (nth 5 corner_hues 0) = Some c.
Proof.
  assert (Hp : 0 < twopi) by (unfold twopi; pose proof PI_RGT_0; lra).
  destruct (hue_wrap_iff (nth 5 corner_hues 0) ltac:(lra))
    as (H1 & H2 & H3).
  split; [exact H1 |].
  split; [exact (H2 (or_intror (Rle_refl _))) |]. apply H3.
  destruct corner_hue_bounds as (bR & _ & _ & _ & _ & bM).
  simpl. unfold twopi. lra.
Defined.
